(** * lotto645 updater: the reconciliation engine of [scripts/update_lotto645.mjs]

    A shallow embedding of the multi-source updater (normalizer, consensus
    resolver, ledger merger, synchronization controller, statistics
    aggregator) and the properties its design document states about it. *)

From Stdlib Require Import ZArith List String Ascii Bool Lia Permutation Sorted.
From Stdlib Require Import DecimalString DecimalZ QArith Qpower Lqa.
Import ListNotations.
Local Open Scope string_scope.
Local Open Scope list_scope.
Local Open Scope Z_scope.
#[local] Set Warnings "-register-all".

(** ** JavaScript numbers

    The finite numbers of the embedding are the integers (draw numbers and
    ball numbers are integer JSON literals, exact below 2^53); the three
    non-finite doubles are kept because the normalizer lets them through.
    A payload with a fractional number is outside the embedding. *)

Inductive num : Type :=
| NaN
| PInf
| NInf
| Fin (z : Z).

Definition num_eq_dec (a b : num) : {a = b} + {a <> b}.
Proof. decide equality; apply Z.eq_dec. Defined.


(** [a - b] *)
Definition num_sub (a b : num) : num :=
  match a, b with
  | NaN, _ | _, NaN => NaN
  | Fin x, Fin y => Fin (x - y)
  | PInf, PInf | NInf, NInf => NaN
  | PInf, _ | _, NInf => PInf
  | NInf, _ | _, PInf => NInf
  end.

(** [a < b], [a <= b], [a >= b] (false as soon as one side is NaN) *)
Definition num_ltb (a b : num) : bool :=
  match a, b with
  | NaN, _ | _, NaN => false
  | Fin x, Fin y => x <? y
  | NInf, NInf | PInf, _ => false
  | NInf, _ => true
  | Fin _, PInf => true
  | Fin _, NInf => false
  end.

Definition num_leb (a b : num) : bool :=
  match a, b with
  | NaN, _ | _, NaN => false
  | Fin x, Fin y => x <=? y
  | NInf, _ => true
  | PInf, PInf => true
  | PInf, _ => false
  | Fin _, PInf => true
  | Fin _, NInf => false
  end.

Definition num_geb (a b : num) : bool := num_leb b a.

(** [Number::toString] on the embedded numbers (decimal digits, no exponent
    form: integers below 10^21). *)
Definition Number_toString (x : num) : string :=
  match x with
  | NaN => "NaN"
  | PInf => "Infinity"
  | NInf => "-Infinity"
  | Fin z => NilZero.string_of_int (Z.to_int z)
  end.

(** ** [Array.prototype.sort] with a compare function

    The sort is stable (ES2019).  For a consistent compare function the
    result is the unique stable ordering, computed here by insertion from
    the right; a compare result of NaN counts as 0, as the language
    prescribes. *)

Section ArraySort.
Context {A : Type}.
Variable comparefn : A -> A -> num.

(** [comparefn(x, y)] is not positive: [x] may stay in front of [y]. *)
Definition not_after (x y : A) : bool :=
  negb (num_ltb (Fin 0) (comparefn x y)).

Fixpoint sort_insert (x : A) (l : list A) : list A :=
  match l with
  | [] => [x]
  | y :: l' => if not_after x y then x :: y :: l' else y :: sort_insert x l'
  end.

Fixpoint Array_sort (l : list A) : list A :=
  match l with
  | [] => []
  | x :: l' => sort_insert x (Array_sort l')
  end.
End ArraySort.

(** ** JSON values as the script sees them after [JSON.parse]

    A text is a sequence of UTF-16 code units; the embedded texts are those
    whose units lie below 256, one character of a [string] per unit, so
    [length] and [slice] of the script are [String.length] and [substring]. *)

Inductive value : Type :=
| VUndefined
| VNull
| VBool (b : bool)
| VNum (n : num)
| VStr (s : string)
| VArr (elems : list value)
| VObj (fields : list (string * value)).

(** [Array.prototype.join] on already converted elements *)
Fixpoint join (sep : string) (l : list string) : string :=
  match l with
  | [] => EmptyString
  | [s] => s
  | s :: l' => String.append s (String.append sep (join sep l'))
  end.

(** Own property lookup; a key written twice in the JSON text keeps its last
    value.  Reading a property of anything but an object gives [undefined]
    for the four names the script reads, and [item?.p] gives [undefined] on
    [null] and [undefined]. *)
Fixpoint lookup_field (k : string) (fs : list (string * value)) : option value :=
  match fs with
  | [] => None
  | (k', v) :: fs' =>
      match lookup_field k fs' with
      | Some v' => Some v'
      | None => if String.eqb k k' then Some v else None
      end
  end.

Definition get_prop (item : value) (k : string) : value :=
  match item with
  | VObj fs => match lookup_field k fs with Some v => v | None => VUndefined end
  | _ => VUndefined
  end.

(** A conversion completes with a value or throws a [TypeError]. *)
Inductive completion (A : Type) : Type :=
| Ok (a : A)
| TypeError.
Arguments Ok {A} a.
Arguments TypeError {A}.

Definition cbind {A B : Type} (c : completion A) (f : A -> completion B)
    : completion B :=
  match c with
  | Ok a => f a
  | TypeError => TypeError
  end.

Notation "x <-- c ;; k" := (cbind c (fun x => k))
  (at level 61, c at next level, right associativity).

(** [arr.map(f)], left to right, up to the first call that throws *)
Fixpoint mapC {A B : Type} (f : A -> completion B) (l : list A)
    : completion (list B) :=
  match l with
  | [] => Ok []
  | x :: l' => y <-- f x ;; ys <-- mapC f l' ;; Ok (y :: ys)
  end.

(** [String(v)].  An object parsed from JSON has no callable property of its
    own, so an own [toString] hides [Object.prototype.toString], and since
    [valueOf] (its own, or the inherited one, which returns the object)
    gives no primitive either, the conversion throws; without an own
    [toString] the text is [[object Object]].  An array converts by
    [Array.prototype.join], which converts its elements in turn. *)
Fixpoint ToString (v : value) : completion string :=
  match v with
  | VUndefined => Ok "undefined"
  | VNull => Ok "null"
  | VBool true => Ok "true"
  | VBool false => Ok "false"
  | VNum n => Ok (Number_toString n)
  | VStr s => Ok s
  | VArr l =>
      ss <-- (fix elems (l : list value) : completion (list string) :=
                match l with
                | [] => Ok []
                | e :: l' =>
                    s <-- match e with
                          | VUndefined | VNull => Ok EmptyString
                          | _ => ToString e
                          end ;;
                    ss <-- elems l' ;;
                    Ok (s :: ss)
                end) l ;;
      Ok (join "," ss)
  | VObj fs =>
      match lookup_field "toString" fs with
      | Some _ => TypeError
      | None => Ok "[object Object]"
      end
  end.

(** truthiness, as tested by [!x] and [x && ...] *)
Definition ToBoolean (v : value) : bool :=
  match v with
  | VUndefined | VNull => false
  | VBool b => b
  | VNum NaN => false
  | VNum (Fin z) => negb (z =? 0)
  | VNum _ => true
  | VStr s => negb (String.eqb s EmptyString)
  | VArr _ | VObj _ => true
  end.

(** ** The canonical draw record *)

Record DrawRecord : Type := mkDraw {
  drwNo : Z;            (* finite: [normalizeDraw] rejects anything else *)
  date : string;
  numbers : list num;
  bonus : num
}.

Definition DrawRecord_eq_dec (a b : DrawRecord) : {a = b} + {a <> b}.
Proof.
  decide equality.
  - apply num_eq_dec.
  - apply (list_eq_dec num_eq_dec).
  - apply string_dec.
  - apply Z.eq_dec.
Defined.

Section Normalizer.
(** The language's [StringToNumber] conversion is kept abstract: nothing
    below depends on how numeric text is read. *)
Variable StringToNumber : string -> num.

(** [Number(v)]: an array or an object is first converted to its text *)
Definition Number (v : value) : completion num :=
  match v with
  | VUndefined => Ok NaN
  | VNull => Ok (Fin 0)
  | VBool b => Ok (Fin (if b then 1 else 0))
  | VNum n => Ok n
  | VStr s => Ok (StringToNumber s)
  | VArr _ | VObj _ => s <-- ToString v ;; Ok (StringToNumber s)
  end.

(** [toYmd]: [null] is [None] *)
Definition toYmd (isoOrYmd : value) : completion (option string) :=
  if negb (ToBoolean isoOrYmd) then Ok None
  else
    s <-- ToString isoOrYmd ;;
    Ok (Some (if (10 <=? String.length s)%nat then substring 0 10 s else s)).

(** [normalizeDraw]: the four conversions run before the test, so a
    conversion that throws makes the function throw whatever the other
    fields hold. *)
Definition normalizeDraw (item : value) : completion (option DrawRecord) :=
  drwNo <-- Number (get_prop item "draw_no") ;;
  nums <-- match get_prop item "numbers" with
           | VArr l => mapC Number l
           | _ => Ok []
           end ;;
  bonus <-- Number (get_prop item "bonus_no") ;;
  date <-- toYmd (get_prop item "date") ;;
  Ok match drwNo, date with
     | Fin n, Some d =>
         if negb (List.length nums =? 6)%nat || String.eqb d EmptyString then None
         else Some (mkDraw n d (Array_sort num_sub nums) bonus)
     | _, _ => None
     end.
End Normalizer.

(** A reading of numeric text for closed examples: the empty string is 0, an
    optionally signed run of decimal digits is that integer, the three
    spellings of infinity are infinite, and any other text is NaN (white
    space, fractions, exponents and radix prefixes are not read). *)
Definition digits_to_num (r : string) : num :=
  match r with
  | EmptyString => NaN
  | _ =>
      match NilZero.uint_of_string r with
      | Some u => Fin (Z.of_uint u)
      | None => NaN
      end
  end.

Definition StringToNumber_dec (s : string) : num :=
  if String.eqb s EmptyString then Fin 0
  else if String.eqb s "Infinity" || String.eqb s "+Infinity" then PInf
  else if String.eqb s "-Infinity" then NInf
  else
    match s with
    | String "+" r => digits_to_num r
    | String "-" r => num_sub (Fin 0) (digits_to_num r)
    | _ => digits_to_num s
    end.

(** ** [Map]: insertion-ordered, keys compared by SameValueZero *)

Module JsMap.
Section JsMap.
Context {K V : Type}.
Variable eqb : K -> K -> bool.

(** [m.set(k, v)]: an existing key keeps its place *)
Fixpoint set (k : K) (v : V) (m : list (K * V)) : list (K * V) :=
  match m with
  | [] => [(k, v)]
  | (k', v') :: m' =>
      if eqb k' k then (k', v) :: m' else (k', v') :: set k v m'
  end.

Fixpoint get (k : K) (m : list (K * V)) : option V :=
  match m with
  | [] => None
  | (k', v') :: m' => if eqb k' k then Some v' else get k m'
  end.

Definition has (k : K) (m : list (K * V)) : bool :=
  match get k m with Some _ => true | None => false end.

Definition keys (m : list (K * V)) : list K := map fst m.
Definition values (m : list (K * V)) : list V := map snd m.
End JsMap.

(** [if (!m.has(k)) m.set(k, []); m.get(k).push(r)] *)
Definition push {K R : Type} (eqb : K -> K -> bool) (k : K) (r : R)
  (m : list (K * list R)) : list (K * list R) :=
let m1 := if has eqb k m then m else set eqb k [] m in
match get eqb k m1 with
| Some arr => set eqb k (arr ++ [r]) m1
| None => m1
end.
End JsMap.

(** ** Ledger merger *)

(** Compare function [(a, b) => a.drwNo - b.drwNo] *)
Definition byDrwNo (a b : DrawRecord) : num :=
  num_sub (Fin (drwNo a)) (Fin (drwNo b)).

(** [mergeByNo].  Every entry of a ledger is a record with a finite draw
    number, so the guard [d && Number.isFinite(Number(d.drwNo))] of both
    loops holds throughout. *)
Definition mergeByNo (existingDraws newDraws : list DrawRecord) : list DrawRecord :=
  let m := fold_left (fun m d => JsMap.set Z.eqb (drwNo d) d m) existingDraws [] in
  let m := fold_left (fun m d => JsMap.set Z.eqb (drwNo d) d m) newDraws m in
  Array_sort byDrwNo (JsMap.values m).

(** ** Signature *)

Definition drawSig (d : DrawRecord) : string :=
  String.append (Number_toString (Fin (drwNo d)))
    (String.append "|"
       (String.append (join "," (map Number_toString (numbers d)))
          (String.append "|b"
             (String.append (Number_toString (bonus d))
                (String.append "|" (date d)))))).

(** ** Statistics aggregator *)

Definition RECENT_WINDOWS : list nat := [10; 20; 30]%nat.
(** 0.95; the weighted tables are kept in exact rationals. *)
Definition DECAY : Q := 95 # 100.

Section Counter.
Context {C : Type}.
Variable zero : C.
Variable add : C -> C -> C.

(** [initCounterInt] / [initCounterFloat]: keys 1..45 *)
Definition initCounter : list (Z * C) :=
  map (fun i => (Z.of_nat i, zero)) (seq 1 45).

(** [addCount]: [counter[n] += w] when [n >= 1 && n <= 45]; an embedded
    number in that range is one of the 45 keys of the counter *)
Definition addCount (counter : list (Z * C)) (n : num) (w : C) : list (Z * C) :=
  if num_geb n (Fin 1) && num_leb n (Fin 45) then
    match n with
    | Fin z => map (fun kv => if fst kv =? z then (fst kv, add (snd kv) w) else kv) counter
    | _ => counter
    end
  else counter.

(** one draw's contribution: its main numbers to [main], its bonus to [bon] *)
Definition addDraw (w : C) (acc : list (Z * C) * list (Z * C)) (d : DrawRecord)
    : list (Z * C) * list (Z * C) :=
  (fold_left (fun c n => addCount c n w) (numbers d) (fst acc),
   addCount (snd acc) (bonus d) w).
End Counter.

Definition initCounterInt : list (Z * Z) := initCounter 0.
Definition initCounterFloat : list (Z * Q) := initCounter 0%Q.

Record Overall : Type := mkOverall {
  overall_main : list (Z * Z);
  overall_bonus : list (Z * Z)
}.

Record Window : Type := mkWindow {
  w_from : option string;
  w_to : option string;
  w_drawCount : nat;
  w_main : list (Z * Z);
  w_bonus : list (Z * Z)
}.

Record WeightedWindow : Type := mkWeightedWindow {
  ww_from : option string;
  ww_to : option string;
  ww_drawCount : nat;
  ww_decay : Q;
  ww_main : list (Z * Q);
  ww_bonus : list (Z * Q)
}.

Record Freq : Type := mkFreq {
  overall : Overall;
  recent : list (nat * Window);
  recentWeighted : list (nat * WeightedWindow)
}.

(** [draws.slice(-win)] *)
Definition slice_last {A : Type} (win : nat) (l : list A) : list A :=
  skipn (List.length l - win) l.

(** the decay loop over [newestFirst], [k] counting from [k0] *)
Fixpoint decayLoop (k0 : nat) (newestFirst : list DrawRecord)
    (acc : list (Z * Q) * list (Z * Q)) : list (Z * Q) * list (Z * Q) :=
  match newestFirst with
  | [] => acc
  | d :: rest =>
      decayLoop (S k0) rest (addDraw Qplus (Qpower DECAY (Z.of_nat k0)) acc d)
  end.

Definition makeWindow (draws : list DrawRecord) (win : nat) : Window * WeightedWindow :=
  let slice := slice_last win draws in
  let newestFirst := rev slice in
  let w := decayLoop 0 newestFirst (initCounterFloat, initCounterFloat) in
  let c := fold_left (addDraw Z.add 1) slice (initCounterInt, initCounterInt) in
  let from := option_map date (hd_error slice) in
  let to := option_map date (hd_error (rev slice)) in
  (mkWindow from to (List.length slice) (fst c) (snd c),
   mkWeightedWindow from to (List.length slice) DECAY (fst w) (snd w)).

Definition makeFreq (draws : list DrawRecord) : Freq :=
  let o := fold_left (addDraw Z.add 1) draws (initCounterInt, initCounterInt) in
  let wins := map (fun win => (win, makeWindow draws win)) RECENT_WINDOWS in
  mkFreq (mkOverall (fst o) (snd o))
    (map (fun x => (fst x, fst (snd x))) wins)
    (map (fun x => (fst x, snd (snd x))) wins).

(** ** Consensus resolver *)

Record SourceResult : Type := mkResult {
  sourceId : string;
  url : string;
  draw : DrawRecord
}.

Record Detail : Type := mkDetail {
  detail_byNo : list (Z * list string);
  detail_bySig : list (string * list string)
}.

Record Consensus : Type := mkConsensus {
  latestNo : Z;
  consensusDraw : DrawRecord;
  agreed : bool;
  consensusCount : nat;
  detail : Detail
}.

(** Compare functions [(a, b) => b - a] and
    [(a, b) => b[1].length - a[1].length] *)
Definition descending (a b : Z) : num := num_sub (Fin b) (Fin a).

Definition byCountDesc {K R : Type} (a b : K * list R) : num :=
  num_sub (Fin (Z.of_nat (List.length (snd b)))) (Fin (Z.of_nat (List.length (snd a)))).

(** [for (const r of rs) { if (!m.has(k)) m.set(k, []); m.get(k).push(r) }]
    with [k] the key of [r] *)
Definition groupBy {K R : Type} (eqb : K -> K -> bool) (kf : R -> K) (rs : list R)
    : list (K * list R) :=
  fold_left (fun m r => JsMap.push eqb (kf r) r m) rs [].

(** the results of one draw number by signature, and all results by draw
    number *)
Definition groupBySig (rs : list SourceResult) : list (string * list SourceResult) :=
  groupBy String.eqb (fun r => drawSig (draw r)) rs.

Definition groupByNo (rs : list SourceResult) : list (Z * list SourceResult) :=
  groupBy Z.eqb (fun r => drwNo (draw r)) rs.

(** [pickConsensusLatest]; [None] is the TypeError the destructuring of
    [sigs[0]] raises on an empty result list. *)
Definition pickConsensusLatest (latestResults : list SourceResult) : option Consensus :=
  let byNo := groupByNo latestResults in
  let nos := Array_sort descending (JsMap.keys byNo) in
  let targetNo :=
    match find (fun n => match JsMap.get Z.eqb n byNo with
                         | Some arr => (2 <=? List.length arr)%nat
                         | None => false
                         end) nos with
    | Some n => Some n
    | None => hd_error nos
    end in
  let candidates :=
    match targetNo with
    | Some n => match JsMap.get Z.eqb n byNo with Some arr => arr | None => [] end
    | None => []
    end in
  let bySig := groupBySig candidates in
  let sigs := Array_sort byCountDesc bySig in
  match targetNo, sigs with
  | Some n, (bestSig, r0 :: bestRest) :: _ =>
      let consensusCount := List.length (r0 :: bestRest) in
      Some (mkConsensus n (draw r0) (2 <=? consensusCount)%nat consensusCount
              (mkDetail (map (fun e => (fst e, map sourceId (snd e))) byNo)
                        (map (fun e => (fst e, map sourceId (snd e))) bySig)))
  | _, _ => None
  end.

(** ** Sources and the outside world *)

Definition SCHEMA_VERSION : Z := 3.
Definition BOOTSTRAP_GAP_THRESHOLD : Z := 120.
Definition VALIDATE_LAST_K : Z := 5.

Definition decimal (n : Z) : string := Number_toString (Fin n).

Record Source : Type := mkSource {
  src_id : string;
  src_all : string;
  src_latest : string;
  src_draw : Z -> string
}.

Definition SOURCES : list Source :=
  [ mkSource "smok95-pages"
      "https://smok95.github.io/lotto/results/all.json"
      "https://smok95.github.io/lotto/results/latest.json"
      (fun n => String.append "https://smok95.github.io/lotto/results/"
                  (String.append (decimal n) ".json"));
    mkSource "smok95-raw"
      "https://raw.githubusercontent.com/smok95/lotto/main/results/all.json"
      "https://raw.githubusercontent.com/smok95/lotto/main/results/latest.json"
      (fun n => String.append "https://raw.githubusercontent.com/smok95/lotto/main/results/"
                  (String.append (decimal n) ".json"));
    mkSource "smok95-jsdelivr"
      "https://cdn.jsdelivr.net/gh/smok95/lotto@main/results/all.json"
      "https://cdn.jsdelivr.net/gh/smok95/lotto@main/results/latest.json"
      (fun n => String.append "https://cdn.jsdelivr.net/gh/smok95/lotto@main/results/"
                  (String.append (decimal n) ".json")) ].

(** What one guarded fetch asks for: a source (by id) and one of its three
    endpoints. *)
Inductive Req : Type :=
| ReqLatest (sid : string)
| ReqAll (sid : string)
| ReqDraw (sid : string) (n : Z).

(** Every order in which the members of a concurrent fan-out can settle. *)
Fixpoint interleave {A : Type} (x : A) (l : list A) : list (list A) :=
  match l with
  | [] => [[x]]
  | y :: l' => (x :: l) :: map (cons y) (interleave x l')
  end.

Fixpoint orders {A : Type} (l : list A) : list (list A) :=
  match l with
  | [] => [[]]
  | x :: l' => flat_map (interleave x) (orders l')
  end.

Definition pick_order {A : Type} (k : nat) (l : list A) : list A :=
  nth k (orders l) l.

(** ** Run health *)

Inductive Status : Type := ok | degraded.

Record Used : Type := mkUsed {
  mode : option string;
  usedSourceId : option string;
  note : option string
}.

Record ValidatedTail : Type := mkTail {
  attempted : nat;
  patched : nat;
  mismatched : nat
}.

Record Health : Type := mkHealth {
  status : Status;
  reasons : list string;
  used : Used;
  latestConsensus : option Consensus;
  latestFetchErrors : list string;    (* the ids of the failing sources *)
  validatedTail : ValidatedTail
}.

(** [health.status = "degraded"; health.reasons.push(reason)] *)
Definition degrade (reason : string) (h : Health) : Health :=
  mkHealth degraded (reasons h ++ [reason]) (used h) (latestConsensus h)
    (latestFetchErrors h) (validatedTail h).

Definition set_used (u : Used) (h : Health) : Health :=
  mkHealth (status h) (reasons h) u (latestConsensus h) (latestFetchErrors h)
    (validatedTail h).

Definition set_note (s : string) (h : Health) : Health :=
  set_used (mkUsed (mode (used h)) (usedSourceId (used h)) (Some s)) h.

Definition set_latestConsensus (c : Consensus) (h : Health) : Health :=
  mkHealth (status h) (reasons h) (used h) (Some c) (latestFetchErrors h)
    (validatedTail h).

Definition set_latestFetchErrors (e : list string) (h : Health) : Health :=
  mkHealth (status h) (reasons h) (used h) (latestConsensus h) e (validatedTail h).

Definition set_validatedTail (t : ValidatedTail) (h : Health) : Health :=
  mkHealth (status h) (reasons h) (used h) (latestConsensus h)
    (latestFetchErrors h) t.

Definition health0 : Health :=
  mkHealth ok [] (mkUsed None None None) None [] (mkTail 0 0 0).

(** The statistics document ([updatedAt] and the constant [source] block are
    left out). *)
Record Payload : Type := mkPayload {
  schemaVersion : Z;
  health : Health;
  lastDraw : DrawRecord;
  totalDraws : nat;
  p_overall : Overall;
  p_recent : list (nat * Window);
  p_recentWeighted : list (nat * WeightedWindow)
}.

(** How [main] ends: an exception reaching [main().catch] (exit code 1), or
    both files written (exit code 0). *)
Inductive Outcome : Type :=
| Thrown (message : string)
| Written (drawsFile : list DrawRecord) (freqFile : Payload).

Definition exitCode (o : Outcome) : Z :=
  match o with Thrown _ => 1 | Written _ _ => 0 end.

(** [draws.length ? Math.max(...draws.map(d => Number(d?.drwNo)).filter(Number.isFinite)) : 0] *)
Definition lastNoOf (draws : list DrawRecord) : Z :=
  match draws with
  | [] => 0
  | d :: ds => fold_left Z.max (map drwNo ds) (drwNo d)
  end.

(** the values of [n] in [for (let n = lo; n <= hi; n++)] *)
Definition Z_range (lo hi : Z) : list Z :=
  map (fun i => lo + Z.of_nat i) (seq 0 (Z.to_nat (hi - lo + 1))).

(** ** Transport: the guarded fetch

    The controller below takes the answer of [fetchJsonGuarded] from the
    network as a whole; this module gives the function itself, over one HTTP
    exchange at a time. *)

Module Transport.

(** The code units [trimStart] removes (WhiteSpace and LineTerminator of the
    language, in the Latin-1 range of the embedded strings). *)
Definition isWhiteSpace (c : ascii) : bool :=
  match nat_of_ascii c with
  | 9%nat | 10%nat | 11%nat | 12%nat | 13%nat | 32%nat | 160%nat => true
  | _ => false
  end.

Fixpoint trimStart (s : string) : string :=
  match s with
  | EmptyString => EmptyString
  | String c s' => if isWhiteSpace c then trimStart s' else s
  end.

(** [t.startsWith(p)] *)
Definition startsWith (t p : string) : bool := String.prefix p t.

(** [isHtmlLike]; a text is falsy only when empty, so [text || ""] is [text] *)
Definition isHtmlLike (text : string) : bool :=
  let t := trimStart text in
  startsWith t "<!DOCTYPE" || startsWith t "<html" || startsWith t "<head"
  || startsWith t "<body" || startsWith t "<".

(** What [fetch] and [res.text()] give within the time allowed. *)
Record Response : Type := mkResponse {
  res_ok : bool;
  res_status : Z;
  res_text : string
}.

(** The errors of one attempt, by cause. *)
Inductive FetchError : Type :=
| NetworkError              (* [fetch] or [res.text()] rejected, or the abort timer fired *)
| HttpError (status : Z)    (* [!res.ok] *)
| HtmlBody                  (* [isHtmlLike(text)] *)
| ParseError.               (* [JSON.parse] threw *)

Section Transport.
Variable JSON_parse : string -> option value.
Variable Net : Type.
(** one exchange for a request under a timeout of [ms] milliseconds *)
Variable exchange : Req -> Z -> Net -> option Response * Net.

Record TSt : Type := mkTSt {
  net : Net;
  calls : list (Req * Z * option Response);  (* request, timeout, what came back *)
  sleeps : list Z                            (* the pauses, in milliseconds *)
}.

Definition fetchTextWithTimeout (url : Req) (ms : Z) (st : TSt)
    : (FetchError + string) * TSt :=
  let (r, n) := exchange url ms (net st) in
  let st' := mkTSt n (calls st ++ [(url, ms, r)]) (sleeps st) in
  match r with
  | None => (inl NetworkError, st')
  | Some res =>
      if negb (res_ok res) then (inl (HttpError (res_status res)), st')
      else (inr (res_text res), st')
  end.

Definition sleep (ms : Z) (st : TSt) : TSt :=
  mkTSt (net st) (calls st) (sleeps st ++ [ms]).

(** the loop [for (let i = ...; i <= retries; i++)] over the values [todo]
    of [i] still to come; the result is the JSON value or the thrown [lastErr] *)
Fixpoint retryLoop (todo : list Z) (retries : Z) (url : Req)
    (lastErr : option FetchError) (st : TSt) : (option FetchError + value) * TSt :=
  match todo with
  | [] => (inl lastErr, st)
  | i :: rest =>
      let (r, st1) := fetchTextWithTimeout url (25000 + i * 6000) st in
      let attempt :=
        match r with
        | inl e => inl e
        | inr text =>
            if isHtmlLike text then inl HtmlBody
            else match JSON_parse text with
                 | Some v => inr v
                 | None => inl ParseError
                 end
        end in
      match attempt with
      | inr v => (inr v, st1)
      | inl e =>
          let st2 := if i <? retries then sleep (500 + i * 700) st1 else st1 in
          retryLoop rest retries url (Some e) st2
      end
  end.

Definition fetchJsonGuarded (url : Req) (retries : Z) (st : TSt)
    : (option FetchError + value) * TSt :=
  retryLoop (Z_range 0 retries) retries url None st.
End Transport.

(** What one exchange is worth to [fetchJsonGuarded]. *)
Definition judge (JSON_parse : string -> option value) (r : option Response)
    : FetchError + value :=
  match r with
  | None => inl NetworkError
  | Some res =>
      if res_ok res then
        if isHtmlLike (res_text res) then inl HtmlBody
        else match JSON_parse (res_text res) with
             | Some v => inr v
             | None => inl ParseError
             end
      else inl (HttpError (res_status res))
  end.

Definition failed (JSON_parse : string -> option value)
    (e : Req * Z * option Response) : Prop :=
  exists err, judge JSON_parse (snd e) = inl err.

Fixpoint all_white (ws : string) : bool :=
  match ws with
  | EmptyString => true
  | String c ws' => isWhiteSpace c && all_white ws'
  end.
End Transport.

(** ** Synchronization controller *)

Section Controller.
Variable StringToNumber : string -> num.

(** The network: the answer to one guarded fetch, retries included ([None]
    when [fetchJsonGuarded] throws), and the order in which the members of
    a [Promise.allSettled] fan-out settle. *)
Variable World : Type.
Variable respond : Req -> World -> option value * World.
Variable settle : World -> nat * World.

Record St : Type := mkSt {
  world : World;
  log : list (Req * option value)     (* every guarded fetch, in order *)
}.

Definition M (A : Type) : Type := St -> A * St.
Definition ret {A : Type} (a : A) : M A := fun st => (a, st).
Definition bind {A B : Type} (m : M A) (f : A -> M B) : M B :=
  fun st => let (a, st') := m st in f a st'.

Notation "x <- m ;; k" := (bind m (fun x => k))
  (at level 61, m at next level, right associativity).
Notation "' p <- m ;; k" := (bind m (fun x => let p := x in k))
  (at level 61, p pattern, m at next level, right associativity).

Definition fetchJsonGuarded (req : Req) : M (option value) :=
  fun st =>
    let (r, w) := respond req (world st) in
    (r, mkSt w (log st ++ [(req, r)])).

Definition nextOrder : M (list Source) :=
  fun st =>
    let (k, w) := settle (world st) in
    (pick_order k SOURCES, mkSt w (log st)).

Fixpoint mapM {A B : Type} (f : A -> M B) (l : list A) : M (list B) :=
  match l with
  | [] => ret []
  | x :: l' => y <- f x ;; ys <- mapM f l' ;; ret (y :: ys)
  end.

(** [None] stands for the exception of the source function. *)
Definition tryLatestFromSource (src : Source) : M (option SourceResult) :=
  obj <- fetchJsonGuarded (ReqLatest (src_id src)) ;;
  ret match obj with
      | None => None
      | Some o =>
          match normalizeDraw StringToNumber o with
          | Ok (Some d) => Some (mkResult (src_id src) (src_latest src) d)
          | Ok None | TypeError => None
          end
      end.

(** the loop [for (const it of arr) { const d = normalizeDraw(it);
    if (d) mapped.push(d); }]: an item on which [normalizeDraw] throws ends
    it, and with it the whole adapter call *)
Fixpoint collect (items : list value) (mapped : list DrawRecord)
    : completion (list DrawRecord) :=
  match items with
  | [] => Ok mapped
  | it :: its =>
      match normalizeDraw StringToNumber it with
      | TypeError => TypeError
      | Ok (Some d) => collect its (mapped ++ [d])
      | Ok None => collect its mapped
      end
  end.

Definition tryAllFromSource (src : Source) : M (option (string * list DrawRecord)) :=
  arr <- fetchJsonGuarded (ReqAll (src_id src)) ;;
  ret match arr with
      | Some (VArr (it :: its)) =>
          match collect (it :: its) [] with
          | Ok (d :: mapped) => Some (src_id src, Array_sort byDrwNo (d :: mapped))
          | Ok [] | TypeError => None
          end
      | _ => None
      end.

Definition tryDrawFromSource (src : Source) (n : Z) : M (option SourceResult) :=
  obj <- fetchJsonGuarded (ReqDraw (src_id src) n) ;;
  ret match obj with
      | None => None
      | Some o =>
          match normalizeDraw StringToNumber o with
          | Ok (Some d) => Some (mkResult (src_id src) (src_draw src n) d)
          | Ok None | TypeError => None
          end
      end.

(** [Promise.allSettled(SOURCES.map(async (src) => ...))]: every source is
    asked; the successes are pushed in the order they settle. *)
Definition allSettled {R : Type} (f : Source -> M (option R))
    : M (list (Source * option R)) :=
  order <- nextOrder ;;
  mapM (fun src => r <- f src ;; ret (src, r)) order.

Definition successes {R : Type} (l : list (Source * option R)) : list R :=
  flat_map (fun x => match snd x with Some r => [r] | None => [] end) l.

Definition failures {R : Type} (l : list (Source * option R)) : list string :=
  flat_map (fun x => match snd x with Some _ => [] | None => [src_id (fst x)] end) l.

Definition fetchLatestAllSources : M (list SourceResult * list string) :=
  settled <- allSettled tryLatestFromSource ;;
  ret (successes settled, failures settled).

(** [for (const src of SOURCES) { try { return await f(src) } catch {} } throw] *)
Fixpoint firstSuccess {R : Type} (f : Source -> M (option R)) (srcs : list Source)
    : M (option R) :=
  match srcs with
  | [] => ret None
  | src :: rest =>
      r <- f src ;;
      match r with
      | Some x => ret (Some x)
      | None => firstSuccess f rest
      end
  end.

Definition fetchDrawWithFallback (n : Z) : M (option SourceResult) :=
  firstSuccess (fun src => tryDrawFromSource src n) SOURCES.

Definition fetchAllWithFallback : M (option (string * list DrawRecord)) :=
  firstSuccess tryAllFromSource SOURCES.

(** *** The branches of [main] *)

(** steps 5 of both exits: statistics, document, the two writes *)
Definition writeOut (draws : list DrawRecord) (last : DrawRecord) (h : Health)
    : Outcome :=
  let freq := makeFreq draws in
  Written draws
    (mkPayload SCHEMA_VERSION h last (List.length draws)
       (overall freq) (recent freq) (recentWeighted freq)).

(** the branch [latestPack.results.length === 0 && existing.length > 0] *)
Definition localOnly (existing : list DrawRecord) (h : Health) : Outcome :=
  let h := degrade "latest_unavailable_all_sources_using_local_cache" h in
  let h := set_used (mkUsed (Some "local-only") (Some "local-cache")
                       (Some "No latest reachable")) h in
  let draws := Array_sort byDrwNo existing in
  match rev draws with
  | last :: _ => writeOut draws last h
  | [] => Thrown "TypeError: last is undefined"
  end.

(** step 2, the [catch] of the bootstrap *)
Definition bootstrapFailed (existing : list DrawRecord) (existingLastNo : Z)
    (h : Health) : list DrawRecord * Health :=
  let h := degrade "bootstrap_all_failed_try_incremental" h in
  if 0 <? existingLastNo then
    (existing,
     set_used (mkUsed (Some "incremental-from-local") (Some "local-cache")
                 (Some "bootstrap failed")) h)
  else
    ([],
     set_used (mkUsed (Some "incremental-from-scratch") (Some "multi")
                 (Some "bootstrap failed")) h).

(** step 2: bootstrap from [all.json] or start from the local ledger *)
Definition chooseStrategy (existing : list DrawRecord) (existingLastNo : Z)
    (consensus : Consensus) (h : Health) : M (list DrawRecord * Health) :=
  let gap := latestNo consensus - existingLastNo in
  let needBootstrap := (existingLastNo =? 0) || (BOOTSTRAP_GAP_THRESHOLD <? gap) in
  if needBootstrap then
    all <- fetchAllWithFallback ;;
    ret match all with
        | Some (sid, draws) =>
            let h1 := set_used (mkUsed (Some "bootstrap-all") (Some sid)
                                  (Some (String.append "gap=" (decimal gap)))) h in
            match rev draws with
            | last :: _ =>
                if negb (drwNo last =? latestNo consensus) then
                  (draws, degrade "all_json_last_draw_no_mismatch_with_latest" h1)
                else if negb (String.eqb (drawSig last)
                                (drawSig (consensusDraw consensus))) then
                  (mergeByNo draws [consensusDraw consensus],
                   degrade "all_json_last_signature_mismatch_with_consensus" h1)
                else (draws, h1)
            | [] => bootstrapFailed existing existingLastNo h1
            end
        | None => bootstrapFailed existing existingLastNo h
        end
  else
    ret (Array_sort byDrwNo existing,
         set_used (mkUsed (Some "incremental") (Some "multi")
                     (Some (String.append "gap=" (decimal gap)))) h).

(** step 3: the fill loop over [ns]; it stops at the first draw number no
    source delivers (the console output and the throttling sleep have no
    effect on the ledger) *)
Fixpoint fillLoop (ns : list Z) (draws : list DrawRecord) (h : Health)
    : M (list DrawRecord * Health) :=
  match ns with
  | [] => ret (draws, h)
  | n :: rest =>
      got <- fetchDrawWithFallback n ;;
      match got with
      | Some g => fillLoop rest (mergeByNo draws [draw g]) h
      | None =>
          ret (draws,
               set_note (String.append "stopped_at=" (decimal n))
                 (degrade (String.append "incremental_fetch_failed_at_" (decimal n)) h))
      end
  end.

Definition incrementalFill (currentLastNo latestNo : Z)
    (draws : list DrawRecord) (h : Health) : M (list DrawRecord * Health) :=
  if currentLastNo <? latestNo
  then fillLoop (Z_range (currentLastNo + 1) latestNo) draws h
  else ret (draws, h).

(** step 4: one round of the tail validation; [None] is the TypeError an
    empty ranking would raise at [best[0]] *)
Definition validateOne (n : Z) (draws : list DrawRecord) (h : Health)
    : M (option (list DrawRecord * Health)) :=
  let t := validatedTail h in
  let h := set_validatedTail (mkTail (S (attempted t)) (patched t) (mismatched t)) h in
  settled <- allSettled (fun src => tryDrawFromSource src n) ;;
  let fetched := successes settled in
  ret (if (List.length fetched <? 2)%nat then Some (draws, h)
       else
         match Array_sort byCountDesc (groupBySig fetched) with
         | (bestSig, r0 :: bestRest) :: _ =>
             if (List.length (r0 :: bestRest) <? 2)%nat then
               Some (draws,
                     degrade (String.append "tail_"
                                (String.append (decimal n) "_no_2of3_consensus")) h)
             else
               let mismatch :=
                 match find (fun d => drwNo d =? n) draws with
                 | Some local => negb (String.eqb (drawSig local) bestSig)
                 | None => true
                 end in
               if mismatch then
                 let t := validatedTail h in
                 let h := set_validatedTail
                            (mkTail (attempted t) (S (patched t)) (S (mismatched t))) h in
                 Some (mergeByNo draws [draw r0],
                       degrade (String.append "tail_"
                                  (String.append (decimal n) "_patched_from_consensus")) h)
               else Some (draws, h)
         | _ => None
         end).

Fixpoint validateLoop (ns : list Z) (draws : list DrawRecord) (h : Health)
    : M (option (list DrawRecord * Health)) :=
  match ns with
  | [] => ret (Some (draws, h))
  | n :: rest =>
      r <- validateOne n draws h ;;
      match r with
      | Some (draws', h') => validateLoop rest draws' h'
      | None => ret None
      end
  end.

(** step 5 *)
Definition finalize (draws : list DrawRecord) (latestNo : Z) (h : Health)
    : Outcome :=
  let draws := Array_sort byDrwNo draws in
  match rev draws with
  | [] => Thrown "No draws available after update."
  | last :: _ =>
      let h := if drwNo last <? latestNo
               then degrade "local_last_is_behind_latest" h
               else h in
      writeOut draws last h
  end.

Definition main (existing : list DrawRecord) : M Outcome :=
  let existingLastNo := lastNoOf existing in
  ' (results, errors) <- fetchLatestAllSources ;;
  let h := set_latestFetchErrors errors health0 in
  match results with
  | [] =>
      ret match existing with
          | _ :: _ => localOnly existing h
          | [] => Thrown "No sources reachable for latest, and no local cache."
          end
  | _ :: _ =>
      match pickConsensusLatest results with
      | None => ret (Thrown "TypeError: sigs[0] is not iterable")
      | Some consensus =>
          let h := set_latestConsensus consensus h in
          let h := if agreed consensus then h
                   else degrade "latest_consensus_not_2of3" h in
          ' (draws, h) <- chooseStrategy existing existingLastNo consensus h ;;
          ' (draws, h) <- incrementalFill (lastNoOf draws) (latestNo consensus) draws h ;;
          let draws := mergeByNo draws [consensusDraw consensus] in
          let lastNoAfter := lastNoOf draws in
          let startValidate := Z.max 1 (lastNoAfter - VALIDATE_LAST_K + 1) in
          validated <- validateLoop (Z_range startValidate lastNoAfter) draws h ;;
          ret match validated with
              | Some (draws, h) => finalize draws (latestNo consensus) h
              | None => Thrown "TypeError: best is undefined"
              end
      end
  end.

(** a run from a fresh log *)
Definition run (existing : list DrawRecord) (w : World) : Outcome * St :=
  main existing (mkSt w []).
End Controller.

Arguments mkSt {World} _ _.
Arguments world {World} _.
Arguments log {World} _.
Arguments ret {World A} _ _.
Arguments bind {World A B} _ _ _.

(** ** Scripted networks for closed runs *)

(** The body a mirror serves for one draw. *)
Definition drawJson (n : Z) (nums : list Z) (b : Z) (day : string) : value :=
  VObj [("draw_no", VNum (Fin n));
        ("numbers", VArr (map (fun z => VNum (Fin z)) nums));
        ("bonus_no", VNum (Fin b));
        ("date", VStr (String.append day "T00:00:00Z"))].

(** A network without memory that answers by [answers], and a fan-out that
    settles in source order. *)
Definition scripted (answers : Req -> option value) (r : Req) (u : unit)
    : option value * unit :=
  (answers r, u).

Definition in_source_order (u : unit) : nat * unit := (0%nat, u).

(** Every mirror serves draw 200 as the latest and the bulk file holds draws
    199 and 200 only; single draws cannot be fetched. *)
Definition bulk_network (r : Req) : option value :=
  match r with
  | ReqLatest _ => Some (drawJson 200 [2; 11; 19; 25; 28; 32] 44 "2006-09-30")
  | ReqAll _ =>
      Some (VArr [drawJson 199 [14; 21; 22; 25; 30; 36] 43 "2006-09-23";
                  drawJson 200 [2; 11; 19; 25; 28; 32] 44 "2006-09-30"])
  | ReqDraw _ _ => None
  end.

(** The record every mirror serves for draw [n] in the next two networks. *)
Definition mirrored (n : Z) : value :=
  drawJson n [16; 24; 29; 40; 41; 42] 3 "2003-01-04".

(** Every mirror serves draw 5 as the latest and any single draw, no bulk
    file. *)
Definition steady_network (r : Req) : option value :=
  match r with
  | ReqLatest _ => Some (mirrored 5)
  | ReqDraw _ n => Some (mirrored n)
  | ReqAll _ => None
  end.

(** As [steady_network], with the latest draw 7 and draw 5 missing on every
    mirror. *)
Definition gap_network (r : Req) : option value :=
  match r with
  | ReqLatest _ => Some (mirrored 7)
  | ReqDraw _ n => if n =? 5 then None else Some (mirrored n)
  | ReqAll _ => None
  end.

Definition ledger_1_to_3 : list DrawRecord :=
  map (fun n => mkDraw n "2003-01-04" (map Fin [16; 24; 29; 40; 41; 42]) (Fin 3))
    [1; 2; 3].

(** Every mirror serves draw 4, answers the request for draw 5 with another
    record numbered 4, and has nothing else. *)
Definition echo_network (r : Req) : option value :=
  match r with
  | ReqDraw _ n =>
      if n =? 4 then Some (mirrored 4)
      else if n =? 5 then Some (drawJson 4 [1; 2; 3; 4; 5; 6] 7 "2003-01-04")
      else None
  | _ => None
  end.

(** Twelve draws: the first two share no number with the ten after them. *)
Definition ledger_1_to_12 : list DrawRecord :=
  map (fun n => mkDraw n "2002-12-07" (map Fin [1; 2; 3; 4; 5; 6]) (Fin 16)) [1; 2]
  ++ map (fun n => mkDraw n "2003-01-04" (map Fin [16; 24; 29; 40; 41; 42]) (Fin 3))
       [3; 4; 5; 6; 7; 8; 9; 10; 11; 12].

(** A link that drops the next [n] exchanges and then answers with the text
    [null], and a parser that knows this one text. *)
Definition flaky_exchange (url : Req) (ms : Z) (n : nat)
    : option Transport.Response * nat :=
  match n with
  | O => (Some (Transport.mkResponse true 200 "null"), O)
  | S n' => (None, n')
  end.

Definition parse_null (s : string) : option value :=
  if String.eqb s "null" then Some VNull else None.

(** No mirror answers anything. *)
Definition dead_network (r : Req) : option value := None.

(** ** Vocabulary of the statements *)

(** One write of the merger's map, and the compare function of the six
    numbers on their integer values. *)
Definition setDraw (m : list (Z * DrawRecord)) (d : DrawRecord) : list (Z * DrawRecord) :=
  JsMap.set Z.eqb (drwNo d) d m.

Definition ascendingZ (a b : Z) : num := num_sub (Fin a) (Fin b).

(** The elements of [rs] whose key is [k], in order. *)
Definition membersOf {K R : Type} (eqb : K -> K -> bool) (kf : R -> K) (k : K)
    (rs : list R) : list R :=
  filter (fun r => eqb (kf r) k) rs.

(** The record a sequence of writes leaves under draw number [k]: the last
    one written. *)
Definition winner (k : Z) (l : list DrawRecord) : option DrawRecord :=
  find (fun e => drwNo e =? k) (rev l).

(** The record a ledger holds for draw number [k]. *)
Definition lookupNo (k : Z) (l : list DrawRecord) : option DrawRecord :=
  find (fun e => drwNo e =? k) l.

Definition hasNo (k : Z) (l : list DrawRecord) : Prop := In k (map drwNo l).


Definition in_pool (z : Z) : Prop := 1 <= z <= 45.

(** The invariant of the data model: six pairwise distinct integers of the
    pool in ascending order, and a bonus number of the pool. *)
Definition DrawRecord_invariant (r : DrawRecord) : Prop :=
  exists zs b,
    numbers r = map Fin zs /\ List.length zs = 6%nat /\
    NoDup zs /\ StronglySorted Z.le zs /\ Forall in_pool zs /\
    bonus r = Fin b /\ in_pool b.

(** The same demands on the values of a payload, before sorting. *)
Definition payload_in_pool (s2n : string -> num) (item : value) : Prop :=
  exists elems ws b,
    get_prop item "numbers" = VArr elems /\
    map (Number s2n) elems = map (fun w => Ok (Fin w)) ws /\
    List.length ws = 6%nat /\
    NoDup ws /\ Forall in_pool ws /\
    Number s2n (get_prop item "bonus_no") = Ok (Fin b) /\ in_pool b.




(** A frequency table over the whole pool whose every count is [zero]. *)
Definition zero_table {C : Type} (zero : C) (t : list (Z * C)) : Prop :=
  JsMap.keys t = Z_range 1 45 /\
  forall n, in_pool n -> JsMap.get Z.eqb n t = Some zero.

(** The number of times the integer [n] stands in a list of numbers. *)
Definition is_num (n : Z) (x : num) : bool :=
  match x with Fin z => z =? n | _ => false end.

Definition hits (n : Z) (l : list num) : Z :=
  Z.of_nat (List.length (filter (is_num n) l)).

(** The value the decay loop leaves in an entry that held [q0], given the
    number of hits of each draw, newest first, [k0] being the age of the
    first one. *)
Fixpoint wsum (k0 : nat) (hs : list nat) (q0 : Q) : Q :=
  match hs with
  | [] => q0
  | h :: hs' =>
      wsum (S k0) hs' (Nat.iter h (fun v => (v + Qpower DECAY (Z.of_nat k0))%Q) q0)
  end.

(** The character [c] occurs in [s]. *)
Fixpoint occurs (c : ascii) (s : string) : Prop :=
  match s with
  | EmptyString => False
  | String a s' => a = c \/ occurs c s'
  end.

(** The results for draw number [n], the results carrying signature [s], and
    the number of distinct sources behind a list of results. *)
Definition forNo (n : Z) (rs : list SourceResult) : list SourceResult :=
  filter (fun r => drwNo (draw r) =? n) rs.

Definition withSig (s : string) (rs : list SourceResult) : list SourceResult :=
  filter (fun r => String.eqb (drawSig (draw r)) s) rs.

Definition support (rs : list SourceResult) : nat :=
  List.length (nodup string_dec (map sourceId rs)).

(** The draw number the resolver is to choose: the highest one with two
    sources behind it, or else the highest one seen. *)
Definition target_of (rs : list SourceResult) (n : Z) : Prop :=
  ((2 <= support (forNo n rs))%nat /\
   forall m, n < m -> (support (forNo m rs) < 2)%nat) \/
  ((forall m, (support (forNo m rs) < 2)%nat) /\
   In n (map (fun r => drwNo (draw r)) rs) /\
   forall r, In r rs -> drwNo (draw r) <= n).

(** The result the resolver is to choose among the candidates [cands] of the
    chosen draw number: the earliest one whose signature has the most
    sources behind it. *)
Definition best_of (cands : list SourceResult) (r0 : SourceResult) : Prop :=
  exists l1 l2,
    cands = l1 ++ r0 :: l2 /\
    Forall (fun r => (support (withSig (drawSig (draw r)) cands)
                      < support (withSig (drawSig (draw r0)) cands))%nat) l1 /\
    Forall (fun r => (support (withSig (drawSig (draw r)) cands)
                      <= support (withSig (drawSig (draw r0)) cands))%nat) l2.

(** The run did not report that the ledger trails the target. *)
Definition not_trailing (h : Health) : Prop :=
  ~ In "local_last_is_behind_latest" (reasons h).

(** The health report is coherent: it is nominal exactly when it gives no
    reason, and every mismatch the tail validation counted was patched in a
    round it counted. *)
Definition report_consistent (h : Health) : Prop :=
  (status h = ok <-> reasons h = []) /\
  patched (validatedTail h) = mismatched (validatedTail h) /\
  (mismatched (validatedTail h) <= attempted (validatedTail h))%nat.

(** A step that leaves the validation counters and the fetch errors of the
    report alone and keeps the report coherent. *)
Definition same_account (h h' : Health) : Prop :=
  validatedTail h' = validatedTail h /\
  latestFetchErrors h' = latestFetchErrors h /\
  (report_consistent h -> report_consistent h').

(** The fetches [es] ask for single draws only. *)
Definition draw_requests (es : list (Req * option value)) : Prop :=
  Forall (fun e => exists sid m, fst e = ReqDraw sid m) es.

(** The run built its ledger on the loaded one: it neither took the bulk
    payload nor started from nothing. *)
Definition built_on_local (h : Health) : Prop :=
  mode (used h) <> Some "bootstrap-all" /\
  mode (used h) <> Some "incremental-from-scratch".

(** What one adapter attempt delivers: the record normalized from the body
    that came back, if any; a body on which [normalizeDraw] gives [null] or
    throws delivers none. *)
Definition attempt_result (s2n : string -> num) (resp : option value) : option DrawRecord :=
  match resp with
  | Some v =>
      match normalizeDraw s2n v with
      | Ok (Some d) => Some d
      | Ok None | TypeError => None
      end
  | None => None
  end.

(** The records among the items of a bulk payload, in payload order, and what
    one answer to a bulk request delivers: these records in ascending order
    of draw number, if the answer is an array holding any and no item of it
    makes [normalizeDraw] throw. *)
Definition valid_records (s2n : string -> num) (items : list value) : list DrawRecord :=
  flat_map (fun it => match normalizeDraw s2n it with
                      | Ok (Some d) => [d]
                      | Ok None | TypeError => []
                      end) items.

Definition throws_on (s2n : string -> num) (it : value) : bool :=
  match normalizeDraw s2n it with TypeError => true | Ok _ => false end.

Definition bulk_result (s2n : string -> num) (resp : option value)
    : option (list DrawRecord) :=
  match resp with
  | Some (VArr items) =>
      if existsb (throws_on s2n) items then None
      else
        match valid_records s2n items with
        | [] => None
        | mapped => Some (Array_sort byDrwNo mapped)
        end
  | _ => None
  end.

(** The fetches for draw number [n] over the sources [srcs], as the design
    document has them: the sources are asked in priority order until one
    succeeds. *)
Inductive FallbackTrace (s2n : string -> num) (n : Z)
  : list Source -> list (Req * option value) -> option SourceResult -> Prop :=
| Fallback_exhausted :
    FallbackTrace s2n n [] [] None
| Fallback_success (src : Source) (rest : list Source) (resp : option value)
    (d : DrawRecord) :
    attempt_result s2n resp = Some d ->
    FallbackTrace s2n n (src :: rest) [(ReqDraw (src_id src) n, resp)]
      (Some (mkResult (src_id src) (src_draw src n) d))
| Fallback_next (src : Source) (rest : list Source) (resp : option value)
    (es : list (Req * option value)) (r : option SourceResult) :
    attempt_result s2n resp = None ->
    FallbackTrace s2n n rest es r ->
    FallbackTrace s2n n (src :: rest) ((ReqDraw (src_id src) n, resp) :: es) r.

(** The incremental fill over the draw numbers [ns], as the design document
    has it: each number in turn is fetched with fallback and merged at once;
    the first number no source delivers ends the fill and degrades the run. *)
Inductive FillTrace (s2n : string -> num)
  : list Z -> list DrawRecord -> Health -> list (Req * option value) ->
    list DrawRecord -> Health -> Prop :=
| Fill_done (draws : list DrawRecord) (h : Health) :
    FillTrace s2n [] draws h [] draws h
| Fill_merge (n : Z) (rest : list Z) (draws : list DrawRecord) (h : Health)
    (es es' : list (Req * option value)) (g : SourceResult)
    (draws' : list DrawRecord) (h' : Health) :
    FallbackTrace s2n n SOURCES es (Some g) ->
    FillTrace s2n rest (mergeByNo draws [draw g]) h es' draws' h' ->
    FillTrace s2n (n :: rest) draws h (es ++ es') draws' h'
| Fill_stop (n : Z) (rest : list Z) (draws : list DrawRecord) (h : Health)
    (es : list (Req * option value)) :
    FallbackTrace s2n n SOURCES es None ->
    FillTrace s2n (n :: rest) draws h es draws
      (set_note (String.append "stopped_at=" (decimal n))
         (degrade (String.append "incremental_fetch_failed_at_" (decimal n)) h)).

(** In the fetches [es], draw number [n] was asked of every source and no
    source delivered it. *)
Definition failed_everywhere (s2n : string -> num) (es : list (Req * option value))
    (n : Z) : Prop :=
  (forall src, In src SOURCES -> exists resp, In (ReqDraw (src_id src) n, resp) es) /\
  (forall sid resp, In (ReqDraw sid n, resp) es -> attempt_result s2n resp = None).

(** The draw numbers the fetches [es] ask for, and the records they deliver,
    both in the order of the fetches. *)
Definition asked (es : list (Req * option value)) : list Z :=
  flat_map (fun e => match fst e with ReqDraw _ m => [m] | _ => [] end) es.

Definition delivered (s2n : string -> num) (es : list (Req * option value))
    : list DrawRecord :=
  flat_map (fun e => match attempt_result s2n (snd e) with
                     | Some d => [d]
                     | None => []
                     end) es.

(** Every record the fetches [es] deliver carries the number it was asked
    for. *)
Definition answers_as_asked (s2n : string -> num) (es : list (Req * option value))
    : Prop :=
  forall sid m resp d,
    In (ReqDraw sid m, resp) es -> attempt_result s2n resp = Some d -> drwNo d = m.

(** What a step of the controller may do to the ledger and to the health
    report: keep every draw number, keep the report free of the trailing
    reason, keep the mode and the consensus. *)
Definition carries (draws : list DrawRecord) (h : Health)
    (draws' : list DrawRecord) (h' : Health) : Prop :=
  (forall k, hasNo k draws -> hasNo k draws') /\
  (not_trailing h -> not_trailing h') /\
  mode (used h') = mode (used h) /\
  latestConsensus h' = latestConsensus h.

(** * Properties *)

(** ** Facts about the sort *)

Section SortFacts.
Context {A : Type}.
Variable comparefn : A -> A -> num.

Lemma sort_insert_perm (x : A) (l : list A) :
  Permutation (sort_insert comparefn x l) (x :: l).
Proof.
  induction l as [|y l IH]; simpl.
  - apply Permutation_refl.
  - destruct (not_after comparefn x y).
    + apply Permutation_refl.
    + eapply perm_trans; [apply perm_skip, IH | apply perm_swap].
Qed.

Lemma Array_sort_perm (l : list A) : Permutation (Array_sort comparefn l) l.
Proof.
  induction l as [|x l IH]; simpl.
  - apply perm_nil.
  - eapply perm_trans; [apply sort_insert_perm | apply perm_skip, IH].
Qed.

Lemma Array_sort_In (l : list A) (x : A) :
  In x (Array_sort comparefn l) <-> In x l.
Proof.
  split; apply Permutation_in;
    [apply Array_sort_perm | apply Permutation_sym, Array_sort_perm].
Qed.

Lemma Array_sort_length (l : list A) :
  List.length (Array_sort comparefn l) = List.length l.
Proof. apply Permutation_length, Array_sort_perm. Qed.

(** When the compare function orders by an integer key. *)
Variable key : A -> Z.
Hypothesis by_key : forall x y, not_after comparefn x y = (key x <=? key y).

Lemma sort_insert_sorted (x : A) (l : list A) :
  StronglySorted (fun a b => key a <= key b) l ->
  StronglySorted (fun a b => key a <= key b) (sort_insert comparefn x l).
Proof.
  induction 1 as [|y l Hs IH Hy]; simpl.
  - constructor; [constructor | constructor].
  - rewrite by_key. destruct (Z.leb_spec (key x) (key y)) as [Hle|Hgt].
    + constructor; [constructor; assumption|].
      constructor; [assumption|].
      eapply Forall_impl; [|exact Hy]. simpl; intros; lia.
    + constructor; [assumption|].
      eapply Permutation_Forall; [apply Permutation_sym, sort_insert_perm|].
      constructor; [lia | assumption].
Qed.

Lemma Array_sort_sorted (l : list A) :
  StronglySorted (fun a b => key a <= key b) (Array_sort comparefn l).
Proof.
  induction l as [|x l IH]; simpl; [constructor | now apply sort_insert_sorted].
Qed.

(** The head of the sorted array is the earliest element of least key. *)
Lemma Array_sort_head (l : list A) (x : A) (rest : list A) :
  Array_sort comparefn l = x :: rest ->
  exists l1 l2,
    l = l1 ++ x :: l2 /\
    Forall (fun y => key x < key y) l1 /\
    Forall (fun y => key x <= key y) l2.
Proof.
  revert x rest. induction l as [|a l IH]; simpl; intros x rest H.
  - discriminate.
  - destruct (Array_sort comparefn l) as [|y s] eqn:Es; simpl in H.
    + injection H as <- <-.
      assert (l = []) as ->.
      { apply Permutation_nil. rewrite <- Es. apply Array_sort_perm. }
      exists [], []. repeat split; constructor.
    + destruct (IH y s eq_refl) as (l1 & l2 & -> & H1 & H2).
      rewrite by_key in H.
      destruct (Z.leb_spec (key a) (key y)) as [Hle|Hgt]; injection H as <- <-.
      * exists [], (l1 ++ y :: l2). repeat split; [constructor|].
        apply Forall_app; split.
        -- eapply Forall_impl; [|exact H1]. simpl; intros; lia.
        -- constructor; [lia|]. eapply Forall_impl; [|exact H2]. simpl; intros; lia.
      * exists (a :: l1), l2. repeat split; [constructor; [lia | assumption] | assumption].
Qed.

Lemma Array_sort_nonempty (l : list A) :
  l <> [] -> Array_sort comparefn l <> [].
Proof.
  intros Hl Hs. apply Hl, Permutation_nil.
  rewrite <- Hs. apply Array_sort_perm.
Qed.
End SortFacts.

(** Strictly increasing lists with the same members are equal. *)
Lemma strictly_sorted_ext {A : Type} (key : A -> Z) (l1 l2 : list A) :
  StronglySorted (fun a b => key a < key b) l1 ->
  StronglySorted (fun a b => key a < key b) l2 ->
  (forall x, In x l1 <-> In x l2) ->
  l1 = l2.
Proof.
  intros H1. revert l2. induction H1 as [|a l1 Hs1 IH Ha]; intros l2 H2 Hin.
  - destruct l2 as [|b l2]; [reflexivity|].
    exfalso. apply (proj2 (Hin b)). now left.
  - destruct H2 as [|b l2 Hs2 Hb].
    + exfalso. apply (proj1 (Hin a)). now left.
    + rewrite Forall_forall in Ha, Hb.
      assert (a = b) as ->.
      { destruct (proj1 (Hin a) (or_introl eq_refl)) as [E|Hab]; [now symmetry|].
        destruct (proj2 (Hin b) (or_introl eq_refl)) as [E|Hba]; [assumption|].
        specialize (Ha _ Hba). specialize (Hb _ Hab). lia. }
      f_equal. apply IH; [assumption|].
      intros x; split; intros Hx.
      * destruct (proj1 (Hin x) (or_intror Hx)) as [E|Hx2]; [|assumption].
        subst x. specialize (Ha _ Hx). lia.
      * destruct (proj2 (Hin x) (or_intror Hx)) as [E|Hx1]; [|assumption].
        subst x. specialize (Hb _ Hx). lia.
Qed.

Lemma byDrwNo_key (x y : DrawRecord) :
  not_after byDrwNo x y = (drwNo x <=? drwNo y).
Proof.
  unfold not_after, byDrwNo; simpl.
  destruct (Z.ltb_spec 0 (drwNo x - drwNo y)), (Z.leb_spec (drwNo x) (drwNo y));
    simpl; try reflexivity; lia.
Qed.

(** ** Facts about the insertion-ordered map *)

Section MapFacts.
Context {K V : Type}.
Variable eqb : K -> K -> bool.
Hypothesis eqb_spec : forall a b, reflect (a = b) (eqb a b).

Lemma get_set (k k' : K) (v : V) (m : list (K * V)) :
  JsMap.get eqb k (JsMap.set eqb k' v m) =
  if eqb k' k then Some v else JsMap.get eqb k m.
Proof.
  induction m as [|[k0 v0] m IH]; simpl.
  - reflexivity.
  - destruct (eqb_spec k0 k') as [->|Hne]; simpl.
    + destruct (eqb_spec k' k); reflexivity.
    + rewrite IH. destruct (eqb_spec k0 k) as [->|]; [|reflexivity].
      destruct (eqb_spec k' k); [congruence | reflexivity].
Qed.

Lemma set_keys_In (k k' : K) (v : V) (m : list (K * V)) :
  In k (JsMap.keys (JsMap.set eqb k' v m)) <-> k = k' \/ In k (JsMap.keys m).
Proof.
  unfold JsMap.keys. induction m as [|[k0 v0] m IH]; simpl.
  - intuition.
  - destruct (eqb_spec k0 k') as [->|Hne]; simpl; [intuition|].
    rewrite IH. intuition.
Qed.

Lemma set_keys_NoDup (k : K) (v : V) (m : list (K * V)) :
  NoDup (JsMap.keys m) -> NoDup (JsMap.keys (JsMap.set eqb k v m)).
Proof.
  unfold JsMap.keys. induction m as [|[k0 v0] m IH]; simpl; intros Hnd.
  - constructor; [intros [] | constructor].
  - inversion Hnd as [|? ? Hnotin Hnd']; subst.
    destruct (eqb_spec k0 k) as [->|Hne]; simpl.
    + constructor; assumption.
    + constructor; [|apply IH; assumption].
      intros Hin. apply (set_keys_In k0 k v m) in Hin.
      destruct Hin as [E|Hin]; [congruence | contradiction].
Qed.

Lemma get_In (k : K) (v : V) (m : list (K * V)) :
  JsMap.get eqb k m = Some v -> In (k, v) m.
Proof.
  induction m as [|[k0 v0] m IH]; simpl; [discriminate|].
  destruct (eqb_spec k0 k) as [->|Hne].
  - intros [= ->]. now left.
  - intros H. right. now apply IH.
Qed.

Lemma In_get (k : K) (v : V) (m : list (K * V)) :
  NoDup (JsMap.keys m) -> In (k, v) m -> JsMap.get eqb k m = Some v.
Proof.
  unfold JsMap.keys. induction m as [|[k0 v0] m IH]; simpl; intros Hnd Hin; [contradiction|].
  inversion Hnd as [|? ? Hnotin Hnd']; subst.
  destruct Hin as [[= -> ->]|Hin].
  - destruct (eqb_spec k k); [reflexivity | congruence].
  - destruct (eqb_spec k0 k) as [->|Hne]; [|now apply IH].
    exfalso. apply Hnotin. change k with (fst (k, v)). now apply in_map.
Qed.

Lemma get_None (k : K) (m : list (K * V)) :
  JsMap.get eqb k m = None <-> ~ In k (JsMap.keys m).
Proof.
  unfold JsMap.keys. induction m as [|[k0 v0] m IH]; simpl.
  - intuition.
  - destruct (eqb_spec k0 k) as [->|Hne].
    + split; [discriminate | intros H; exfalso; apply H; now left].
    + rewrite IH. intuition.
Qed.
End MapFacts.

(** ** Facts about the ledger merger *)

Lemma mergeByNo_unfold (L X : list DrawRecord) :
  mergeByNo L X = Array_sort byDrwNo (JsMap.values (fold_left setDraw (L ++ X) [])).
Proof. unfold mergeByNo. now rewrite fold_left_app. Qed.

Lemma find_app {A : Type} (f : A -> bool) (l1 l2 : list A) :
  find f (l1 ++ l2) = match find f l1 with Some x => Some x | None => find f l2 end.
Proof.
  induction l1 as [|a l1 IH]; simpl; [reflexivity|].
  destruct (f a); [reflexivity | exact IH].
Qed.

Lemma winner_cons (k : Z) (d : DrawRecord) (l : list DrawRecord) :
  winner k (d :: l) =
  match winner k l with
  | Some x => Some x
  | None => if drwNo d =? k then Some d else None
  end.
Proof. unfold winner. simpl. rewrite find_app. reflexivity. Qed.

Lemma winner_app (k : Z) (l1 l2 : list DrawRecord) :
  winner k (l1 ++ l2) =
  match winner k l2 with Some x => Some x | None => winner k l1 end.
Proof. unfold winner. rewrite rev_app_distr. apply find_app. Qed.

Lemma winner_key (k : Z) (l : list DrawRecord) (d : DrawRecord) :
  winner k l = Some d -> drwNo d = k /\ In d l.
Proof.
  unfold winner. intros H. apply find_some in H. destruct H as [Hin Hk].
  split; [now apply Z.eqb_eq | now apply in_rev].
Qed.

Lemma winner_None (k : Z) (l : list DrawRecord) :
  winner k l = None <-> ~ hasNo k l.
Proof.
  unfold winner, hasNo. split.
  - intros H Hin. apply in_map_iff in Hin. destruct Hin as (d & Hd & Hin).
    apply in_rev in Hin. pose proof (find_none _ _ H d Hin) as Hf.
    simpl in Hf. apply Z.eqb_neq in Hf. contradiction.
  - intros H. destruct (find _ _) as [d|] eqn:E; [|reflexivity].
    exfalso. apply H. apply find_some in E. destruct E as [Hin Hk].
    apply in_map_iff. exists d. split; [now apply Z.eqb_eq | now apply in_rev].
Qed.

Lemma fold_setDraw_get (k : Z) (l : list DrawRecord) (m : list (Z * DrawRecord)) :
  JsMap.get Z.eqb k (fold_left setDraw l m) =
  match winner k l with Some d => Some d | None => JsMap.get Z.eqb k m end.
Proof.
  revert m. induction l as [|d l IH]; intros m; simpl.
  - reflexivity.
  - rewrite IH, winner_cons. destruct (winner k l); [reflexivity|].
    unfold setDraw. rewrite (get_set Z.eqb Z.eqb_spec).
    destruct (drwNo d =? k); reflexivity.
Qed.

Lemma fold_setDraw_inv (l : list DrawRecord) (m : list (Z * DrawRecord)) :
  NoDup (JsMap.keys m) -> Forall (fun kv => fst kv = drwNo (snd kv)) m ->
  NoDup (JsMap.keys (fold_left setDraw l m)) /\
  Forall (fun kv => fst kv = drwNo (snd kv)) (fold_left setDraw l m).
Proof.
  revert m. induction l as [|d l IH]; intros m Hnd Hk; simpl; [now split|].
  apply IH.
  - now apply (set_keys_NoDup Z.eqb Z.eqb_spec).
  - clear -Hk. unfold setDraw. induction Hk as [|[k0 v0] m Hx Hm IHm]; simpl.
    + constructor; [reflexivity | constructor].
    + destruct (Z.eqb_spec k0 (drwNo d)); constructor; simpl; auto.
Qed.

Lemma sorted_strict {A : Type} (key : A -> Z) (l : list A) :
  StronglySorted (fun a b => key a <= key b) l -> NoDup (map key l) ->
  StronglySorted (fun a b => key a < key b) l.
Proof.
  induction 1 as [|a l Hs IH Ha]; simpl; intros Hnd; [constructor|].
  inversion Hnd as [|? ? Hnotin Hnd']; subst.
  constructor; [now apply IH|].
  rewrite Forall_forall in *. intros x Hx.
  specialize (Ha x Hx).
  assert (key a <> key x) by (intros E; apply Hnotin; rewrite E; now apply in_map).
  lia.
Qed.

Lemma mergeByNo_keys_NoDup (L X : list DrawRecord) :
  NoDup (map drwNo (mergeByNo L X)).
Proof.
  rewrite mergeByNo_unfold.
  destruct (fold_setDraw_inv (L ++ X) [] (NoDup_nil _) (Forall_nil _)) as [Hnd Hk].
  eapply Permutation_NoDup.
  - apply Permutation_map, Permutation_sym, Array_sort_perm.
  - unfold JsMap.values, JsMap.keys in *. rewrite map_map.
    erewrite map_ext_Forall; [exact Hnd|].
    eapply Forall_impl; [|exact Hk]. simpl. intros kv E. now symmetry.
Qed.

Lemma mergeByNo_sorted (L X : list DrawRecord) :
  StronglySorted (fun a b => drwNo a < drwNo b) (mergeByNo L X).
Proof.
  apply sorted_strict; [|apply mergeByNo_keys_NoDup].
  unfold mergeByNo. apply Array_sort_sorted. exact byDrwNo_key.
Qed.

Lemma mergeByNo_In (L X : list DrawRecord) (d : DrawRecord) :
  In d (mergeByNo L X) <-> winner (drwNo d) (L ++ X) = Some d.
Proof.
  rewrite mergeByNo_unfold, Array_sort_In.
  destruct (fold_setDraw_inv (L ++ X) [] (NoDup_nil _) (Forall_nil _)) as [Hnd Hk].
  pose proof (fold_setDraw_get (drwNo d) (L ++ X) []) as Hget. simpl in Hget.
  set (m := fold_left setDraw (L ++ X) []) in *.
  split.
  - intros Hin. unfold JsMap.values in Hin. apply in_map_iff in Hin.
    destruct Hin as ([k v] & E & Hin). simpl in E. subst v.
    rewrite Forall_forall in Hk. pose proof (Hk _ Hin) as Ek. simpl in Ek. subst k.
    apply (In_get Z.eqb Z.eqb_spec) in Hin; [|assumption].
    rewrite Hget in Hin. destruct (winner _ _); [assumption | discriminate].
  - intros Hw. rewrite Hw in Hget.
    apply (get_In Z.eqb Z.eqb_spec) in Hget.
    unfold JsMap.values. apply in_map_iff. now exists (drwNo d, d).
Qed.

Lemma lookupNo_unique (l : list DrawRecord) (k : Z) (d : DrawRecord) :
  NoDup (map drwNo l) -> In d l -> drwNo d = k -> lookupNo k l = Some d.
Proof.
  unfold lookupNo. induction l as [|a l IH]; simpl; intros Hnd Hin Hk; [contradiction|].
  inversion Hnd as [|? ? Hnotin Hnd']; subst.
  destruct Hin as [->|Hin].
  - now rewrite Z.eqb_refl.
  - destruct (Z.eqb_spec (drwNo a) (drwNo d)) as [E|Hne]; [|now apply IH].
    exfalso. apply Hnotin. rewrite E. now apply in_map.
Qed.

(** The merged ledger holds, under every draw number, the last record written
    for it. *)
Lemma mergeByNo_lookup (L X : list DrawRecord) (k : Z) :
  lookupNo k (mergeByNo L X) = winner k (L ++ X).
Proof.
  destruct (winner k (L ++ X)) as [d|] eqn:Ew.
  - destruct (winner_key _ _ _ Ew) as [Hk _]. subst k.
    apply lookupNo_unique; [apply mergeByNo_keys_NoDup | | reflexivity].
    now apply mergeByNo_In.
  - unfold lookupNo. destruct (find _ _) as [d|] eqn:Ef; [|reflexivity].
    apply find_some in Ef. destruct Ef as [Hin Hk]. apply Z.eqb_eq in Hk. subst k.
    apply mergeByNo_In in Hin. congruence.
Qed.

Lemma mergeByNo_hasNo (L X : list DrawRecord) (k : Z) :
  hasNo k (mergeByNo L X) <-> hasNo k L \/ hasNo k X.
Proof.
  assert (Happ : hasNo k (L ++ X) <-> hasNo k L \/ hasNo k X).
  { unfold hasNo. rewrite map_app, in_app_iff. reflexivity. }
  rewrite <- Happ. split.
  - unfold hasNo at 1. intros Hin. apply in_map_iff in Hin.
    destruct Hin as (d & <- & Hin). apply mergeByNo_In in Hin.
    apply winner_key in Hin. destruct Hin as [_ Hin].
    unfold hasNo. now apply in_map.
  - intros Hin. destruct (winner k (L ++ X)) as [d|] eqn:Ew.
    + destruct (winner_key _ _ _ Ew) as [Hk _]. subst k.
      apply mergeByNo_In in Ew. unfold hasNo. now apply in_map.
    + apply winner_None in Ew. contradiction.
Qed.

Lemma winner_lookup (l : list DrawRecord) (k : Z) :
  NoDup (map drwNo l) -> winner k l = lookupNo k l.
Proof.
  intros Hnd. destruct (lookupNo k l) as [d|] eqn:El.
  - unfold lookupNo in El. apply find_some in El. destruct El as [Hin Hk].
    apply Z.eqb_eq in Hk. unfold winner. apply (lookupNo_unique (rev l)).
    + rewrite map_rev. eapply Permutation_NoDup; [apply Permutation_rev | exact Hnd].
    + now apply in_rev in Hin.
    + assumption.
  - apply winner_None. intros Hin. unfold hasNo in Hin. apply in_map_iff in Hin.
    destruct Hin as (d & Hk & Hin).
    unfold lookupNo in El. pose proof (find_none _ _ El d Hin) as Hf.
    simpl in Hf. apply Z.eqb_neq in Hf. contradiction.
Qed.

Lemma winner_mergeByNo (L X : list DrawRecord) (k : Z) :
  winner k (mergeByNo L X) = winner k (L ++ X).
Proof.
  rewrite winner_lookup by apply mergeByNo_keys_NoDup. apply mergeByNo_lookup.
Qed.

(** Two merges that leave the same record under every draw number give the
    same ledger. *)
Lemma mergeByNo_ext (L1 X1 L2 X2 : list DrawRecord) :
  (forall k, winner k (L1 ++ X1) = winner k (L2 ++ X2)) ->
  mergeByNo L1 X1 = mergeByNo L2 X2.
Proof.
  intros H. apply (strictly_sorted_ext drwNo); try apply mergeByNo_sorted.
  intros d. rewrite !mergeByNo_In, H. reflexivity.
Qed.

(** C8: merging is idempotent, [merge(L, merge(L, X)) = merge(L, X)] for
    every ledger [L] and every record set [X]. *)
Theorem mergeByNo_idempotent (L X : list DrawRecord) :
  mergeByNo L (mergeByNo L X) = mergeByNo L X.
Proof.
  apply mergeByNo_ext. intros k.
  rewrite winner_app, winner_mergeByNo.
  destruct (winner k (L ++ X)) as [d|] eqn:Ew; [reflexivity|].
  rewrite winner_app in Ew.
  destruct (winner k X); [discriminate | exact Ew].
Qed.

(** C4 (as stated, refuted): two record sets that carry different records
    for one draw number do not commute; the later call wins. *)
Lemma mergeByNo_order_matters :
  let L := [] in
  let A := [mkDraw 1 "2002-12-07" (map Fin [10; 23; 29; 33; 37; 40]) (Fin 16)] in
  let B := [mkDraw 1 "2002-12-07" (map Fin [10; 23; 29; 33; 37; 40]) (Fin 17)] in
  mergeByNo (mergeByNo L A) B <> mergeByNo (mergeByNo L B) A.
Proof. vm_compute. discriminate. Qed.

(** C4 (amended): merging [A] then [B] gives the same ledger as [B] then [A]
    whenever [A] and [B] carry the same record for every draw number they
    share; and in every merge the incoming records win: a draw number present
    in the incoming set ends up with the last incoming record for it,
    whatever the current ledger held. *)
Theorem mergeByNo_commutes_on_compatible (L A B : list DrawRecord) :
  (forall a b, In a A -> In b B -> drwNo a = drwNo b -> a = b) ->
  mergeByNo (mergeByNo L A) B = mergeByNo (mergeByNo L B) A /\
  (forall k, hasNo k A ->
     winner k A <> None /\ lookupNo k (mergeByNo L A) = winner k A).
Proof.
  intros Hcompat. split.
  - apply mergeByNo_ext. intros k.
    rewrite !winner_app, !winner_mergeByNo, !winner_app.
    destruct (winner k A) as [a|] eqn:Ea, (winner k B) as [b|] eqn:Eb; try reflexivity.
    destruct (winner_key _ _ _ Ea) as [Ka Ia], (winner_key _ _ _ Eb) as [Kb Ib].
    f_equal. symmetry. apply Hcompat; congruence.
  - intros k Hk. rewrite mergeByNo_lookup, winner_app.
    destruct (winner k A) eqn:Ea.
    + split; [discriminate | reflexivity].
    + apply winner_None in Ea. contradiction.
Qed.

Lemma mergeByNo_commutes_on_compatible_witness :
  let L := [mkDraw 1 "2002-12-07" (map Fin [10; 23; 29; 33; 37; 40]) (Fin 16)] in
  let A := [mkDraw 2 "2002-12-14" (map Fin [9; 13; 21; 25; 32; 42]) (Fin 2);
            mkDraw 1 "2002-12-07" (map Fin [10; 23; 29; 33; 37; 40]) (Fin 17)] in
  let B := [mkDraw 3 "2002-12-21" (map Fin [11; 16; 19; 21; 27; 31]) (Fin 30);
            mkDraw 2 "2002-12-14" (map Fin [9; 13; 21; 25; 32; 42]) (Fin 2)] in
  (forall a b, In a A -> In b B -> drwNo a = drwNo b -> a = b) /\
  (mergeByNo (mergeByNo L A) B = mergeByNo (mergeByNo L B) A /\
   (forall k, hasNo k A ->
      winner k A <> None /\ lookupNo k (mergeByNo L A) = winner k A)).
Proof.
  intros L A B.
  assert (H : forall a b, In a A -> In b B -> drwNo a = drwNo b -> a = b).
  { intros a b Ha Hb. simpl in Ha, Hb.
    destruct Ha as [<-|[<-|[]]]; destruct Hb as [<-|[<-|[]]]; simpl; intros E;
      solve [reflexivity | discriminate E]. }
  split; [exact H | exact (mergeByNo_commutes_on_compatible L A B H)].
Defined.

(** ** The record normalizer *)

Lemma sort_insert_map {A B : Type} (f : B -> B -> num) (g : A -> B) (x : A) (l : list A) :
  sort_insert f (g x) (map g l) = map g (sort_insert (fun a b => f (g a) (g b)) x l).
Proof.
  induction l as [|y l IH]; simpl; [reflexivity|].
  unfold not_after. destruct (num_ltb (Fin 0) (f (g x) (g y))); simpl;
    [now rewrite IH | reflexivity].
Qed.

Lemma Array_sort_map {A B : Type} (f : B -> B -> num) (g : A -> B) (l : list A) :
  Array_sort f (map g l) = map g (Array_sort (fun a b => f (g a) (g b)) l).
Proof.
  induction l as [|x l IH]; simpl; [reflexivity|].
  rewrite IH. apply sort_insert_map.
Qed.

Lemma ascendingZ_key (x y : Z) : not_after ascendingZ x y = (x <=? y).
Proof.
  unfold not_after, ascendingZ; simpl.
  destruct (Z.ltb_spec 0 (x - y)), (Z.leb_spec x y); simpl; try reflexivity; lia.
Qed.

(** Sorting finite numbers sorts their integer values. *)
Lemma sort_finite (zs : list Z) :
  Array_sort num_sub (map Fin zs) = map Fin (Array_sort ascendingZ zs) /\
  StronglySorted Z.le (Array_sort ascendingZ zs) /\
  Permutation (Array_sort ascendingZ zs) zs.
Proof.
  split; [apply (Array_sort_map num_sub Fin)|]. split.
  - apply (Array_sort_sorted ascendingZ (fun z => z) ascendingZ_key).
  - apply Array_sort_perm.
Qed.











Lemma mapC_Ok {A B : Type} (f : A -> completion B) (l : list A) (ys : list B) :
  mapC f l = Ok ys <-> map f l = map Ok ys.
Proof.
  revert ys. induction l as [|x l IH]; intros ys; simpl.
  - destruct ys; split; (discriminate || reflexivity || auto).
  - destruct (f x) as [y|]; simpl.
    + destruct (mapC f l) as [zs|]; simpl.
      * destruct ys as [|y' ys']; simpl; [split; discriminate|].
        specialize (IH ys'). split.
        -- intros [= <- <-]. f_equal. now apply IH.
        -- intros [= <- E]. apply IH in E. now injection E as <-.
      * destruct ys as [|y' ys']; simpl; [split; discriminate|].
        split; [discriminate|]. intros [= _ E]. apply (IH ys') in E. discriminate.
    + destruct ys; simpl; split; discriminate.
Qed.


Lemma normalizeDraw_inv (s2n : string -> num) (item : value) (r : DrawRecord) :
  normalizeDraw s2n item = Ok (Some r) <->
  exists n elems nums b d,
    Number s2n (get_prop item "draw_no") = Ok (Fin n) /\
    get_prop item "numbers" = VArr elems /\ List.length elems = 6%nat /\
    map (Number s2n) elems = map Ok nums /\
    Number s2n (get_prop item "bonus_no") = Ok b /\
    toYmd (get_prop item "date") = Ok (Some d) /\ d <> EmptyString /\
    r = mkDraw n d (Array_sort num_sub nums) b.
Proof.
  unfold normalizeDraw. split.
  - destruct (Number s2n (get_prop item "draw_no")) as [x|]; [|discriminate].
    cbn [cbind].
    destruct (get_prop item "numbers") as [| | | | |elems|] eqn:En; cbn [cbind];
      try (destruct (Number s2n (get_prop item "bonus_no")); [|discriminate];
           cbn [cbind];
           destruct (toYmd (get_prop item "date")) as [[d|]|]; cbn [cbind];
           destruct x; discriminate).
    destruct (mapC (Number s2n) elems) as [nums|] eqn:Em; [|discriminate]. cbn [cbind].
    destruct (Number s2n (get_prop item "bonus_no")) as [b|]; [|discriminate].
    cbn [cbind].
    destruct (toYmd (get_prop item "date")) as [[d|]|]; cbn [cbind];
      destruct x as [| | |n]; try discriminate.
    destruct (Nat.eqb_spec (List.length nums) 6) as [Hl|]; simpl; [|discriminate].
    destruct (String.eqb_spec d EmptyString) as [|Hd]; [discriminate|].
    intros [= <-]. apply mapC_Ok in Em.
    exists n, elems, nums, b, d. repeat split; auto.
    apply (f_equal (@List.length _)) in Em. rewrite !length_map in Em. congruence.
  - intros (n & elems & nums & b & d & -> & -> & Hl & Hm & -> & -> & Hd & ->).
    apply mapC_Ok in Hm. rewrite Hm. cbn [cbind].
    assert (Hn : List.length nums = 6%nat).
    { apply mapC_Ok in Hm. apply (f_equal (@List.length _)) in Hm.
      rewrite !length_map in Hm. congruence. }
    rewrite Hn. simpl.
    destruct (String.eqb_spec d EmptyString); [contradiction | reflexivity].
Qed.




(** C6 (as stated, refuted): a payload whose six numbers repeat and leave
    the pool, with a bonus of 99, is accepted. *)
Lemma normalizeDraw_accepts_outside_pool :
  let item :=
    VObj [("draw_no", VNum (Fin 1));
          ("numbers", VArr [VNum (Fin 7); VNum (Fin 7); VNum (Fin 50);
                            VNum (Fin 0); VNum (Fin 7); VNum (Fin 7)]);
          ("bonus_no", VNum (Fin 99));
          ("date", VStr "2002-12-07T00:00:00Z")] in
  exists r,
    normalizeDraw StringToNumber_dec item = Ok (Some r) /\
    numbers r = map Fin [0; 7; 7; 7; 7; 50] /\
    ~ DrawRecord_invariant r.
Proof.
  intros item. eexists. split; [vm_compute; reflexivity|]. split; [reflexivity|].
  intros (zs & b & _ & _ & _ & _ & _ & Hb & Hpool). simpl in Hb.
  injection Hb as <-. unfold in_pool in Hpool. lia.
Qed.

(** C6 (amended): a record that [normalizeDraw] accepts has exactly 6 main
    numbers, the six values of the payload coerced to numbers and reordered;
    distinctness and the pool [1,45] are not checked, so the record satisfies
    the invariant of the data model exactly when the payload's six values are
    pairwise distinct integers of the pool and its bonus is one too. *)
Theorem normalizeDraw_invariant_iff (s2n : string -> num) (item : value) (r : DrawRecord) :
  normalizeDraw s2n item = Ok (Some r) ->
  List.length (numbers r) = 6%nat /\
  (exists elems, get_prop item "numbers" = VArr elems /\
                 Permutation (map Ok (numbers r)) (map (Number s2n) elems)) /\
  (DrawRecord_invariant r <-> payload_in_pool s2n item).
Proof.
  intros E. apply normalizeDraw_inv in E.
  destruct E as (n & elems & nums & bn & d & _ & He & Hl & Hm & Hbn & _ & _ & ->). simpl.
  assert (Hn : List.length nums = 6%nat).
  { apply (f_equal (@List.length _)) in Hm. rewrite !length_map in Hm. congruence. }
  split; [now rewrite Array_sort_length|].
  split; [exists elems; split; [exact He|];
          rewrite Hm; apply Permutation_map, Array_sort_perm|].
  assert (Hinj : forall l1 l2 : list num, map Ok l1 = map Ok l2 -> l1 = l2).
  { induction l1 as [|x l1 IH]; intros [|y l2]; simpl; try discriminate; [reflexivity|].
    intros [= -> E]. f_equal. now apply IH. }
  unfold DrawRecord_invariant, payload_in_pool; simpl. split.
  - intros (zs & b & Hz & Hlen & Hnd & _ & Hpool & Hb & Hbp).
    assert (Hp : Permutation nums (map Fin zs)).
    { rewrite <- Hz. apply Permutation_sym, Array_sort_perm. }
    apply Permutation_map_inv in Hp. destruct Hp as (ws & Hw & Hp).
    exists elems, ws, b. repeat split; auto.
    + rewrite Hm, Hw, map_map. reflexivity.
    + rewrite <- (Permutation_length Hp). exact Hlen.
    + eapply Permutation_NoDup; eassumption.
    + eapply Permutation_Forall; eassumption.
    + congruence.
    + apply Hbp.
    + apply Hbp.
  - intros (elems' & ws & b & He' & Hw & Hlen & Hnd & Hpool & Hb & Hbp).
    destruct (sort_finite ws) as (Hs & Hsorted & Hp).
    exists (Array_sort ascendingZ ws), b. rewrite He in He'. injection He' as <-.
    assert (Enums : nums = map Fin ws).
    { apply Hinj. rewrite <- Hm, Hw, map_map. reflexivity. }
    rewrite Enums. repeat split; auto.
    + rewrite (Permutation_length Hp). exact Hlen.
    + eapply Permutation_NoDup; [apply Permutation_sym|]; eassumption.
    + eapply Permutation_Forall; [apply Permutation_sym|]; eassumption.
    + congruence.
    + apply Hbp.
    + apply Hbp.
Qed.

Lemma normalizeDraw_invariant_iff_witness :
  let item :=
    VObj [("draw_no", VNum (Fin 1));
          ("numbers", VArr [VNum (Fin 40); VNum (Fin 10); VNum (Fin 37);
                            VNum (Fin 23); VNum (Fin 33); VNum (Fin 29)]);
          ("bonus_no", VNum (Fin 16));
          ("date", VStr "2002-12-07T00:00:00Z")] in
  let r := mkDraw 1 "2002-12-07" (map Fin [10; 23; 29; 33; 37; 40]) (Fin 16) in
  normalizeDraw StringToNumber_dec item = Ok (Some r) /\
  (List.length (numbers r) = 6%nat /\
   (exists elems, get_prop item "numbers" = VArr elems /\
                  Permutation (map Ok (numbers r))
                    (map (Number StringToNumber_dec) elems)) /\
   (DrawRecord_invariant r <-> payload_in_pool StringToNumber_dec item)).
Proof.
  intros item r.
  assert (H : normalizeDraw StringToNumber_dec item = Ok (Some r))
    by (vm_compute; reflexivity).
  split; [exact H | exact (normalizeDraw_invariant_iff StringToNumber_dec item r H)].
Defined.

(** ** The statistics aggregator *)

Lemma initCounter_zero {C : Type} (zero : C) : zero_table zero (initCounter zero).
Proof.
  split; [reflexivity|].
  intros n Hn. unfold in_pool in Hn. unfold initCounter.
  assert (H : forall len a, (Z.of_nat a <= n < Z.of_nat a + Z.of_nat len) ->
            JsMap.get Z.eqb n (map (fun i => (Z.of_nat i, zero)) (seq a len)) = Some zero).
  { induction len as [|len IH]; intros a Ha; simpl; [lia|].
    destruct (Z.eqb_spec (Z.of_nat a) n); [reflexivity|].
    apply IH. lia. }
  apply H. lia.
Qed.

(** C9: on an empty ledger the aggregator returns (it is a total function:
    nothing is raised) overall tables and, for each of the windows 10, 20 and
    30, raw and decay-weighted tables that map every number 1..45 to zero,
    with the window's [from] and [to] null and its draw count 0. *)
Theorem makeFreq_empty :
  let f := makeFreq [] in
  zero_table 0 (overall_main (overall f)) /\
  zero_table 0 (overall_bonus (overall f)) /\
  map fst (recent f) = RECENT_WINDOWS /\
  map fst (recentWeighted f) = RECENT_WINDOWS /\
  Forall (fun w => w_from w = None /\ w_to w = None /\ w_drawCount w = 0%nat /\
                   zero_table 0 (w_main w) /\ zero_table 0 (w_bonus w))
         (map snd (recent f)) /\
  Forall (fun w => ww_from w = None /\ ww_to w = None /\ ww_drawCount w = 0%nat /\
                   zero_table 0%Q (ww_main w) /\ zero_table 0%Q (ww_bonus w))
         (map snd (recentWeighted f)).
Proof.
  pose proof (initCounter_zero 0) as HZ.
  pose proof (initCounter_zero 0%Q) as HQ.
  simpl. repeat split; try reflexivity; try apply HZ; try apply HQ;
    repeat (constructor; [repeat split; try reflexivity; try apply HZ; try apply HQ|]);
    constructor.
Qed.

(** ** The signature determines the record *)

Lemma occurs_append (c : ascii) (s1 s2 : string) :
  occurs c (String.append s1 s2) <-> occurs c s1 \/ occurs c s2.
Proof. induction s1 as [|a s1 IH]; simpl; [tauto | rewrite IH; tauto]. Qed.

(** A text is cut in one way only at the first occurrence of [c]. *)
Lemma cut_unique (c : ascii) (a1 a2 t1 t2 : string) :
  ~ occurs c a1 -> ~ occurs c a2 ->
  String.append a1 (String c t1) = String.append a2 (String c t2) ->
  a1 = a2 /\ t1 = t2.
Proof.
  revert a2. induction a1 as [|x a1 IH]; intros [|y a2] H1 H2; simpl in *.
  - intros [= ->]. auto.
  - intros [= <- _]. exfalso. apply H2. now left.
  - intros [= -> _]. exfalso. apply H1. now left.
  - intros [= -> E]. destruct (IH a2) as [-> ->]; auto.
Qed.

Lemma uint_chars (u : Decimal.uint) (c : ascii) :
  occurs c (NilEmpty.string_of_uint u) -> c <> ","%char /\ c <> "|"%char.
Proof.
  induction u; simpl; intros H; try contradiction;
    (destruct H as [<-|H]; [split; discriminate | now apply IHu]).
Qed.

Lemma Number_toString_chars (x : num) (c : ascii) :
  occurs c (Number_toString x) -> c <> ","%char /\ c <> "|"%char.
Proof.
  destruct x as [| | |z]; simpl.
  1-3: intros H; repeat (destruct H as [<-|H]; [split; discriminate|]); contradiction.
  assert (Hu : forall u, occurs c (NilZero.string_of_uint u) ->
                         c <> ","%char /\ c <> "|"%char).
  { intros u. destruct u;
      try (match goal with
           | |- occurs _ (NilZero.string_of_uint ?d) -> _ => exact (uint_chars d c)
           end).
    simpl. intros [<-|[]]. split; discriminate. }
  destruct (Z.to_int z) as [u|u].
  - exact (Hu u).
  - intros H.
    change ("-"%char = c \/ occurs c (NilZero.string_of_uint u)) in H.
    destruct H as [<-|H]; [split; discriminate | exact (Hu u H)].
Qed.

Lemma to_int_not_nil (z : Z) :
  Z.to_int z <> Decimal.Pos Decimal.Nil /\ Z.to_int z <> Decimal.Neg Decimal.Nil.
Proof.
  destruct z; simpl; split; try discriminate; intros [= E];
    now apply DecimalPos.Unsigned.to_uint_nonnil in E.
Qed.

Lemma decimal_parse (z : Z) :
  NilZero.int_of_string (NilZero.string_of_int (Z.to_int z)) = Some (Z.to_int z).
Proof. destruct (to_int_not_nil z). now apply NilZero.isi. Qed.

Lemma Number_toString_inj (x y : num) :
  Number_toString x = Number_toString y -> x = y.
Proof.
  destruct x as [| | |z], y as [| | |z']; simpl; intros E;
    try reflexivity; try discriminate.
  1-3: pose proof (decimal_parse z') as P; rewrite <- E in P; discriminate.
  1-3: pose proof (decimal_parse z) as P; rewrite E in P; discriminate.
  pose proof (decimal_parse z) as P. rewrite E, decimal_parse in P.
  injection P as P. f_equal. symmetry. now apply DecimalZ.to_int_inj.
Qed.

Lemma Number_toString_nonempty (x : num) : Number_toString x <> EmptyString.
Proof.
  destruct x as [| | |z]; simpl; try discriminate.
  intros E. pose proof (decimal_parse z) as P. rewrite E in P. discriminate.
Qed.

Lemma join_cons (a b : string) (l : list string) :
  join "," (a :: b :: l) = String.append a (String ","%char (join "," (b :: l))).
Proof. reflexivity. Qed.

Lemma join_chars (l : list num) :
  ~ occurs "|"%char (join "," (map Number_toString l)).
Proof.
  induction l as [|x [|y l] IH].
  - simpl. tauto.
  - simpl. intros H. now apply Number_toString_chars in H.
  - change (map Number_toString (x :: y :: l))
      with (Number_toString x :: Number_toString y :: map Number_toString l).
    rewrite join_cons, occurs_append. simpl. intros [H|[H|H]].
    + now apply Number_toString_chars in H.
    + discriminate.
    + now apply IH.
Qed.

Lemma join_inj (l1 l2 : list num) :
  join "," (map Number_toString l1) = join "," (map Number_toString l2) -> l1 = l2.
Proof.
  assert (Hne : forall x l, join "," (map Number_toString (x :: l)) <> EmptyString).
  { intros x [|y l]; simpl.
    - apply Number_toString_nonempty.
    - pose proof (Number_toString_nonempty x). destruct (Number_toString x); [congruence|].
      simpl. discriminate. }
  assert (Hsingle : forall x y z l,
            Number_toString x <> join "," (map Number_toString (y :: z :: l))).
  { intros x y z l E.
    assert (H : occurs ","%char (Number_toString x)).
    { rewrite E.
      change (map Number_toString (y :: z :: l))
        with (Number_toString y :: Number_toString z :: map Number_toString l).
      rewrite join_cons, occurs_append. right. now left. }
    now apply Number_toString_chars in H. }
  revert l2. induction l1 as [|x l1 IH]; intros [|y l2] E.
  - reflexivity.
  - symmetry in E. now apply Hne in E.
  - now apply Hne in E.
  - destruct l1 as [|x' l1], l2 as [|y' l2].
    + simpl in E. now apply Number_toString_inj in E as ->.
    + now apply Hsingle in E.
    + symmetry in E. now apply Hsingle in E.
    + change (map Number_toString (x :: x' :: l1))
        with (Number_toString x :: Number_toString x' :: map Number_toString l1) in E.
      change (map Number_toString (y :: y' :: l2))
        with (Number_toString y :: Number_toString y' :: map Number_toString l2) in E.
      rewrite !join_cons in E.
      apply cut_unique in E.
      * destruct E as [Ex El]. apply Number_toString_inj in Ex as ->.
        f_equal. now apply IH.
      * intros H. now apply Number_toString_chars in H.
      * intros H. now apply Number_toString_chars in H.
Qed.

(** Records with the same signature are the same record. *)
Lemma drawSig_inj (a b : DrawRecord) : drawSig a = drawSig b -> a = b.
Proof.
  unfold drawSig. intros E.
  change (String.append "|" ?s) with (String "|"%char s) in E.
  apply cut_unique in E;
    [|intros H; now apply Number_toString_chars in H
     |intros H; now apply Number_toString_chars in H].
  destruct E as [E1 E].
  change (String.append "|b" ?s) with (String "|"%char (String "b"%char s)) in E.
  apply cut_unique in E; [|apply join_chars|apply join_chars].
  destruct E as [E2 E]. injection E as E.
  apply cut_unique in E;
    [|intros H; now apply Number_toString_chars in H
     |intros H; now apply Number_toString_chars in H].
  destruct E as [E3 E4].
  apply Number_toString_inj in E1, E3. apply join_inj in E2.
  destruct a, b; simpl in *. injection E1 as ->. now subst.
Qed.

(** ** Grouping into a map of arrays *)

Section GroupFacts.
Context {K R : Type}.
Variable eqb : K -> K -> bool.
Hypothesis eqb_spec : forall a b, reflect (a = b) (eqb a b).
Variable kf : R -> K.

Local Abbreviation group := (groupBy eqb kf).
Local Abbreviation members := (membersOf eqb kf).

Lemma eqb_refl (k : K) : eqb k k = true.
Proof. destruct (eqb_spec k k); congruence. Qed.

Lemma set_keys (k : K) (v : list R) (m : list (K * list R)) :
  JsMap.keys (JsMap.set eqb k v m) =
  if JsMap.has eqb k m then JsMap.keys m else JsMap.keys m ++ [k].
Proof.
  unfold JsMap.keys, JsMap.has. induction m as [|[k0 v0] m IH]; simpl; [reflexivity|].
  destruct (eqb_spec k0 k) as [->|Hne]; simpl; [reflexivity|].
  rewrite IH. destruct (JsMap.get eqb k m); reflexivity.
Qed.

Lemma push_get (k k' : K) (r : R) (m : list (K * list R)) :
  JsMap.get eqb k' (JsMap.push eqb k r m) =
  if eqb k k'
  then Some (match JsMap.get eqb k m with Some arr => arr | None => [] end ++ [r])
  else JsMap.get eqb k' m.
Proof.
  unfold JsMap.push, JsMap.has.
  destruct (JsMap.get eqb k m) as [arr|] eqn:E.
  - rewrite E. apply (get_set eqb eqb_spec).
  - rewrite (get_set eqb eqb_spec), eqb_refl, !(get_set eqb eqb_spec).
    destruct (eqb k k'); reflexivity.
Qed.

Lemma push_keys (k : K) (r : R) (m : list (K * list R)) :
  JsMap.keys (JsMap.push eqb k r m) =
  if JsMap.has eqb k m then JsMap.keys m else JsMap.keys m ++ [k].
Proof.
  unfold JsMap.push. destruct (JsMap.has eqb k m) eqn:Eh.
  - unfold JsMap.has in Eh. destruct (JsMap.get eqb k m) eqn:E; [|discriminate].
    rewrite set_keys. unfold JsMap.has. now rewrite E.
  - rewrite (get_set eqb eqb_spec), eqb_refl, !set_keys, Eh.
    unfold JsMap.has. now rewrite (get_set eqb eqb_spec), eqb_refl.
Qed.

Lemma group_snoc (rs : list R) (r : R) :
  group (rs ++ [r]) = JsMap.push eqb (kf r) r (group rs).
Proof. unfold groupBy. now rewrite fold_left_app. Qed.

Lemma members_snoc (k : K) (rs : list R) (r : R) :
  members k (rs ++ [r]) = members k rs ++ (if eqb (kf r) k then [r] else []).
Proof. unfold membersOf. rewrite filter_app. reflexivity. Qed.

Lemma group_get (k : K) (rs : list R) :
  JsMap.get eqb k (group rs) =
  match members k rs with [] => None | arr => Some arr end.
Proof.
  induction rs as [|r rs IH] using rev_ind; [reflexivity|].
  rewrite group_snoc, push_get, members_snoc.
  destruct (eqb_spec (kf r) k) as [E|Hne].
  - subst k. rewrite IH. destruct (members (kf r) rs); reflexivity.
  - rewrite IH, app_nil_r. reflexivity.
Qed.

Lemma group_keys_NoDup (rs : list R) : NoDup (JsMap.keys (group rs)).
Proof.
  induction rs as [|r rs IH] using rev_ind; [constructor|].
  rewrite group_snoc, push_keys.
  destruct (JsMap.has eqb (kf r) (group rs)) eqn:Eh; [assumption|].
  apply NoDup_app; [assumption | constructor; [intros [] | constructor] |].
  intros k Hk [E|[]]. subst k.
  unfold JsMap.has in Eh.
  destruct (JsMap.get eqb (kf r) (group rs)) eqn:E; [discriminate|].
  now apply (get_None eqb eqb_spec) in E.
Qed.

Lemma group_keys_In (k : K) (rs : list R) :
  In k (JsMap.keys (group rs)) <-> In k (map kf rs).
Proof.
  assert (Hm : members k rs = [] <-> ~ In k (map kf rs)).
  { unfold membersOf. induction rs as [|r rs IH]; simpl; [tauto|].
    destruct (eqb_spec (kf r) k) as [->|Hne].
    - split; [discriminate | intros Hn; exfalso; apply Hn; now left].
    - rewrite IH. tauto. }
  assert (H : ~ In k (JsMap.keys (group rs)) <-> members k rs = []).
  { rewrite <- (get_None eqb eqb_spec), group_get.
    destruct (members k rs); split; intros E; congruence. }
  destruct (in_dec (fun a b => reflect_dec _ _ (eqb_spec a b)) k (JsMap.keys (group rs)))
    as [Hin|Hnin].
  - split; [intros _ | auto].
    destruct (in_dec (fun a b => reflect_dec _ _ (eqb_spec a b)) k (map kf rs));
      [assumption|].
    exfalso. apply Hm in n. apply H in n. contradiction.
  - split; [contradiction|]. intros Hin. exfalso.
    apply H in Hnin. apply Hm in Hnin. contradiction.
Qed.

Lemma group_entry (k : K) (arr : list R) (rs : list R) :
  In (k, arr) (group rs) -> arr = members k rs /\ arr <> [].
Proof.
  intros Hin. apply (In_get eqb eqb_spec) in Hin; [|apply group_keys_NoDup].
  rewrite group_get in Hin. destruct (members k rs); [discriminate|].
  injection Hin as <-. split; [reflexivity | discriminate].
Qed.

Lemma group_keys_prefix (l1 l2 : list R) :
  exists ext, JsMap.keys (group (l1 ++ l2)) = JsMap.keys (group l1) ++ ext.
Proof.
  induction l2 as [|r l2 [ext IH]] using rev_ind.
  - exists []. now rewrite !app_nil_r.
  - rewrite app_assoc, group_snoc, push_keys.
    destruct (JsMap.has eqb (kf r) (group (l1 ++ l2))).
    + now exists ext.
    + exists (ext ++ [kf r]). now rewrite IH, app_assoc.
Qed.

Lemma members_head (k : K) (rs : list R) (r0 : R) (rest : list R) :
  members k rs = r0 :: rest ->
  exists l1 l2, rs = l1 ++ r0 :: l2 /\ kf r0 = k /\ ~ In k (map kf l1).
Proof.
  unfold membersOf. induction rs as [|r rs IH]; simpl; [discriminate|].
  destruct (eqb_spec (kf r) k) as [E|Hne].
  - intros [= -> _]. exists [], rs. repeat split; auto.
  - intros H. destruct (IH H) as (l1 & l2 & -> & Hk & Hnin).
    exists (r :: l1), l2. repeat split; auto.
    simpl. intros [E|Hin]; [congruence | contradiction].
Qed.
End GroupFacts.

Lemma NoDup_cut_unique {A : Type} (x : A) (a b c d : list A) :
  NoDup (a ++ x :: b) -> a ++ x :: b = c ++ x :: d -> a = c.
Proof.
  revert c. induction a as [|y a IH]; intros [|z c] Hnd E; simpl in *.
  - reflexivity.
  - injection E as Ex Eb. exfalso. inversion Hnd as [|? ? Hnin _].
    apply Hnin. rewrite Eb. apply in_elt.
  - injection E as Ey Ed. exfalso. inversion Hnd as [|? ? Hnin _].
    apply Hnin. rewrite Ey. apply in_elt.
  - injection E as Ey Ed. rewrite Ey. f_equal. inversion Hnd as [|? ? _ Hnd'].
    now apply IH.
Qed.

Lemma byCountDesc_key {K R : Type} (x y : K * list R) :
  not_after byCountDesc x y =
  (- Z.of_nat (List.length (snd x)) <=? - Z.of_nat (List.length (snd y))).
Proof.
  unfold not_after, byCountDesc; simpl.
  destruct (Z.ltb_spec 0 (Z.of_nat (List.length (snd y)) - Z.of_nat (List.length (snd x))));
    destruct (Z.leb_spec (- Z.of_nat (List.length (snd x)))
                (- Z.of_nat (List.length (snd y)))); simpl; try reflexivity; lia.
Qed.

(** The best entry of a grouping: its array starts at the earliest element
    whose group is largest. *)
Lemma group_best {K R : Type} (eqb : K -> K -> bool)
    (eqb_spec : forall a b, reflect (a = b) (eqb a b)) (kf : R -> K) (rs : list R) :
  rs <> [] ->
  exists s0 r0 rest tl l1 l2,
    Array_sort byCountDesc (groupBy eqb kf rs) = (s0, r0 :: rest) :: tl /\
    rs = l1 ++ r0 :: l2 /\ kf r0 = s0 /\
    r0 :: rest = membersOf eqb kf s0 rs /\
    Forall (fun r => (List.length (membersOf eqb kf (kf r) rs)
                      < List.length (membersOf eqb kf s0 rs))%nat) l1 /\
    Forall (fun r => (List.length (membersOf eqb kf (kf r) rs)
                      <= List.length (membersOf eqb kf s0 rs))%nat) l2.
Proof.
  intros Hne.
  set (G := groupBy eqb kf rs).
  assert (HG : G <> []).
  { destruct rs as [|r rs]; [congruence|].
    assert (Hin : In (kf r) (JsMap.keys G)).
    { apply (group_keys_In eqb eqb_spec). now left. }
    intros E. rewrite E in Hin. contradiction. }
  destruct (Array_sort byCountDesc G) as [|[s0 arr0] tl] eqn:Es.
  { exfalso. now apply (Array_sort_nonempty byCountDesc G HG). }
  destruct (Array_sort_head byCountDesc _ byCountDesc_key G _ _ Es)
    as (E1 & E2 & EG & H1 & H2).
  assert (Hent : In (s0, arr0) G) by (rewrite EG; apply in_elt).
  destruct (group_entry eqb eqb_spec kf _ _ _ Hent) as [Harr Hnil].
  destruct arr0 as [|r0 rest]; [congruence|].
  destruct (members_head eqb eqb_spec kf s0 rs r0 rest (eq_sym Harr))
    as (l1 & l2 & Hrs & Hk & Hnin).
  exists s0, r0, rest, tl, l1, l2. repeat split; auto.
  - (* strictly smaller groups in front *)
    destruct (group_keys_prefix eqb eqb_spec kf (l1 ++ [r0]) l2) as [ext Hext].
    rewrite <- app_assoc in Hext. simpl in Hext. rewrite <- Hrs in Hext.
    rewrite group_snoc, (push_keys eqb eqb_spec) in Hext.
    assert (Hhas : JsMap.has eqb (kf r0) (groupBy eqb kf l1) = false).
    { unfold JsMap.has. destruct (JsMap.get eqb (kf r0) (groupBy eqb kf l1)) eqn:E;
        [|reflexivity].
      exfalso. apply Hnin. rewrite <- Hk. apply (group_keys_In eqb eqb_spec).
      apply (get_In eqb eqb_spec) in E. change (kf r0) with (fst (kf r0, l)).
      now apply in_map. }
    rewrite Hhas, <- app_assoc in Hext. simpl in Hext.
    assert (Hkeys : JsMap.keys E1 = JsMap.keys (groupBy eqb kf l1)).
    { apply (NoDup_cut_unique s0 _ (JsMap.keys E2) _ ext).
      - pose proof (group_keys_NoDup eqb eqb_spec kf rs) as Hnd.
        fold G in Hnd. rewrite EG in Hnd. unfold JsMap.keys in *.
        now rewrite map_app in Hnd.
      - fold G in Hext. rewrite EG in Hext. unfold JsMap.keys in *.
        rewrite map_app in Hext. simpl in Hext. now rewrite Hk in Hext. }
    rewrite Forall_forall. intros r Hr.
    assert (Hin : In (kf r) (JsMap.keys E1)).
    { rewrite Hkeys. apply (group_keys_In eqb eqb_spec). now apply in_map. }
    unfold JsMap.keys in Hin. apply in_map_iff in Hin.
    destruct Hin as ([k arr] & Ek & Hin). simpl in Ek. subst k.
    rewrite Forall_forall in H1. specialize (H1 _ Hin). simpl in H1.
    assert (HinG : In (kf r, arr) G) by (rewrite EG; apply in_or_app; now left).
    destruct (group_entry eqb eqb_spec kf _ _ _ HinG) as [<- _].
    rewrite <- Harr. simpl in *. lia.
  - (* no larger group behind *)
    rewrite Forall_forall. intros r Hr.
    assert (Hin : In (kf r) (JsMap.keys G)).
    { apply (group_keys_In eqb eqb_spec). apply in_map. rewrite Hrs.
      apply in_or_app. right. now right. }
    unfold JsMap.keys in Hin. apply in_map_iff in Hin.
    destruct Hin as ([k arr] & Ek & Hin). simpl in Ek. subst k.
    destruct (group_entry eqb eqb_spec kf _ _ _ Hin) as [<- _].
    rewrite <- Harr. rewrite EG in Hin. apply in_app_or in Hin.
    rewrite Forall_forall in H1, H2.
    destruct Hin as [Hin|[Hin|Hin]].
    + specialize (H1 _ Hin). simpl in *. lia.
    + injection Hin as _ <-. lia.
    + specialize (H2 _ Hin). simpl in *. lia.
Qed.

(** ** The consensus resolver *)

Lemma descending_key (x y : Z) : not_after descending x y = (- x <=? - y).
Proof.
  unfold not_after, descending; simpl.
  destruct (Z.ltb_spec 0 (y - x)), (Z.leb_spec (- x) (- y)); simpl; try reflexivity; lia.
Qed.

Lemma find_first_descending (P : Z -> bool) (l : list Z) (n : Z) :
  StronglySorted (fun a b => - a < - b) l -> find P l = Some n ->
  forall m, In m l -> n < m -> P m = false.
Proof.
  induction 1 as [|a l Hs IH Ha]; simpl; [discriminate|].
  destruct (P a) eqn:Ea.
  - intros [= ->] m [->|Hm] Hlt; [lia|].
    rewrite Forall_forall in Ha. specialize (Ha _ Hm). lia.
  - intros Hf m [<-|Hm] Hlt; [exact Ea | now apply IH].
Qed.

Lemma support_length (rs : list SourceResult) (f : SourceResult -> bool) :
  NoDup (map sourceId rs) -> support (filter f rs) = List.length (filter f rs).
Proof.
  intros Hnd. unfold support.
  rewrite nodup_fixed_point; [apply length_map|].
  induction rs as [|r rs IH]; simpl in *; [constructor|].
  inversion Hnd as [|? ? Hnin Hnd']; subst.
  destruct (f r); simpl; [|now apply IH].
  constructor; [|now apply IH].
  intros Hin. apply Hnin. apply in_map_iff in Hin. destruct Hin as (x & Ex & Hx).
  apply filter_In in Hx. apply in_map_iff. exists x. tauto.
Qed.

Lemma support_length2 (rs : list SourceResult) (f g : SourceResult -> bool) :
  NoDup (map sourceId rs) ->
  support (filter g (filter f rs)) = List.length (filter g (filter f rs)).
Proof.
  assert (E : filter g (filter f rs) = filter (fun r => f r && g r) rs).
  { induction rs as [|r rs IH]; simpl; [reflexivity|].
    destruct (f r); simpl; [destruct (g r); simpl; now rewrite IH | exact IH]. }
  intros Hnd. rewrite E. now apply support_length.
Qed.

(** The choice of the target draw number. *)
Lemma target_choice (rs : list SourceResult) :
  rs <> [] ->
  exists n,
    match
      find (fun n => match JsMap.get Z.eqb n (groupByNo rs) with
                     | Some arr => (2 <=? List.length arr)%nat
                     | None => false
                     end)
        (Array_sort descending (JsMap.keys (groupByNo rs)))
    with
    | Some n => Some n
    | None => hd_error (Array_sort descending (JsMap.keys (groupByNo rs)))
    end = Some n /\
    JsMap.get Z.eqb n (groupByNo rs) = Some (forNo n rs) /\
    forNo n rs <> [] /\
    (((2 <= List.length (forNo n rs))%nat /\
      forall m, n < m -> (List.length (forNo m rs) < 2)%nat) \/
     ((forall m, (List.length (forNo m rs) < 2)%nat) /\
      In n (map (fun r => drwNo (draw r)) rs) /\
      forall r, In r rs -> drwNo (draw r) <= n)).
Proof.
  intros Hne.
  change (groupByNo rs) with (groupBy Z.eqb (fun r => drwNo (draw r)) rs).
  set (kf := fun r : SourceResult => drwNo (draw r)).
  set (G := groupBy Z.eqb kf rs).
  set (nos := Array_sort descending (JsMap.keys G)).
  set (P := fun n : Z => match JsMap.get Z.eqb n G with
                         | Some arr => (2 <=? List.length arr)%nat
                         | None => false
                         end).
  assert (HP : forall m, P m = (2 <=? List.length (forNo m rs))%nat).
  { intros m. unfold P, G. rewrite (group_get Z.eqb Z.eqb_spec).
    change (membersOf Z.eqb kf m rs) with (forNo m rs).
    destruct (forNo m rs); reflexivity. }
  assert (Hget : forall m, In m nos ->
            JsMap.get Z.eqb m G = Some (forNo m rs) /\ forNo m rs <> [] /\
            In m (map kf rs)).
  { intros m Hm. apply Array_sort_In in Hm.
    pose proof (proj1 (group_keys_In Z.eqb Z.eqb_spec kf m rs) Hm) as Hin.
    unfold G. rewrite (group_get Z.eqb Z.eqb_spec).
    change (membersOf Z.eqb kf m rs) with (forNo m rs).
    destruct (forNo m rs) as [|x l] eqn:E.
    - exfalso. apply in_map_iff in Hin. destruct Hin as (r & Er & Hr).
      assert (Hf : In r (forNo m rs)).
      { apply filter_In. split; [assumption | now apply Z.eqb_eq]. }
      rewrite E in Hf. contradiction.
    - repeat split; [discriminate | assumption]. }
  assert (Hout : forall m, ~ In m nos -> forNo m rs = []).
  { intros m Hm. destruct (forNo m rs) as [|x l] eqn:E; [reflexivity|].
    exfalso. apply Hm. apply Array_sort_In.
    apply (group_keys_In Z.eqb Z.eqb_spec kf).
    assert (Hx : In x (forNo m rs)) by (rewrite E; now left).
    apply filter_In in Hx. destruct Hx as [Hx Ex]. apply Z.eqb_eq in Ex.
    apply in_map_iff. now exists x. }
  assert (Hsorted : StronglySorted (fun a b => - a < - b) nos).
  { apply (sorted_strict Z.opp).
    - apply (Array_sort_sorted descending Z.opp descending_key).
    - apply Finite.Injective_map_NoDup; [intros a b; lia|].
      eapply Permutation_NoDup; [apply Permutation_sym, Array_sort_perm|].
      apply (group_keys_NoDup Z.eqb Z.eqb_spec). }
  destruct (find P nos) as [n|] eqn:Ef.
  - exists n. apply find_some in Ef as Hn. destruct Hn as [Hn Pn].
    destruct (Hget n Hn) as (Hg & Hnil & _).
    repeat split; auto. left. split.
    + rewrite HP in Pn. now apply Nat.leb_le in Pn.
    + intros m Hm. destruct (in_dec Z.eq_dec m nos) as [Hin|Hnin].
      * pose proof (find_first_descending P nos n Hsorted Ef m Hin Hm) as Pm.
        rewrite HP in Pm. apply Nat.leb_gt in Pm. exact Pm.
      * rewrite (Hout m Hnin). simpl. lia.
  - destruct nos as [|n nos'] eqn:En.
    + exfalso. destruct rs as [|r rs]; [congruence|].
      assert (Hin : In (kf r) (JsMap.keys G)).
      { apply (group_keys_In Z.eqb Z.eqb_spec). now left. }
      apply (Array_sort_In descending) in Hin. fold nos in Hin.
      rewrite En in Hin. contradiction.
    + exists n. destruct (Hget n (or_introl eq_refl)) as (Hg & Hnil & Hin).
      repeat split; auto. right. repeat split; auto.
      * intros m. destruct (in_dec Z.eq_dec m (n :: nos')) as [Hm|Hm].
        -- pose proof (find_none _ _ Ef m Hm) as Pm. rewrite HP in Pm.
           now apply Nat.leb_gt in Pm.
        -- rewrite (Hout m Hm). simpl. lia.
      * intros r Hr.
        assert (Hk : In (kf r) (n :: nos')).
        { rewrite <- En. apply Array_sort_In.
          apply (group_keys_In Z.eqb Z.eqb_spec). now apply in_map. }
        destruct Hk as [E|Hk]; [unfold kf in E; lia|].
        inversion Hsorted as [|? ? _ Hall]; subst.
        rewrite Forall_forall in Hall. specialize (Hall _ Hk). unfold kf in *. lia.
Qed.

(** What the resolver returns, with group sizes counted in results. *)
Lemma pickConsensusLatest_general (rs : list SourceResult) :
  rs <> [] ->
  exists c r0 l1 l2,
    pickConsensusLatest rs = Some c /\
    forNo (latestNo c) rs <> [] /\
    (((2 <= List.length (forNo (latestNo c) rs))%nat /\
      forall m, latestNo c < m -> (List.length (forNo m rs) < 2)%nat) \/
     ((forall m, (List.length (forNo m rs) < 2)%nat) /\
      In (latestNo c) (map (fun r => drwNo (draw r)) rs) /\
      forall r, In r rs -> drwNo (draw r) <= latestNo c)) /\
    forNo (latestNo c) rs = l1 ++ r0 :: l2 /\
    consensusDraw c = draw r0 /\
    Forall (fun r =>
      (List.length (withSig (drawSig (draw r)) (forNo (latestNo c) rs))
       < List.length (withSig (drawSig (draw r0)) (forNo (latestNo c) rs)))%nat) l1 /\
    Forall (fun r =>
      (List.length (withSig (drawSig (draw r)) (forNo (latestNo c) rs))
       <= List.length (withSig (drawSig (draw r0)) (forNo (latestNo c) rs)))%nat) l2 /\
    consensusCount c = List.length (withSig (drawSig (draw r0)) (forNo (latestNo c) rs)) /\
    agreed c = (2 <=? consensusCount c)%nat.
Proof.
  intros Hne. unfold pickConsensusLatest. cbv zeta.
  destruct (target_choice rs Hne) as (n & -> & -> & Hnil & Htarget).
  change (groupBySig (forNo n rs))
    with (groupBy String.eqb (fun r => drawSig (draw r)) (forNo n rs)).
  destruct (group_best String.eqb String.eqb_spec (fun r => drawSig (draw r))
              (forNo n rs) Hnil)
    as (s0 & r0 & rest & tl & l1 & l2 & -> & Hc & Hs & Harr & H1 & H2).
  change (membersOf String.eqb (fun r => drawSig (draw r)) ?s ?l) with (withSig s l) in *.
  eexists. exists r0, l1, l2. split; [reflexivity|]. cbn [latestNo consensusDraw
    consensusCount agreed]. cbv beta in Hs. subst s0.
  repeat split; auto. now rewrite Harr.
Qed.

Lemma forNo_draws (n : Z) (rs : list SourceResult) :
  map draw (forNo n rs) = filter (fun d => drwNo d =? n) (map draw rs).
Proof.
  unfold forNo. induction rs as [|r rs IH]; simpl; [reflexivity|].
  destruct (drwNo (draw r) =? n); simpl; now rewrite IH.
Qed.

Lemma withSig_draws (s : string) (rs : list SourceResult) :
  List.length (withSig s rs) =
  List.length (filter (fun d => String.eqb (drawSig d) s) (map draw rs)).
Proof.
  unfold withSig. induction rs as [|r rs IH]; simpl; [reflexivity|].
  destruct (String.eqb (drawSig (draw r)) s); simpl; now rewrite IH.
Qed.

Lemma sig_eqb (a b : DrawRecord) :
  String.eqb (drawSig a) (drawSig b) = if DrawRecord_eq_dec a b then true else false.
Proof.
  destruct (DrawRecord_eq_dec a b) as [->|Hne].
  - apply String.eqb_refl.
  - apply String.eqb_neq. intros E. now apply drawSig_inj in E.
Qed.

(** Among pairwise different records every signature has one supporter. *)
Lemma withSig_single (cands : list SourceResult) (r : SourceResult) :
  NoDup (map draw cands) -> In r cands ->
  List.length (withSig (drawSig (draw r)) cands) = 1%nat.
Proof.
  unfold withSig. induction cands as [|x cands IH]; simpl; intros Hnd Hin; [contradiction|].
  inversion Hnd as [|? ? Hnin Hnd']; subst.
  rewrite sig_eqb. destruct (DrawRecord_eq_dec (draw x) (draw r)) as [E|Hne].
  - simpl. f_equal.
    assert (Hnone : forall l, ~ In (draw r) (map draw l) ->
              filter (fun r1 => String.eqb (drawSig (draw r1)) (drawSig (draw r))) l = []).
    { induction l as [|y l IHl]; simpl; intros Hn; [reflexivity|].
      rewrite sig_eqb. destruct (DrawRecord_eq_dec (draw y) (draw r)) as [Ey|_].
      - exfalso. apply Hn. now left.
      - apply IHl. tauto. }
    rewrite Hnone; [reflexivity | now rewrite <- E].
  - destruct Hin as [->|Hin]; [congruence | now apply IH].
Qed.

Lemma filter_NoDup_map (f : SourceResult -> bool) (rs : list SourceResult) :
  NoDup (map draw rs) -> NoDup (map draw (filter f rs)).
Proof.
  induction rs as [|r rs IH]; simpl; intros Hnd; [constructor|].
  inversion Hnd as [|? ? Hnin Hnd']; subst.
  destruct (f r); simpl; [|now apply IH].
  constructor; [|now apply IH].
  intros Hin. apply Hnin. apply in_map_iff in Hin. destruct Hin as (x & Ex & Hx).
  apply filter_In in Hx. apply in_map_iff. exists x. tauto.
Qed.

Lemma withSig_count_occ (d : DrawRecord) (rs : list SourceResult) :
  List.length (withSig (drawSig d) rs) = count_occ DrawRecord_eq_dec (map draw rs) d.
Proof.
  unfold withSig. induction rs as [|r rs IH]; simpl; [reflexivity|].
  rewrite sig_eqb. destruct (DrawRecord_eq_dec (draw r) d); simpl; now rewrite IH.
Qed.

Lemma forNo_length (n : Z) (rs : list SourceResult) :
  List.length (forNo n rs) =
  List.length (filter (fun d => drwNo d =? n) (map draw rs)).
Proof. now rewrite <- forNo_draws, length_map. Qed.

(** C2 (as stated, refuted): three pairwise different records, one per
    source, of draw numbers 100, 101 and 102 yield the record of draw 102,
    the last one seen, not the first. *)
Lemma pickConsensusLatest_not_first_seen :
  let d100 := mkDraw 100 "2004-10-30" (map Fin [1; 7; 11; 23; 37; 42]) (Fin 6) in
  let d101 := mkDraw 101 "2004-11-06" (map Fin [1; 3; 17; 32; 35; 45]) (Fin 8) in
  let d102 := mkDraw 102 "2004-11-13" (map Fin [17; 22; 24; 26; 35; 40]) (Fin 42) in
  let rs := [mkResult "smok95-pages" "" d100; mkResult "smok95-raw" "" d101;
             mkResult "smok95-jsdelivr" "" d102] in
  exists c,
    pickConsensusLatest rs = Some c /\
    agreed c = false /\
    consensusDraw c = d102 /\
    option_map draw (hd_error rs) = Some d100 /\
    consensusDraw c <> d100.
Proof.
  intros d100 d101 d102 rs. eexists. split; [vm_compute; reflexivity|].
  repeat split. discriminate.
Qed.

(** C2 (amended): for a non-empty list of results, one per source, the
    resolver picks the highest draw number with at least 2 sources behind it,
    or else the highest draw number seen; among the results of that draw
    number it picks the earliest one whose signature has the most sources
    behind it, reports that number of sources, and sets [agreed] exactly when
    it is at least 2.  So three identical records give that record with count
    3 and agreement; two identical records and a different one give the
    majority record with count 2 and agreement, wherever the odd one stands;
    pairwise different records give count 1, no agreement, and the first
    result of the chosen draw number, which is the first-seen result when
    all results carry one draw number. *)
Theorem pickConsensusLatest_correct (rs : list SourceResult) :
  rs <> [] -> NoDup (map sourceId rs) ->
  exists c r0,
    pickConsensusLatest rs = Some c /\
    target_of rs (latestNo c) /\
    best_of (forNo (latestNo c) rs) r0 /\
    consensusDraw c = draw r0 /\
    consensusCount c = support (withSig (drawSig (draw r0)) (forNo (latestNo c) rs)) /\
    agreed c = (2 <=? consensusCount c)%nat /\
    (forall d, map draw rs = [d; d; d] ->
       consensusDraw c = d /\ consensusCount c = 3%nat /\ agreed c = true) /\
    (forall a b, a <> b ->
       map draw rs = [a; a; b] \/ map draw rs = [a; b; a] \/ map draw rs = [b; a; a] ->
       consensusDraw c = a /\ consensusCount c = 2%nat /\ agreed c = true) /\
    (NoDup (map draw rs) ->
       consensusCount c = 1%nat /\ agreed c = false /\
       hd_error (forNo (latestNo c) rs) = Some r0 /\
       ((forall r r', In r rs -> In r' rs -> drwNo (draw r) = drwNo (draw r')) ->
        hd_error rs = Some r0)).
Proof.
  intros Hne Hsrc.
  destruct (pickConsensusLatest_general rs Hne)
    as (c & r0 & l1 & l2 & Hc & Hnil & Htarget & Hcands & Hdraw & H1 & H2 & Hcount & Hagreed).
  set (n := latestNo c) in *.
  set (cands := forNo n rs) in *.
  (* everything about the candidates, at the level of records *)
  assert (Hmult : forall d, List.length (withSig (drawSig d) cands)
                            = count_occ DrawRecord_eq_dec (map draw cands) d)
    by (intros d; apply withSig_count_occ).
  assert (HD : map draw cands = filter (fun d => drwNo d =? n) (map draw rs))
    by apply forNo_draws.
  assert (Hin0 : In (draw r0) (map draw cands)).
  { apply in_map. rewrite Hcands. apply in_elt. }
  assert (Hmax : forall d, In d (map draw cands) ->
            (count_occ DrawRecord_eq_dec (map draw cands) d
             <= count_occ DrawRecord_eq_dec (map draw cands) (draw r0))%nat).
  { intros d Hd. apply in_map_iff in Hd. destruct Hd as (r & <- & Hr).
    rewrite <- !Hmult. rewrite Hcands in Hr. apply in_app_or in Hr.
    rewrite Forall_forall in H1, H2.
    destruct Hr as [Hr|[<-|Hr]]; [specialize (H1 _ Hr) | | specialize (H2 _ Hr)]; lia. }
  assert (Hnil' : map draw cands <> []).
  { intros E. apply map_eq_nil in E. contradiction. }
  assert (Htwo : forall m,
            (2 <= List.length (filter (fun d => (drwNo d =? m)%Z) (map draw rs)))%nat ->
            (2 <= List.length (map draw cands))%nat).
  { intros m Hm. rewrite <- forNo_length in Hm. rewrite length_map.
    destruct Htarget as [[Ht _]|[Ht _]]; [exact Ht | specialize (Ht m); lia]. }
  assert (Hcount' : consensusCount c
                    = count_occ DrawRecord_eq_dec (map draw cands) (draw r0)).
  { rewrite Hcount. apply Hmult. }
  exists c, r0. split; [exact Hc|]. split; [|split; [|split; [|split; [|split]]]].
  - (* target *)
    unfold target_of. fold n. unfold forNo.
    destruct Htarget as [[Ha Hb]|[Ha [Hb Hd]]]; [left | right]; repeat split; auto.
    + now rewrite support_length.
    + intros m Hm. rewrite support_length by assumption. now apply Hb.
    + intros m. rewrite support_length by assumption. apply Ha.
  - (* best *)
    exists l1, l2. split; [exact Hcands|]. unfold cands, forNo, withSig.
    split; (eapply Forall_impl; [|eassumption]); intros r Hr;
      rewrite !support_length2 by assumption; exact Hr.
  - exact Hdraw.
  - unfold cands, forNo, withSig. rewrite support_length2 by assumption. exact Hcount.
  - exact Hagreed.
  - rewrite Hagreed, Hcount', Hdraw. split; [|split].
    + (* three identical records *)
      intros d Hd. rewrite Hd in HD. simpl in HD.
      destruct (drwNo d =? n); [|congruence].
      rewrite HD in Hin0 |- *. simpl in Hin0.
      assert (E : d = draw r0) by tauto. rewrite <- E. simpl.
      destruct (DrawRecord_eq_dec d d); [auto | congruence].
    + (* two identical records and a different one *)
      intros a b Hab Hshape.
      assert (Ha : (2 <= List.length (filter (fun d => (drwNo d =? drwNo a)%Z)
                                        (map draw rs)))%nat).
      { destruct Hshape as [E|[E|E]]; rewrite E; simpl; rewrite ?Z.eqb_refl;
          destruct (drwNo b =? drwNo a); simpl; lia. }
      apply Htwo in Ha.
      assert (Hcnt : In a (map draw cands) /\
                count_occ DrawRecord_eq_dec (map draw cands) a = 2%nat /\
                forall x, In x (map draw cands) -> a = x \/
                  (b = x /\ count_occ DrawRecord_eq_dec (map draw cands) b = 1%nat)).
      { destruct Hshape as [E|[E|E]]; rewrite E in HD; simpl in HD;
          destruct (drwNo a =? n), (drwNo b =? n); rewrite HD in Ha |- *;
            simpl in Ha |- *; try lia;
            destruct (DrawRecord_eq_dec a a); try congruence;
            destruct (DrawRecord_eq_dec b a); try congruence;
            destruct (DrawRecord_eq_dec a b); try congruence;
            destruct (DrawRecord_eq_dec b b); try congruence;
            (split; [tauto|]; split; [reflexivity|]; intros x Hx; intuition). }
      destruct Hcnt as (Hina & Hca & Hall).
      destruct (Hall _ Hin0) as [E|[E Hcb]].
      * rewrite <- E, Hca. auto.
      * exfalso. specialize (Hmax a Hina). rewrite <- E, Hca, Hcb in Hmax. lia.
    + (* pairwise different records *)
      intros Hnd.
      assert (HndD : NoDup (map draw cands)) by (apply filter_NoDup_map; exact Hnd).
      pose proof (proj1 (NoDup_count_occ' DrawRecord_eq_dec (map draw cands)) HndD) as Hone.
      rewrite (Hone _ Hin0). split; [reflexivity|]. split; [reflexivity|].
      assert (El1 : l1 = []).
      { destruct l1 as [|x l1]; [reflexivity|]. exfalso.
        inversion H1 as [|? ? Hx _]. rewrite !Hmult in Hx.
        rewrite (Hone _ Hin0), (Hone (draw x)) in Hx; [lia|].
        apply in_map. rewrite Hcands. now left. }
      rewrite El1 in Hcands. simpl in Hcands.
      split; [change (hd_error cands = Some r0); now rewrite Hcands|].
      intros Hsame.
      assert (Hr0 : In r0 rs /\ drwNo (draw r0) = n).
      { assert (H0 : In r0 cands) by (rewrite Hcands; now left).
        apply filter_In in H0. destruct H0 as [H0 E0]. apply Z.eqb_eq in E0. auto. }
      assert (Hall : cands = rs).
      { unfold cands, forNo. clear -Hsame Hr0. destruct Hr0 as [Hr0 E0].
        assert (Hf : forall r, In r rs -> (drwNo (draw r) =? n) = true).
        { intros r Hr. apply Z.eqb_eq. rewrite <- E0. now apply Hsame. }
        clear Hsame Hr0 E0. induction rs as [|r rs IH]; simpl; [reflexivity|].
        rewrite (Hf r (or_introl eq_refl)). f_equal. apply IH.
        intros x Hx. apply Hf. now right. }
      rewrite <- Hall, Hcands. reflexivity.
Qed.

Lemma pickConsensusLatest_correct_witness :
  let a := mkDraw 1100 "2023-12-30" (map Fin [17; 26; 29; 30; 31; 43]) (Fin 12) in
  let b := mkDraw 1100 "2023-12-30" (map Fin [17; 26; 29; 30; 31; 43]) (Fin 21) in
  let rs := [mkResult "smok95-pages" "" b; mkResult "smok95-raw" "" a;
             mkResult "smok95-jsdelivr" "" a] in
  rs <> [] /\ NoDup (map sourceId rs) /\
  exists c,
    pickConsensusLatest rs = Some c /\
    consensusDraw c = a /\ consensusCount c = 2%nat /\ agreed c = true.
Proof.
  intros a b rs.
  assert (H1 : rs <> []) by discriminate.
  assert (H2 : NoDup (map sourceId rs)).
  { simpl. repeat constructor; simpl; intros H;
      repeat (destruct H as [H|H]; [discriminate H|]); exact H. }
  split; [exact H1|]. split; [exact H2|].
  destruct (pickConsensusLatest_correct rs H1 H2)
    as (c & r0 & Hc & _ & _ & _ & _ & _ & _ & Htwo & _).
  exists c. split; [exact Hc|].
  apply (Htwo a b); [discriminate | right; right; reflexivity].
Defined.

(** ** The synchronization controller *)

Lemma hasNo_sort (k : Z) (l : list DrawRecord) :
  hasNo k (Array_sort byDrwNo l) <-> hasNo k l.
Proof.
  unfold hasNo. split; apply Permutation_in, Permutation_map;
    [apply Array_sort_perm | apply Permutation_sym, Array_sort_perm].
Qed.

Lemma hasNo_merge_keeps (k : Z) (L X : list DrawRecord) :
  hasNo k L -> hasNo k (mergeByNo L X).
Proof. intros H. apply mergeByNo_hasNo. now left. Qed.

Lemma hasNo_merge_adds (d : DrawRecord) (L : list DrawRecord) :
  hasNo (drwNo d) (mergeByNo L [d]).
Proof. apply mergeByNo_hasNo. right. now left. Qed.

Lemma sorted_last_max {A : Type} (key : A -> Z) (l : list A) (x : A) (pre : list A) :
  StronglySorted (fun a b => key a <= key b) l -> rev l = x :: pre ->
  forall y, In y l -> key y <= key x.
Proof.
  intros Hs Hrev y Hy.
  assert (El : l = rev pre ++ [x]).
  { rewrite <- (rev_involutive l), Hrev. reflexivity. }
  rewrite El in Hs, Hy. clear El Hrev.
  induction (rev pre) as [|a q IH]; simpl in *.
  - destruct Hy as [->|[]]. lia.
  - inversion Hs as [|? ? Hs' Ha]; subst.
    destruct Hy as [->|Hy]; [|now apply IH].
    rewrite Forall_forall in Ha. apply Ha. apply in_or_app. right. now left.
Qed.

Lemma lastNoOf_ge (l : list DrawRecord) (d : DrawRecord) :
  In d l -> drwNo d <= lastNoOf l.
Proof.
  assert (H : forall zs a, a <= fold_left Z.max zs a /\
                           forall z, In z zs -> z <= fold_left Z.max zs a).
  { induction zs as [|b zs IH]; simpl; intros a; [split; [lia | contradiction]|].
    destruct (IH (Z.max a b)) as [H1 H2]. split; [lia|].
    intros z [->|Hz]; [lia | now apply H2]. }
  destruct l as [|x l]; simpl; [contradiction|].
  destruct (H (map drwNo l) (drwNo x)) as [H1 H2].
  intros [->|Hin]; [exact H1 | apply H2; now apply in_map].
Qed.

Lemma degrade_not_trailing (reason : string) (h : Health) :
  reason <> "local_last_is_behind_latest" -> not_trailing h ->
  not_trailing (degrade reason h).
Proof.
  unfold not_trailing. simpl. intros Hr Hh Hin. apply in_app_or in Hin.
  destruct Hin as [Hin|[E|[]]]; [now apply Hh | now apply Hr].
Qed.

Lemma interleave_perm {A : Type} (x : A) (l p : list A) :
  In p (interleave x l) -> Permutation p (x :: l).
Proof.
  revert p. induction l as [|y l IH]; simpl; intros p Hp.
  - destruct Hp as [<-|[]]. apply Permutation_refl.
  - destruct Hp as [<-|Hp]; [apply Permutation_refl|].
    apply in_map_iff in Hp. destruct Hp as (q & <- & Hq).
    eapply perm_trans; [apply perm_skip, IH, Hq | apply perm_swap].
Qed.

Lemma orders_perm {A : Type} (l p : list A) : In p (orders l) -> Permutation p l.
Proof.
  revert p. induction l as [|x l IH]; simpl; intros p Hp.
  - destruct Hp as [<-|[]]. apply perm_nil.
  - apply in_flat_map in Hp. destruct Hp as (q & Hq & Hp).
    eapply perm_trans; [apply interleave_perm, Hp | apply perm_skip, IH, Hq].
Qed.

Lemma pick_order_perm {A : Type} (k : nat) (l : list A) : Permutation (pick_order k l) l.
Proof.
  unfold pick_order. destruct (nth_in_or_default k (orders l) l) as [Hin| ->].
  - now apply orders_perm.
  - apply Permutation_refl.
Qed.

Section ControllerFacts.
Variable StringToNumber : string -> num.
Variable World : Type.
Variable respond : Req -> World -> option value * World.
Variable settle : World -> nat * World.

Lemma carries_refl (draws : list DrawRecord) (h : Health) : carries draws h draws h.
Proof. repeat split; auto. Qed.

Lemma carries_trans (d1 d2 d3 : list DrawRecord) (h1 h2 h3 : Health) :
  carries d1 h1 d2 h2 -> carries d2 h2 d3 h3 -> carries d1 h1 d3 h3.
Proof.
  intros (A1 & A2 & A3 & A4) (B1 & B2 & B3 & B4).
  repeat split; auto; congruence.
Qed.

Lemma fillLoop_carries (ns : list Z) (draws : list DrawRecord) (h : Health) (st : St World) :
  carries draws h
    (fst (fst (fillLoop StringToNumber World respond ns draws h st)))
    (snd (fst (fillLoop StringToNumber World respond ns draws h st))).
Proof.
  revert draws h st. induction ns as [|n ns IH]; intros draws h st; simpl.
  - apply carries_refl.
  - unfold bind.
    destruct (fetchDrawWithFallback StringToNumber World respond n st) as [[g|] st1].
    + eapply carries_trans; [|apply IH].
      repeat split; auto. intros k. apply hasNo_merge_keeps.
    + simpl. repeat split; auto.
      intros Hh. apply degrade_not_trailing; [discriminate | exact Hh].
Qed.

Lemma validateOne_carries (n : Z) (draws : list DrawRecord) (h : Health) (st : St World) :
  exists draws' h',
    fst (validateOne StringToNumber World respond settle n draws h st)
    = Some (draws', h') /\
    carries draws h draws' h'.
Proof.
  unfold validateOne, bind, ret.
  destruct (allSettled World settle (fun src => tryDrawFromSource StringToNumber World respond src n) st)
    as [settled st1].
  simpl. set (h1 := set_validatedTail _ h).
  assert (C1 : carries draws h draws h1) by (repeat split; auto).
  destruct (Nat.ltb_spec (List.length (successes settled)) 2) as [Hlt|Hge].
  - exists draws, h1. split; [reflexivity | exact C1].
  - assert (Hne : successes settled <> []).
    { intros E. rewrite E in Hge. simpl in Hge. lia. }
    change (groupBySig (successes settled))
      with (groupBy String.eqb (fun r => drawSig (draw r)) (successes settled)).
    destruct (group_best String.eqb String.eqb_spec (fun r => drawSig (draw r))
                (successes settled) Hne)
      as (s0 & r0 & rest & tl & l1 & l2 & -> & _).
    match goal with |- context [if ?b then _ else _] => destruct b end.
    + eexists _, _. split; [reflexivity|].
      eapply carries_trans; [exact C1|]. repeat split; auto.
      intros Hh. apply degrade_not_trailing; [discriminate | exact Hh].
    + match goal with |- context [if ?b then _ else _] => destruct b end.
      * eexists _, _. split; [reflexivity|].
        eapply carries_trans; [exact C1|]. repeat split; auto.
        -- intros k. apply hasNo_merge_keeps.
        -- intros Hh. apply degrade_not_trailing; [discriminate | exact Hh].
      * exists draws, h1. split; [reflexivity | exact C1].
Qed.

Lemma validateLoop_carries (ns : list Z) (draws : list DrawRecord) (h : Health) (st : St World) :
  exists draws' h',
    fst (validateLoop StringToNumber World respond settle ns draws h st)
    = Some (draws', h') /\
    carries draws h draws' h'.
Proof.
  revert draws h st. induction ns as [|n ns IH]; intros draws h st; simpl.
  - exists draws, h. split; [reflexivity | apply carries_refl].
  - unfold bind.
    destruct (validateOne_carries n draws h st) as (d1 & h1 & E1 & C1).
    destruct (validateOne StringToNumber World respond settle n draws h st) as [r st1].
    simpl in E1. subst r.
    destruct (IH d1 h1 st1) as (d2 & h2 & E2 & C2).
    exists d2, h2. split; [exact E2 | eapply carries_trans; eassumption].
Qed.

(** Step 5 on a ledger that holds the target. *)
Lemma finalize_reaches (draws : list DrawRecord) (latestNo : Z) (h : Health) :
  hasNo latestNo draws ->
  exists last,
    finalize draws latestNo h =
    writeOut (Array_sort byDrwNo draws) last h /\
    In last draws /\ latestNo <= drwNo last /\
    forall d, In d draws -> drwNo d <= drwNo last.
Proof.
  intros Hhas. unfold finalize.
  destruct (rev (Array_sort byDrwNo draws)) as [|last pre] eqn:Er.
  - exfalso. unfold hasNo in Hhas. apply in_map_iff in Hhas.
    destruct Hhas as (d & _ & Hd). apply (Array_sort_In byDrwNo) in Hd.
    apply in_rev in Hd. rewrite Er in Hd. contradiction.
  - assert (Hmax : forall d, In d draws -> drwNo d <= drwNo last).
    { intros d Hd.
      apply (sorted_last_max drwNo (Array_sort byDrwNo draws) last pre).
      - apply Array_sort_sorted. exact byDrwNo_key.
      - exact Er.
      - now apply Array_sort_In. }
    assert (Hle : latestNo <= drwNo last).
    { unfold hasNo in Hhas. apply in_map_iff in Hhas.
      destruct Hhas as (d & <- & Hd). now apply Hmax. }
    exists last. destruct (Z.ltb_spec (drwNo last) latestNo); [lia|].
    repeat split; auto.
    apply (Array_sort_In byDrwNo). apply in_rev. rewrite Er. now left.
Qed.

(** Step 2 either takes the bulk payload, or starts from nothing, or
    builds on the loaded ledger. *)
Lemma chooseStrategy_modes (existing : list DrawRecord) (existingLastNo : Z)
    (c : Consensus) (h : Health) (st : St World) :
  let r := chooseStrategy StringToNumber World respond existing existingLastNo c h st in
  (not_trailing h -> not_trailing (snd (fst r))) /\
  latestConsensus (snd (fst r)) = latestConsensus h /\
  (built_on_local (snd (fst r)) ->
   forall k, hasNo k existing -> hasNo k (fst (fst r))).
Proof.
  unfold chooseStrategy, bind, ret.
  assert (Hfail : forall h0, latestConsensus h0 = latestConsensus h ->
            (not_trailing h -> not_trailing h0) ->
            let r := bootstrapFailed existing existingLastNo h0 in
            (not_trailing h -> not_trailing (snd r)) /\
            latestConsensus (snd r) = latestConsensus h /\
            (built_on_local (snd r) ->
             forall k, hasNo k existing -> hasNo k (fst r))).
  { intros h0 E0 T0. unfold bootstrapFailed.
    destruct (0 <? existingLastNo); simpl; repeat split; auto.
    - intros Hh. apply degrade_not_trailing; [discriminate | auto].
    - intros Hh. apply degrade_not_trailing; [discriminate | auto].
    - intros [_ Hm]. simpl in Hm. congruence. }
  destruct ((existingLastNo =? 0) || (BOOTSTRAP_GAP_THRESHOLD <? latestNo c - existingLastNo)).
  - destruct (fetchAllWithFallback StringToNumber World respond st) as [[[sid draws]|] st1];
      simpl.
    + destruct (rev draws) as [|last pre].
      * apply Hfail; auto.
      * destruct (negb (drwNo last =? latestNo c)); simpl.
        -- repeat split; auto.
           ++ intros Hh. apply degrade_not_trailing; [discriminate | auto].
           ++ intros [Hm _]. simpl in Hm. congruence.
        -- destruct (negb (String.eqb (drawSig last) (drawSig (consensusDraw c)))); simpl.
           ++ repeat split; auto.
              ** intros Hh. apply degrade_not_trailing; [discriminate | auto].
              ** intros [Hm _]. simpl in Hm. congruence.
           ++ repeat split; auto. intros [Hm _]. simpl in Hm. congruence.
    + apply Hfail; auto.
  - simpl. repeat split; auto. intros _ k. apply hasNo_sort.
Qed.

Lemma incrementalFill_carries (cur latestNo : Z) (draws : list DrawRecord) (h : Health)
    (st : St World) :
  carries draws h
    (fst (fst (incrementalFill StringToNumber World respond cur latestNo draws h st)))
    (snd (fst (incrementalFill StringToNumber World respond cur latestNo draws h st))).
Proof.
  unfold incrementalFill. destruct (cur <? latestNo).
  - apply fillLoop_carries.
  - apply carries_refl.
Qed.
(** The consensus record carries the target draw number. *)
Lemma consensusDraw_drwNo (rs : list SourceResult) (c : Consensus) :
  pickConsensusLatest rs = Some c -> drwNo (consensusDraw c) = latestNo c.
Proof.
  intros Hc. destruct rs as [|r rs]; [discriminate|].
  destruct (pickConsensusLatest_general (r :: rs))
    as (c' & r0 & l1 & l2 & Hc' & _ & _ & Hcands & Hdraw & _); [discriminate|].
  rewrite Hc in Hc'. injection Hc' as <-.
  assert (Hin : In r0 (forNo (latestNo c) (r :: rs))).
  { rewrite Hcands. apply in_elt. }
  apply filter_In in Hin. destruct Hin as [_ E]. apply Z.eqb_eq in E.
  now rewrite Hdraw.
Qed.

(** A run that got at least one latest result. *)
Lemma main_with_latest (existing : list DrawRecord) (st st1 : St World)
    (results : list SourceResult) (errors : list string) :
  fetchLatestAllSources StringToNumber World respond settle st = (results, errors, st1) ->
  results <> [] ->
  exists c file p,
    fst (main StringToNumber World respond settle existing st) = Written file p /\
    pickConsensusLatest results = Some c /\
    latestConsensus (health p) = Some c /\
    hasNo (latestNo c) file /\
    latestNo c <= drwNo (lastDraw p) /\
    latestNo c <= lastNoOf file /\
    not_trailing (health p) /\
    (built_on_local (health p) -> forall k, hasNo k existing -> hasNo k file).
Proof.
  intros Elatest Hne. unfold main, bind. rewrite Elatest.
  destruct results as [|r rs]; [congruence|].
  destruct (pickConsensusLatest_general (r :: rs) Hne) as (c & _ & _ & _ & Hc & _).
  rewrite Hc. pose proof (consensusDraw_drwNo _ _ Hc) as Hno.
  set (h0 := if agreed c
             then set_latestConsensus c (set_latestFetchErrors errors health0)
             else degrade "latest_consensus_not_2of3"
                    (set_latestConsensus c (set_latestFetchErrors errors health0))).
  assert (T0 : not_trailing h0).
  { unfold h0. destruct (agreed c).
    - unfold not_trailing. simpl. tauto.
    - apply degrade_not_trailing; [discriminate|]. unfold not_trailing. simpl. tauto. }
  assert (L0 : latestConsensus h0 = Some c) by (unfold h0; destruct (agreed c); reflexivity).
  pose proof (chooseStrategy_modes existing (lastNoOf existing) c h0 st1) as P1.
  destruct (chooseStrategy StringToNumber World respond existing (lastNoOf existing) c h0 st1)
    as [[d1 h1] st2].
  simpl in P1. destruct P1 as (T1 & L1 & K1).
  pose proof (incrementalFill_carries (lastNoOf d1) (latestNo c) d1 h1 st2) as P2.
  destruct (incrementalFill StringToNumber World respond (lastNoOf d1) (latestNo c) d1 h1 st2)
    as [[d2 h2] st3].
  simpl in P2. destruct P2 as (K2 & T2 & M2 & L2).
  set (d3 := mergeByNo d2 [consensusDraw c]).
  destruct (validateLoop_carries
              (Z_range (Z.max 1 (lastNoOf d3 - VALIDATE_LAST_K + 1)) (lastNoOf d3))
              d3 h2 st3) as (d4 & h4 & E4 & (K4 & T4 & M4 & L4)).
  destruct (validateLoop StringToNumber World respond settle
              (Z_range (Z.max 1 (lastNoOf d3 - VALIDATE_LAST_K + 1)) (lastNoOf d3))
              d3 h2 st3) as [r4 st4].
  simpl in E4. subst r4. simpl.
  assert (H3 : hasNo (latestNo c) d3).
  { unfold d3. rewrite <- Hno. apply hasNo_merge_adds. }
  destruct (finalize_reaches d4 (latestNo c) h4 (K4 _ H3)) as (last & -> & Hlast & Hle & _).
  unfold writeOut.
  exists c. eexists _, _. split; [reflexivity|]. simpl.
  assert (Hfile : hasNo (latestNo c) (Array_sort byDrwNo d4)).
  { apply hasNo_sort. auto. }
  repeat split; auto.
  - congruence.
  - unfold hasNo in Hfile. apply in_map_iff in Hfile.
    destruct Hfile as (d & <- & Hd). now apply lastNoOf_ge.
  - intros [B1 B2] k Hk. apply hasNo_sort. apply K4. unfold d3.
    apply hasNo_merge_keeps. apply K2. apply K1; [|exact Hk].
    split; congruence.
Qed.

(** A run that got no latest result. *)
Lemma main_without_latest (existing : list DrawRecord) (st st1 : St World)
    (errors : list string) :
  fetchLatestAllSources StringToNumber World respond settle st = ([], errors, st1) ->
  match existing with
  | [] => exists msg, fst (main StringToNumber World respond settle existing st) = Thrown msg
  | _ :: _ =>
      exists p,
        fst (main StringToNumber World respond settle existing st)
        = Written (Array_sort byDrwNo existing) p /\
        mode (used (health p)) = Some "local-only" /\
        status (health p) = degraded /\
        reasons (health p) = ["latest_unavailable_all_sources_using_local_cache"]
  end.
Proof.
  intros Elatest. unfold main, bind. rewrite Elatest. simpl.
  destruct existing as [|d ds]; [now eexists|].
  unfold localOnly.
  destruct (rev (Array_sort byDrwNo (d :: ds))) as [|last pre] eqn:Er.
  - exfalso. apply (f_equal (@List.length _)) in Er.
    rewrite length_rev, Array_sort_length in Er. discriminate.
  - unfold writeOut. eexists. split; [reflexivity|]. simpl. auto.
Qed.
(** *** The incremental fill, fetch by fetch *)

Lemma tryDrawFromSource_log (src : Source) (n : Z) (st : St World) :
  exists resp,
    log (snd (tryDrawFromSource StringToNumber World respond src n st))
    = log st ++ [(ReqDraw (src_id src) n, resp)] /\
    fst (tryDrawFromSource StringToNumber World respond src n st)
    = option_map (mkResult (src_id src) (src_draw src n))
        (attempt_result StringToNumber resp).
Proof.
  unfold tryDrawFromSource, bind, ret, fetchJsonGuarded.
  destruct (respond (ReqDraw (src_id src) n) (world st)) as [resp w'].
  exists resp. simpl. split; [reflexivity|].
  destruct resp as [v|]; simpl; [|reflexivity].
  destruct (normalizeDraw StringToNumber v) as [[d|]|]; reflexivity.
Qed.

Lemma firstSuccess_trace (n : Z) (srcs : list Source) (st : St World) :
  exists es,
    log (snd (firstSuccess World (fun src => tryDrawFromSource StringToNumber World respond src n)
                srcs st)) = log st ++ es /\
    FallbackTrace StringToNumber n srcs es
      (fst (firstSuccess World (fun src => tryDrawFromSource StringToNumber World respond src n)
              srcs st)).
Proof.
  revert st. induction srcs as [|src rest IH]; intros st; simpl.
  - exists []. rewrite app_nil_r. split; [reflexivity | constructor].
  - unfold bind.
    destruct (tryDrawFromSource_log src n st) as (resp & Hlog & Hres).
    destruct (tryDrawFromSource StringToNumber World respond src n st) as [r st1].
    simpl in Hlog, Hres. subst r.
    destruct (attempt_result StringToNumber resp) as [d|] eqn:Ea; simpl.
    + exists [(ReqDraw (src_id src) n, resp)]. split; [exact Hlog|].
      now constructor.
    + destruct (IH st1) as (es & Hlog' & Htr).
      exists ((ReqDraw (src_id src) n, resp) :: es). split.
      * rewrite Hlog', Hlog, <- app_assoc. reflexivity.
      * now constructor.
Qed.

Lemma fillLoop_trace (ns : list Z) (draws : list DrawRecord) (h : Health) (st : St World) :
  exists es,
    log (snd (fillLoop StringToNumber World respond ns draws h st)) = log st ++ es /\
    FillTrace StringToNumber ns draws h es
      (fst (fst (fillLoop StringToNumber World respond ns draws h st)))
      (snd (fst (fillLoop StringToNumber World respond ns draws h st))).
Proof.
  revert draws h st. induction ns as [|n ns IH]; intros draws h st; simpl.
  - exists []. rewrite app_nil_r. split; [reflexivity | constructor].
  - unfold bind, fetchDrawWithFallback.
    destruct (firstSuccess_trace n SOURCES st) as (es & Hlog & Htr).
    destruct (firstSuccess World _ SOURCES st) as [[g|] st1]; simpl in Hlog, Htr.
    + destruct (IH (mergeByNo draws [draw g]) h st1) as (es' & Hlog' & Htr').
      exists (es ++ es'). split.
      * rewrite Hlog', Hlog, <- app_assoc. reflexivity.
      * econstructor; eassumption.
    + exists es. split; [exact Hlog | now constructor].
Qed.
Lemma FallbackTrace_requests (n : Z) (srcs : list Source)
    (es : list (Req * option value)) (r : option SourceResult) :
  FallbackTrace StringToNumber n srcs es r ->
  forall e, In e es -> exists src, In src srcs /\ fst e = ReqDraw (src_id src) n.
Proof.
  induction 1 as [|src rest resp d Hd|src rest resp es r Hd Htr IH]; intros e He.
  - contradiction.
  - destruct He as [<-|[]]. exists src. split; [now left | reflexivity].
  - destruct He as [<-|He].
    + exists src. split; [now left | reflexivity].
    + destruct (IH e He) as (src' & Hin & E). exists src'. split; [now right | exact E].
Qed.

Lemma FallbackTrace_success (n : Z) (srcs : list Source)
    (es : list (Req * option value)) (g : SourceResult) :
  FallbackTrace StringToNumber n srcs es (Some g) ->
  (exists e, In e es /\ attempt_result StringToNumber (snd e) = Some (draw g)) /\
  (forall e d, In e es -> attempt_result StringToNumber (snd e) = Some d -> d = draw g).
Proof.
  intros H. remember (Some g) as r eqn:Er. revert Er.
  induction H as [|src rest resp d Hd|src rest resp es r Hd Htr IH]; intros Er.
  - discriminate.
  - injection Er as <-. simpl. split.
    + eexists. split; [now left | exact Hd].
    + intros e d' [<-|[]] Hd'. simpl in Hd'. congruence.
  - destruct (IH Er) as ((e & He & Ha) & Hall). split.
    + exists e. split; [now right | exact Ha].
    + intros e' d' [<-|He'] Hd'; [simpl in Hd'; congruence | eauto].
Qed.

Lemma FallbackTrace_failure (n : Z) (srcs : list Source)
    (es : list (Req * option value)) :
  FallbackTrace StringToNumber n srcs es None ->
  (forall src, In src srcs -> exists resp, In (ReqDraw (src_id src) n, resp) es) /\
  (forall e, In e es -> attempt_result StringToNumber (snd e) = None).
Proof.
  intros H. remember None as r eqn:Er. revert Er.
  induction H as [|src rest resp d Hd|src rest resp es r Hd Htr IH]; intros Er.
  - split; intros ? [].
  - discriminate.
  - destruct (IH Er) as (Hall & Hnone). split.
    + intros src' [<-|Hin]; [exists resp; now left|].
      destruct (Hall src' Hin) as (resp' & Hr). exists resp'. now right.
    + intros e [<-|He]; [exact Hd | now apply Hnone].
Qed.

Lemma FillTrace_facts (ns : list Z) (draws : list DrawRecord) (h : Health)
    (es : list (Req * option value)) (draws' : list DrawRecord) (h' : Health) :
  FillTrace StringToNumber ns draws h es draws' h' ->
  StronglySorted Z.lt ns ->
  (forall e, In e es -> exists sid m, fst e = ReqDraw sid m /\ In m ns) /\
  (forall k, hasNo k draws -> hasNo k draws') /\
  (forall sid m resp d,
     In (ReqDraw sid m, resp) es -> attempt_result StringToNumber resp = Some d ->
     hasNo (drwNo d) draws') /\
  (forall n, failed_everywhere StringToNumber es n ->
     status h' = degraded /\
     In (String.append "incremental_fetch_failed_at_" (decimal n)) (reasons h') /\
     forall sid m resp, In (ReqDraw sid m, resp) es -> m <= n).
Proof.
  induction 1 as [draws h
                 |n rest draws h es es' g draws' h' Hfb Hfill IH
                 |n rest draws h es Hfb]; intros Hsorted.
  - split; [intros e []|]. split; [auto|]. split; [intros ? ? ? ? []|].
    intros n' [Hall _]. exfalso.
    destruct (Hall (hd (mkSource "" "" "" (fun _ => "")) SOURCES)) as (resp & []).
    now left.
  - inversion Hsorted as [|? ? Hs Hlt]; subst.
    destruct (IH Hs) as (Hreq & Hkeep & Hgot & Hstop).
    pose proof (FallbackTrace_requests _ _ _ _ Hfb) as Hreq0.
    destruct (FallbackTrace_success _ _ _ _ Hfb) as ((e0 & He0 & Ha0) & Honly).
    assert (Hreq0' : forall sid m resp, In (ReqDraw sid m, resp) es -> m = n).
    { intros sid m resp Hin. destruct (Hreq0 _ Hin) as (src & _ & E).
      simpl in E. congruence. }
    split; [|split; [|split]].
    + intros e He. apply in_app_or in He. destruct He as [He|He].
      * destruct (Hreq0 e He) as (src & _ & E). exists (src_id src), n.
        split; [exact E | now left].
      * destruct (Hreq e He) as (sid & m & E & Hm). exists sid, m.
        split; [exact E | now right].
    + intros k Hk. apply Hkeep. now apply hasNo_merge_keeps.
    + intros sid m resp d Hin Hd. apply in_app_or in Hin. destruct Hin as [Hin|Hin].
      * apply Hkeep. rewrite (Honly _ d Hin Hd). apply hasNo_merge_adds.
      * eapply Hgot; eassumption.
    + intros n' [Hall Hnone].
      assert (Hne : n' <> n).
      { intros ->. destruct e0 as [req resp]. destruct (Hreq0 _ He0) as (src & _ & E).
        simpl in E, Ha0. subst req.
        rewrite (Hnone (src_id src) resp) in Ha0; [discriminate|].
        apply in_or_app. now left. }
      assert (Hfe : failed_everywhere StringToNumber es' n').
      { split.
        - intros src Hsrc. destruct (Hall src Hsrc) as (resp & Hin).
          apply in_app_or in Hin. destruct Hin as [Hin|Hin]; [|now exists resp].
          apply Hreq0' in Hin. contradiction.
        - intros sid resp Hin. apply (Hnone sid resp). apply in_or_app. now right. }
      destruct (Hstop n' Hfe) as (Hst & Hre & Hle).
      repeat split; auto.
      intros sid m resp Hin. apply in_app_or in Hin. destruct Hin as [Hin|Hin].
      * apply Hreq0' in Hin. subst m.
        destruct Hfe as [Hall' _].
        destruct (Hall' (hd (mkSource "" "" "" (fun _ => "")) SOURCES)) as (resp' & Hin');
          [now left|].
        destruct (Hreq _ Hin') as (sid' & m' & E & Hm'). simpl in E.
        injection E as _ <-.
        rewrite Forall_forall in Hlt. specialize (Hlt _ Hm'). lia.
      * eapply Hle; eassumption.
  - destruct (FallbackTrace_failure _ _ _ Hfb) as (Hall0 & Hnone0).
    pose proof (FallbackTrace_requests _ _ _ _ Hfb) as Hreq0.
    split; [|split; [|split]].
    + intros e He. destruct (Hreq0 e He) as (src & _ & E). exists (src_id src), n.
      split; [exact E | now left].
    + auto.
    + intros sid m resp d Hin Hd. specialize (Hnone0 _ Hin). simpl in Hnone0. congruence.
    + intros n' [Hall _].
      destruct (Hall (hd (mkSource "" "" "" (fun _ => "")) SOURCES)) as (resp & Hin);
        [now left|].
      destruct (Hreq0 _ Hin) as (src & _ & E). simpl in E. injection E as _ ->.
      repeat split.
      * simpl. apply in_or_app. right. now left.
      * intros sid m resp' Hin'. destruct (Hreq0 _ Hin') as (src' & _ & E').
        simpl in E'. injection E' as _ ->. lia.
Qed.

Lemma Z_range_In (lo hi m : Z) : In m (Z_range lo hi) <-> lo <= m <= hi.
Proof.
  unfold Z_range. rewrite in_map_iff. split.
  - intros (i & <- & Hi). apply in_seq in Hi. lia.
  - intros Hm. exists (Z.to_nat (m - lo)). split; [lia|]. apply in_seq. lia.
Qed.

Lemma Z_range_sorted (lo hi : Z) : StronglySorted Z.lt (Z_range lo hi).
Proof.
  unfold Z_range. generalize (Z.to_nat (hi - lo + 1)) as len. generalize 0%nat as a.
  intros a len. revert a. induction len as [|len IH]; intros a; simpl; constructor.
  - apply IH.
  - apply Forall_forall. intros z Hz. apply in_map_iff in Hz.
    destruct Hz as (i & <- & Hi). apply in_seq in Hi. lia.
Qed.

(** *** The fan-out for the latest draw *)

Lemma mapM_sources {R : Type} (f : Source -> M World (option R)) (order : list Source)
    (st : St World) :
  map fst (fst (mapM World (fun src => bind (f src) (fun r => ret (src, r))) order st))
  = order.
Proof.
  revert st. induction order as [|src order IH]; intros st; simpl; [reflexivity|].
  unfold bind at 1. unfold bind at 1. destruct (f src st) as [r st1]. unfold ret at 1.
  unfold bind at 1. specialize (IH st1).
  destruct (mapM World _ order st1) as [ys st2]. simpl in *. now rewrite IH.
Qed.

Lemma successes_failures {R : Type} (l : list (Source * option R)) :
  (List.length (successes l) + List.length (failures l) = List.length l)%nat /\
  (successes l = [] -> failures l = map src_id (map fst l)).
Proof.
  unfold successes, failures. induction l as [|[src [r|]] l [IH1 IH2]]; simpl.
  - auto.
  - split; [lia | discriminate].
  - split; [lia|]. intros E. now rewrite IH2.
Qed.

Lemma tryLatestFromSource_id (src : Source) (st : St World) (r : SourceResult) :
  fst (tryLatestFromSource StringToNumber World respond src st) = Some r ->
  sourceId r = src_id src.
Proof.
  unfold tryLatestFromSource, bind, ret, fetchJsonGuarded.
  destruct (respond (ReqLatest (src_id src)) (world st)) as [[v|] w1]; simpl;
    [|discriminate].
  destruct (normalizeDraw StringToNumber v) as [[d|]|]; try discriminate.
  now intros [= <-].
Qed.

Lemma mapM_settled_ids (order : list Source) (st : St World) :
  Forall (fun p => forall r, snd p = Some r -> sourceId r = src_id (fst p))
    (fst (mapM World
            (fun src => bind (tryLatestFromSource StringToNumber World respond src)
                          (fun r => ret (src, r))) order st)).
Proof.
  revert st. induction order as [|src order IH]; intros st; simpl; [constructor|].
  unfold bind at 1. unfold bind at 1.
  pose proof (tryLatestFromSource_id src st) as Hid.
  destruct (tryLatestFromSource StringToNumber World respond src st) as [r st1].
  unfold ret at 1. unfold bind at 1. specialize (IH st1).
  destruct (mapM World _ order st1) as [ys st2]. simpl in *.
  constructor; [|exact IH]. simpl. intros r0 ->. now apply Hid.
Qed.

(** The latest results come from different sources, one each at most. *)
Lemma fetchLatestAllSources_one_per_source (st : St World) :
  NoDup (map sourceId
           (fst (fst (fetchLatestAllSources StringToNumber World respond settle st)))).
Proof.
  unfold fetchLatestAllSources, allSettled, nextOrder.
  unfold bind at 1. unfold bind at 1.
  destruct (settle (world st)) as [k w1]. unfold ret at 1.
  pose proof (mapM_sources (tryLatestFromSource StringToNumber World respond)
                (pick_order k SOURCES) (mkSt w1 (log st))) as Hsrc.
  pose proof (mapM_settled_ids (pick_order k SOURCES) (mkSt w1 (log st))) as Hids.
  destruct (mapM World _ (pick_order k SOURCES) (mkSt w1 (log st))) as [settled st1].
  cbn [fst snd] in *.
  assert (Hnd : NoDup (map src_id (map fst settled))).
  { rewrite Hsrc. eapply Permutation_NoDup.
    - apply Permutation_map, Permutation_sym, pick_order_perm.
    - simpl. repeat constructor; simpl; intros H;
        repeat (destruct H as [H|H]; [discriminate H|]); exact H. }
  clear Hsrc. unfold successes.
  induction settled as [|[src [r|]] settled IH]; simpl in *.
  - constructor.
  - inversion Hids as [|? ? Hid Hids']; subst.
    inversion Hnd as [|? ? Hnin Hnd']; subst.
    constructor; [|now apply IH].
    rewrite (Hid r eq_refl). simpl. intros Hin. apply Hnin.
    clear -Hin Hids'. induction settled as [|[src' [r'|]] settled IH]; simpl in *.
    + contradiction.
    + inversion Hids' as [|? ? Hid' Hids'']; subst.
      destruct Hin as [E|Hin]; [left; rewrite <- E; symmetry; now apply Hid' | right; auto].
    + inversion Hids' as [|? ? _ Hids'']; subst. right. auto.
  - inversion Hids as [|? ? _ Hids']; subst.
    inversion Hnd as [|? ? _ Hnd']; subst. now apply IH.
Qed.

(** No source delivers a latest draw exactly when every source is listed
    among the fetch errors. *)
Lemma fetchLatestAllSources_none (st : St World) :
  let latest := fst (fetchLatestAllSources StringToNumber World respond settle st) in
  fst latest = [] <-> Permutation (snd latest) (map src_id SOURCES).
Proof.
  unfold fetchLatestAllSources, allSettled, nextOrder, bind, ret.
  destruct (settle (world st)) as [k w1].
  match goal with
  | |- context [mapM ?W ?f ?o ?s] =>
      pose proof (mapM_sources (tryLatestFromSource StringToNumber World respond) o s)
        as Hsrc;
      unfold bind, ret in Hsrc;
      destruct (mapM W f o s) as [settled st1]
  end.
  cbn [fst snd] in *.
  destruct (successes_failures settled) as [Hlen Hall].
  assert (Hl : List.length settled = List.length SOURCES).
  { rewrite <- (length_map fst), Hsrc. apply Permutation_length, pick_order_perm. }
  split.
  - intros E. rewrite (Hall E), Hsrc. apply Permutation_map, pick_order_perm.
  - intros Hp. apply Permutation_length in Hp. rewrite length_map in Hp.
    destruct (successes settled); [reflexivity | simpl in Hlen; lia].
Qed.

(** C3: the run aborts (exit code 1) exactly when no source delivers a
    latest draw (every source is among the fetch errors) and the loaded
    ledger is empty; every other run writes the ledger and the statistics
    and exits with code 0. *)
Theorem run_aborts_iff_no_data (existing : list DrawRecord) (w : World) :
  let latest := fst (fetchLatestAllSources StringToNumber World respond settle (mkSt w [])) in
  let o := fst (run StringToNumber World respond settle existing w) in
  (fst latest = [] <-> Permutation (snd latest) (map src_id SOURCES)) /\
  (exitCode o = 1 <-> fst latest = [] /\ existing = []) /\
  (exitCode o = 0 <-> exists file p, o = Written file p) /\
  (exitCode o = 0 \/ exitCode o = 1).
Proof.
  intros latest o. split; [apply fetchLatestAllSources_none|].
  assert (Hcases :
    (fst latest = [] /\ existing = [] /\ exists msg, o = Thrown msg) \/
    ((fst latest <> [] \/ existing <> []) /\ exists file p, o = Written file p)).
  { subst latest o. unfold run.
    destruct (fetchLatestAllSources StringToNumber World respond settle (mkSt w []))
      as [[results errors] st1] eqn:E. simpl.
    destruct results as [|r rs].
    - pose proof (main_without_latest existing _ _ _ E) as H.
      destruct existing as [|d ds].
      + left. auto.
      + right. destruct H as (p & Hp & _). split; [right; discriminate|]. eauto.
    - destruct (main_with_latest existing _ _ _ _ E) as (c & file & p & Hp & _);
        [discriminate|].
      right. split; [left; discriminate|]. eauto. }
  destruct Hcases as [(H1 & H2 & (msg & ->))|([H|H] & (file & p & ->))]; simpl;
    repeat split; auto; try discriminate; try tauto; try (intros (? & ? & ?); discriminate);
    try (intros _; eauto).
Qed.

(** C10: as soon as one source delivers a latest draw, the run writes a
    ledger that holds the target draw number, so its highest draw number is
    at least the target; and no run, with or without a target, reports the
    reason [local_last_is_behind_latest]. *)
Theorem finalize_never_trails (existing : list DrawRecord) (w : World) :
  let latest := fst (fetchLatestAllSources StringToNumber World respond settle (mkSt w [])) in
  let o := fst (run StringToNumber World respond settle existing w) in
  (fst latest <> [] ->
   exists c file p,
     pickConsensusLatest (fst latest) = Some c /\
     o = Written file p /\
     latestConsensus (health p) = Some c /\
     hasNo (latestNo c) file /\
     latestNo c <= lastNoOf file /\
     latestNo c <= drwNo (lastDraw p)) /\
  (forall file p, o = Written file p -> not_trailing (health p)).
Proof.
  intros latest o. subst latest o. unfold run.
  destruct (fetchLatestAllSources StringToNumber World respond settle (mkSt w []))
    as [[results errors] st1] eqn:E. simpl.
  destruct results as [|r rs].
  - split; [congruence|].
    pose proof (main_without_latest existing _ _ _ E) as H.
    destruct existing as [|d ds].
    + destruct H as (msg & ->). discriminate.
    + destruct H as (p & -> & _ & _ & Hr). intros file p' [= <- <-].
      unfold not_trailing. rewrite Hr. simpl. intros [H|[]]. discriminate.
  - destruct (main_with_latest existing _ _ _ _ E)
      as (c & file & p & Hp & Hc & Hl & Hhas & Hlast & Hmax & Ht & _); [discriminate|].
    split.
    + intros _. exists c, file, p. repeat split; auto.
    + intros file' p' Ho. rewrite Hp in Ho. injection Ho as <- <-. exact Ht.
Qed.

(** A run that starts from a non-empty ledger always writes a ledger, with
    every draw number of the loaded one whenever it built on it. *)
Lemma run_on_loaded_ledger (existing : list DrawRecord) (w : World) :
  existing <> [] ->
  exists file p,
    fst (run StringToNumber World respond settle existing w) = Written file p /\
    (built_on_local (health p) -> forall k, hasNo k existing -> hasNo k file).
Proof.
  intros Hne. unfold run.
  destruct (fetchLatestAllSources StringToNumber World respond settle (mkSt w []))
    as [[results errors] st1] eqn:E.
  destruct results as [|r rs].
  - pose proof (main_without_latest existing _ _ _ E) as H.
    destruct existing as [|d ds]; [congruence|].
    destruct H as (p & Hp & _). exists (Array_sort byDrwNo (d :: ds)), p.
    split; [exact Hp|]. intros _ k. apply hasNo_sort.
  - destruct (main_with_latest existing _ _ _ _ E)
      as (c & file & p & Hp & _ & _ & _ & _ & _ & _ & Hkeep); [discriminate|].
    exists file, p. split; [exact Hp | exact Hkeep].
Qed.
End ControllerFacts.

(** ** Closed runs *)

(** C1 (as stated, refuted): the ledger holds draw 1, the target is draw 200
    (a gap above the bootstrap threshold) and the bulk file holds draws 199
    and 200; the run takes the bulk file and writes a ledger without
    draw 1. *)
Lemma bootstrap_drops_loaded_draw :
  let existing := [mkDraw 1 "2002-12-07" (map Fin [10; 23; 29; 33; 37; 40]) (Fin 16)] in
  exists file p,
    fst (run StringToNumber_dec unit (scripted bulk_network) in_source_order existing tt)
    = Written file p /\
    mode (used (health p)) = Some "bootstrap-all" /\
    map drwNo file = [199; 200] /\
    hasNo 1 existing /\ ~ hasNo 1 file.
Proof.
  intros existing. eexists _, _. split; [vm_compute; reflexivity|].
  split; [reflexivity|]. split; [reflexivity|]. split; [now left|].
  unfold hasNo. simpl. intros [H|[H|[]]]; discriminate H.
Qed.

(** The same run, evaluated: an incremental one that ends with draws 1..5,
    nominal. *)
Example steady_run :
  exists file p,
    fst (run StringToNumber_dec unit (scripted steady_network) in_source_order
           ledger_1_to_3 tt) = Written file p /\
    map drwNo file = [1; 2; 3; 4; 5] /\
    mode (used (health p)) = Some "incremental" /\
    status (health p) = ok /\ reasons (health p) = [].
Proof. eexists _, _. split; [vm_compute; reflexivity|]. repeat split. Qed.

(** A fill from 3 to 7 with draw 5 missing everywhere: draw 4 is merged, the
    three sources are asked for draw 5, nothing is asked for draws 6 and 7. *)
Example fill_stops_at_5 :
  let r := incrementalFill StringToNumber_dec unit (scripted gap_network) 3 7
             ledger_1_to_3 health0 (mkSt tt []) in
  map drwNo (fst (fst r)) = [1; 2; 3; 4] /\
  map fst (log (snd r)) =
    [ReqDraw "smok95-pages" 4; ReqDraw "smok95-pages" 5; ReqDraw "smok95-raw" 5;
     ReqDraw "smok95-jsdelivr" 5] /\
  failed_everywhere StringToNumber_dec (log (snd r)) 5 /\
  status (snd (fst r)) = degraded /\
  reasons (snd (fst r)) = ["incremental_fetch_failed_at_5"].
Proof.
  intros r. split; [vm_compute; reflexivity|]. split; [vm_compute; reflexivity|].
  split; [|split; vm_compute; reflexivity].
  split.
  - intros src Hsrc. exists None. simpl in Hsrc.
    destruct Hsrc as [<-|[<-|[<-|[]]]]; vm_compute; intuition reflexivity.
  - intros sid resp Hin. vm_compute in Hin.
    repeat (destruct Hin as [Hin|Hin];
            [try discriminate Hin; injection Hin as _ <-; reflexivity|]).
    contradiction.
Qed.

(** * Further properties of the code *)

(** ** The ledger merger, beyond idempotence *)

Lemma strictly_sorted_NoDup (l : list DrawRecord) :
  StronglySorted (fun a b => drwNo a < drwNo b) l -> NoDup (map drwNo l).
Proof.
  induction 1 as [|a l Hs IH Ha]; simpl; constructor; [|exact IH].
  intros Hin. apply in_map_iff in Hin. destruct Hin as (b & E & Hb).
  rewrite Forall_forall in Ha. specialize (Ha _ Hb). lia.
Qed.

(** X1: whatever the two inputs hold, the merged ledger is in strictly
    ascending order of draw number (one record per draw number), its draw
    numbers are exactly those of the two inputs together (none is lost, none
    invented), and each of its records is a record of one of the inputs. *)
Theorem mergeByNo_canonical (L X : list DrawRecord) :
  StronglySorted (fun a b => drwNo a < drwNo b) (mergeByNo L X) /\
  NoDup (map drwNo (mergeByNo L X)) /\
  (forall k, hasNo k (mergeByNo L X) <-> hasNo k L \/ hasNo k X) /\
  (forall d, In d (mergeByNo L X) -> In d L \/ In d X).
Proof.
  split; [apply mergeByNo_sorted|]. split; [apply mergeByNo_keys_NoDup|].
  split; [intros k; apply mergeByNo_hasNo|].
  intros d Hd. apply mergeByNo_In in Hd. apply winner_key in Hd.
  destruct Hd as [_ Hd]. now apply in_app_or.
Qed.

(** X2: looking a draw number up in the merged ledger gives the last incoming
    record with that number, or else the last current record with it, and
    nothing exactly when neither input has the number. *)
Theorem mergeByNo_lookup_last (L X : list DrawRecord) (k : Z) :
  lookupNo k (mergeByNo L X) =
    match winner k X with
    | Some d => Some d
    | None => winner k L
    end /\
  (lookupNo k (mergeByNo L X) = None <-> ~ hasNo k L /\ ~ hasNo k X).
Proof.
  rewrite mergeByNo_lookup, winner_app. split; [reflexivity|].
  rewrite <- !winner_None.
  destruct (winner k X), (winner k L); split; try tauto; try discriminate;
    intros [H1 H2]; discriminate.
Qed.

(** X3: two merges in a row are one merge of the appended record sets, so a
    sequence of patches can be applied one by one or at once. *)
Theorem mergeByNo_append (L A B : list DrawRecord) :
  mergeByNo (mergeByNo L A) B = mergeByNo L (A ++ B).
Proof.
  apply mergeByNo_ext. intros k.
  rewrite winner_app, winner_mergeByNo, !winner_app.
  destruct (winner k B); reflexivity.
Qed.

(** X4: a ledger that is already in strictly ascending order of draw number
    is left as it is by a merge with nothing, on either side. *)
Theorem mergeByNo_fixes_canonical (L : list DrawRecord) :
  StronglySorted (fun a b => drwNo a < drwNo b) L ->
  mergeByNo L [] = L /\ mergeByNo [] L = L.
Proof.
  intros Hs.
  assert (H : forall L1 L2, L1 ++ L2 = L -> mergeByNo L1 L2 = L).
  { intros L1 L2 E. apply (strictly_sorted_ext drwNo); [apply mergeByNo_sorted | exact Hs|].
    intros d. rewrite mergeByNo_In, E.
    rewrite winner_lookup by now apply strictly_sorted_NoDup.
    split.
    - intros Hf. unfold lookupNo in Hf. apply find_some in Hf. tauto.
    - intros Hin. apply lookupNo_unique; auto. now apply strictly_sorted_NoDup. }
  split; apply H; [apply app_nil_r | reflexivity].
Qed.

Lemma mergeByNo_fixes_canonical_witness :
  StronglySorted (fun a b => drwNo a < drwNo b) ledger_1_to_3 /\
  (mergeByNo ledger_1_to_3 [] = ledger_1_to_3 /\
   mergeByNo [] ledger_1_to_3 = ledger_1_to_3).
Proof.
  assert (H : StronglySorted (fun a b => drwNo a < drwNo b) ledger_1_to_3).
  { unfold ledger_1_to_3. simpl.
    repeat (constructor; [|repeat constructor; simpl; lia]). constructor. }
  split; [exact H | exact (mergeByNo_fixes_canonical ledger_1_to_3 H)].
Defined.

(** ** Signature, date and canonical form *)

(** X5: two records have the same signature exactly when they are the same
    record: same draw number, same main numbers in the same order, same bonus
    and same date. *)
Theorem drawSig_exact (a b : DrawRecord) : drawSig a = drawSig b <-> a = b.
Proof. split; [apply drawSig_inj | now intros ->]. Qed.





Lemma sorted_perm_eq (l1 l2 : list Z) :
  StronglySorted Z.le l1 -> StronglySorted Z.le l2 -> Permutation l1 l2 -> l1 = l2.
Proof.
  intros H1. revert l2. induction H1 as [|a l1 Hs1 IH Ha]; intros l2 H2 Hp.
  - apply Permutation_nil in Hp. now subst.
  - destruct H2 as [|b l2 Hs2 Hb].
    + apply Permutation_sym, Permutation_nil in Hp. discriminate.
    + rewrite Forall_forall in Ha, Hb.
      assert (E : a = b).
      { assert (Hab : In a (b :: l2)) by (eapply Permutation_in; [exact Hp | now left]).
        assert (Hba : In b (a :: l1))
          by (eapply Permutation_in; [apply Permutation_sym; exact Hp | now left]).
        destruct Hab as [E|Hab]; [now symmetry|].
        destruct Hba as [E|Hba]; [assumption|].
        specialize (Ha _ Hba). specialize (Hb _ Hab). lia. }
      subst b. f_equal. apply IH; [assumption|].
      eapply Permutation_cons_inv. exact Hp.
Qed.

(** X7: the order in which a mirror lists the six numbers does not matter:
    two payloads with the same draw number, bonus and date whose numbers are
    the same finite values in any order normalize to the same record, hence
    to the same signature. *)
Theorem normalizeDraw_order_insensitive (s2n : string -> num) (item1 item2 : value)
    (elems1 elems2 : list value) (zs1 zs2 : list Z) :
  get_prop item1 "draw_no" = get_prop item2 "draw_no" ->
  get_prop item1 "bonus_no" = get_prop item2 "bonus_no" ->
  get_prop item1 "date" = get_prop item2 "date" ->
  get_prop item1 "numbers" = VArr elems1 ->
  get_prop item2 "numbers" = VArr elems2 ->
  map (Number s2n) elems1 = map (fun z => Ok (Fin z)) zs1 ->
  map (Number s2n) elems2 = map (fun z => Ok (Fin z)) zs2 ->
  Permutation zs1 zs2 ->
  normalizeDraw s2n item1 = normalizeDraw s2n item2 /\
  (forall r1 r2,
     normalizeDraw s2n item1 = Ok (Some r1) ->
     normalizeDraw s2n item2 = Ok (Some r2) ->
     drawSig r1 = drawSig r2).
Proof.
  intros Eno Ebonus Edate E1 E2 Ez1 Ez2 Hp.
  assert (M1 : mapC (Number s2n) elems1 = Ok (map Fin zs1))
    by (apply mapC_Ok; now rewrite Ez1, map_map).
  assert (M2 : mapC (Number s2n) elems2 = Ok (map Fin zs2))
    by (apply mapC_Ok; now rewrite Ez2, map_map).
  assert (E : normalizeDraw s2n item1 = normalizeDraw s2n item2).
  { unfold normalizeDraw. rewrite Eno, Ebonus, Edate, E1, E2, M1, M2.
    destruct (Number s2n (get_prop item2 "draw_no")) as [x|]; [|reflexivity].
    cbn [cbind].
    destruct (Number s2n (get_prop item2 "bonus_no")) as [b|]; [|reflexivity].
    cbn [cbind].
    destruct (toYmd (get_prop item2 "date")) as [d|]; [|reflexivity].
    cbn [cbind].
    rewrite !length_map, (Permutation_length Hp).
    destruct (sort_finite zs1) as (-> & S1 & P1).
    destruct (sort_finite zs2) as (-> & S2 & P2).
    rewrite (sorted_perm_eq _ _ S1 S2); [reflexivity|].
    eapply perm_trans; [exact P1|]. eapply perm_trans; [exact Hp|].
    now apply Permutation_sym. }
  split; [exact E|]. intros r1 r2 H1 H2. rewrite E in H1. congruence.
Qed.

Lemma normalizeDraw_order_insensitive_witness :
  let item1 := drawJson 1100 [17; 26; 29; 30; 31; 43] 12 "2023-12-30" in
  let item2 := drawJson 1100 [43; 17; 31; 26; 30; 29] 12 "2023-12-30" in
  Permutation [17; 26; 29; 30; 31; 43] [43; 17; 31; 26; 30; 29] /\
  (normalizeDraw StringToNumber_dec item1 = normalizeDraw StringToNumber_dec item2 /\
   (forall r1 r2,
      normalizeDraw StringToNumber_dec item1 = Ok (Some r1) ->
      normalizeDraw StringToNumber_dec item2 = Ok (Some r2) ->
      drawSig r1 = drawSig r2)).
Proof.
  intros item1 item2.
  assert (Hp : Permutation [17; 26; 29; 30; 31; 43] [43; 17; 31; 26; 30; 29]).
  { change [17; 26; 29; 30; 31; 43]
      with (Array_sort ascendingZ [43; 17; 31; 26; 30; 29]).
    apply Array_sort_perm. }
  split; [exact Hp|].
  exact (normalizeDraw_order_insensitive StringToNumber_dec item1 item2 _ _
           [17; 26; 29; 30; 31; 43] [43; 17; 31; 26; 30; 29]
           eq_refl eq_refl eq_refl eq_refl eq_refl eq_refl eq_refl Hp).
Defined.

(** ** The guarded fetch *)

Lemma Z_range_cons (lo hi : Z) : lo <= hi -> Z_range lo hi = lo :: Z_range (lo + 1) hi.
Proof.
  intros H. unfold Z_range.
  replace (Z.to_nat (hi - lo + 1)) with (S (Z.to_nat (hi - (lo + 1) + 1))) by lia.
  simpl. f_equal; [lia|]. rewrite <- seq_shift, map_map.
  apply map_ext. intros i. lia.
Qed.

Lemma Z_range_empty (lo hi : Z) : hi < lo -> Z_range lo hi = [].
Proof.
  intros H. unfold Z_range. replace (Z.to_nat (hi - lo + 1)) with 0%nat by lia. reflexivity.
Qed.

Lemma prefix_cons (a c : ascii) (p r : string) :
  String.prefix (String a p) (String c r) =
  if ascii_dec a c then String.prefix p r else false.
Proof. reflexivity. Qed.

Lemma prefix_empty (r : string) : String.prefix EmptyString r = true.
Proof. now destruct r. Qed.

Lemma startsWith_lt (t : string) :
  Transport.isHtmlLike t = Transport.startsWith (Transport.trimStart t) "<".
Proof.
  unfold Transport.isHtmlLike, Transport.startsWith.
  destruct (Transport.trimStart t) as [|c r]; [reflexivity|].
  rewrite !prefix_cons, prefix_empty.
  destruct (ascii_dec "<" c); [|reflexivity].
  now rewrite !orb_true_r.
Qed.

Lemma trimStart_split (t : string) :
  exists ws, t = String.append ws (Transport.trimStart t) /\ Transport.all_white ws = true.
Proof.
  induction t as [|c t (ws & E & Hw)]; simpl.
  - exists EmptyString. split; reflexivity.
  - destruct (Transport.isWhiteSpace c) eqn:Ec.
    + exists (String c ws). simpl. rewrite Ec, Hw. split; [now rewrite <- E | reflexivity].
    + exists EmptyString. split; reflexivity.
Qed.

Lemma trimStart_white (ws rest : string) (c : ascii) :
  Transport.all_white ws = true -> Transport.isWhiteSpace c = false ->
  Transport.trimStart (String.append ws (String c rest)) = String c rest.
Proof.
  induction ws as [|a ws IH]; simpl; intros Hw Hc.
  - now rewrite Hc.
  - apply andb_prop in Hw. destruct Hw as [Ha Hw]. rewrite Ha. now apply IH.
Qed.

(** X8: a body counts as HTML exactly when its first character after leading
    white space is [<]; the four longer prefixes the function tests add
    nothing, and a body that starts with anything else (a JSON object, array,
    number or string, or nothing at all) does not count as HTML. *)
Theorem isHtmlLike_iff (text : string) :
  Transport.isHtmlLike text = true <->
  exists ws rest,
    text = String.append ws (String "<" rest) /\ Transport.all_white ws = true.
Proof.
  rewrite startsWith_lt. split.
  - intros H. destruct (trimStart_split text) as (ws & E & Hw).
    unfold Transport.startsWith in H.
    destruct (Transport.trimStart text) as [|c r]; [discriminate|].
    rewrite prefix_cons in H.
    destruct (ascii_dec "<" c) as [<-|]; [|discriminate].
    now exists ws, r.
  - intros (ws & rest & -> & Hw).
    rewrite trimStart_white; [|exact Hw | reflexivity].
    unfold Transport.startsWith. rewrite prefix_cons, prefix_empty.
    now destruct (ascii_dec "<" "<").
Qed.

Section TransportFacts.
Variable JSON_parse : string -> option value.
Variable Net : Type.
Variable exchange : Req -> Z -> Net -> option Transport.Response * Net.

Local Abbreviation TSt := (Transport.TSt Net).
Local Abbreviation retryLoop := (Transport.retryLoop JSON_parse Net exchange).
Local Abbreviation judge := (Transport.judge JSON_parse).
Local Abbreviation entry := (Req * Z * option Transport.Response)%type.

Lemma retryLoop_step (i : Z) (rest : list Z) (retries : Z) (url : Req)
    (lastErr : option Transport.FetchError) (st : TSt) :
  retryLoop (i :: rest) retries url lastErr st =
  let (resp, n1) := exchange url (25000 + i * 6000) (Transport.net Net st) in
  let st1 := Transport.mkTSt Net n1
               (Transport.calls Net st ++ [(url, 25000 + i * 6000, resp)])
               (Transport.sleeps Net st) in
  match judge resp with
  | inr v => (inr v, st1)
  | inl e =>
      retryLoop rest retries url (Some e)
        (if i <? retries then Transport.sleep Net (500 + i * 700) st1 else st1)
  end.
Proof.
  cbn [Transport.retryLoop]. unfold Transport.fetchTextWithTimeout, Transport.judge.
  destruct (exchange url (25000 + i * 6000) (Transport.net Net st)) as [[res|] n1];
    [destruct (Transport.res_ok res)|]; cbn [negb]; try reflexivity.
Qed.

Lemma Z_range_one (lo : Z) : Z_range lo (lo + 1 - 1) = [lo].
Proof.
  rewrite (Z_range_cons lo (lo + 1 - 1)) by lia.
  rewrite (Z_range_empty (lo + 1)) by lia. reflexivity.
Qed.

Lemma retryLoop_attempts (url : Req) (retries : Z) (k : nat) :
  forall (lo : Z) (lastErr : option Transport.FetchError) (st : TSt),
    lo <= retries -> k = Z.to_nat (retries - lo) ->
    let r := retryLoop (Z_range lo retries) retries url lastErr st in
    exists entries : list entry,
      Transport.calls Net (snd r) = Transport.calls Net st ++ entries /\
      (1 <= List.length entries <= k + 1)%nat /\
      map fst entries =
        map (fun i => (url, 25000 + i * 6000))
          (Z_range lo (lo + Z.of_nat (List.length entries) - 1)) /\
      Transport.sleeps Net (snd r) =
        Transport.sleeps Net st ++
        map (fun i => 500 + i * 700)
          (Z_range lo (lo + Z.of_nat (List.length entries) - 2)) /\
      Forall (Transport.failed JSON_parse) (removelast entries) /\
      match fst r with
      | inr v => judge (snd (last entries (url, 0, None))) = inr v
      | inl e =>
          List.length entries = (k + 1)%nat /\
          exists err, e = Some err /\ judge (snd (last entries (url, 0, None))) = inl err
      end.
Proof.
  induction k as [|k IH]; intros lo lastErr st Hlo Hk r; subst r;
    rewrite (Z_range_cons lo retries Hlo), retryLoop_step;
    destruct (exchange url (25000 + lo * 6000) (Transport.net Net st)) as [resp n1];
    cbv zeta;
    set (x := (url, 25000 + lo * 6000, resp) : entry);
    destruct (judge resp) as [e|v] eqn:Ej.
  - (* the last value of [i], failing *)
    rewrite (proj2 (Z.ltb_ge lo retries)) by lia.
    rewrite (Z_range_empty (lo + 1) retries) by lia.
    exists [x]. cbn [Transport.retryLoop fst snd Transport.calls Transport.sleeps
                     List.length removelast last map].
    rewrite Z_range_one, (Z_range_empty lo) by lia. cbn [map].
    rewrite app_nil_r. repeat split; auto; try lia.
    exists e. split; [reflexivity | exact Ej].
  - exists [x]. cbn [fst snd Transport.calls Transport.sleeps
                     List.length removelast last map].
    rewrite Z_range_one, (Z_range_empty lo) by lia. cbn [map].
    rewrite app_nil_r. repeat split; auto; try lia.
  - (* an earlier value of [i], failing *)
    assert (Hlt : lo < retries) by lia.
    rewrite (proj2 (Z.ltb_lt lo retries) Hlt).
    set (st1 := Transport.mkTSt Net n1 (Transport.calls Net st ++ [x]) (Transport.sleeps Net st)).
    destruct (IH (lo + 1) (Some e) (Transport.sleep Net (500 + lo * 700) st1))
      as (entries & Hc & Hlen & Hms & Hsl & Hfail & Hout); [lia | lia|].
    destruct (retryLoop (Z_range (lo + 1) retries) retries url (Some e)
                (Transport.sleep Net (500 + lo * 700) st1)) as [r st2].
    cbn [fst snd Transport.sleep Transport.calls Transport.sleeps st1] in Hc, Hsl, Hout |- *.
    destruct entries as [|y entries]; [simpl in Hlen; lia|].
    exists (x :: y :: entries). split; [rewrite Hc, <- app_assoc; reflexivity|].
    split; [simpl in *; lia|]. split; [|split; [|split]].
    + rewrite (Z_range_cons lo) by (simpl List.length; lia).
      change (map fst (x :: y :: entries))
        with ((url, 25000 + lo * 6000) :: map fst (y :: entries)).
      rewrite Hms. cbn [map]. f_equal. f_equal. f_equal. simpl List.length. lia.
    + rewrite Hsl, <- app_assoc. f_equal.
      rewrite (Z_range_cons lo) by (simpl List.length; lia). cbn [map app].
      f_equal. f_equal. f_equal. simpl List.length. lia.
    + change (removelast (x :: y :: entries)) with (x :: removelast (y :: entries)).
      constructor; [exists e; exact Ej | exact Hfail].
    + change (last (x :: y :: entries) (url, 0, None))
        with (last (y :: entries) (url, 0, None)).
      destruct r as [e'|v]; [|exact Hout].
      destruct Hout as [Hl Herr]. split; [simpl in *; lia | exact Herr].
  - exists [x]. cbn [fst snd Transport.calls Transport.sleeps
                     List.length removelast last map].
    rewrite Z_range_one, (Z_range_empty lo) by lia. cbn [map].
    rewrite app_nil_r. repeat split; auto; try lia.
Qed.

(** X9: with [retries >= 0], [fetchJsonGuarded] makes at least one and at most
    [retries + 1] exchanges for the URL, the i-th (from 0) under a timeout of
    [25000 + 6000 * i] ms; it pauses [500 + 700 * i] ms after the i-th failure
    and only between two attempts; every attempt but the last failed; it
    returns the JSON of the last exchange when that one succeeded, and
    otherwise throws the error of the last of exactly [retries + 1] failed
    attempts. *)
Theorem fetchJsonGuarded_attempts (url : Req) (retries : Z) (st : TSt) :
  0 <= retries ->
  let r := Transport.fetchJsonGuarded JSON_parse Net exchange url retries st in
  exists entries : list entry,
    Transport.calls Net (snd r) = Transport.calls Net st ++ entries /\
    (1 <= List.length entries <= Z.to_nat retries + 1)%nat /\
    map fst entries =
      map (fun i => (url, 25000 + i * 6000))
        (Z_range 0 (Z.of_nat (List.length entries) - 1)) /\
    Transport.sleeps Net (snd r) =
      Transport.sleeps Net st ++
      map (fun i => 500 + i * 700)
        (Z_range 0 (Z.of_nat (List.length entries) - 2)) /\
    Forall (Transport.failed JSON_parse) (removelast entries) /\
    match fst r with
    | inr v => judge (snd (last entries (url, 0, None))) = inr v
    | inl e =>
        List.length entries = (Z.to_nat retries + 1)%nat /\
        exists err, e = Some err /\ judge (snd (last entries (url, 0, None))) = inl err
    end.
Proof.
  intros H. unfold Transport.fetchJsonGuarded.
  pose proof (retryLoop_attempts url retries (Z.to_nat retries) 0 None st H) as L.
  rewrite Z.sub_0_r in L. specialize (L eq_refl). exact L.
Qed.
End TransportFacts.

Lemma fetchJsonGuarded_attempts_witness :
  0 <= 2 /\
  let url := ReqLatest "smok95-pages" in
  let st := Transport.mkTSt nat 1%nat [] [] in
  let r := Transport.fetchJsonGuarded parse_null nat flaky_exchange url 2 st in
  exists entries : list (Req * Z * option Transport.Response),
    Transport.calls nat (snd r) = Transport.calls nat st ++ entries /\
    (1 <= List.length entries <= Z.to_nat 2 + 1)%nat /\
    map fst entries =
      map (fun i => (url, 25000 + i * 6000))
        (Z_range 0 (Z.of_nat (List.length entries) - 1)) /\
    Transport.sleeps nat (snd r) =
      Transport.sleeps nat st ++
      map (fun i => 500 + i * 700)
        (Z_range 0 (Z.of_nat (List.length entries) - 2)) /\
    Forall (Transport.failed parse_null) (removelast entries) /\
    match fst r with
    | inr v => Transport.judge parse_null (snd (last entries (url, 0, None))) = inr v
    | inl e =>
        List.length entries = (Z.to_nat 2 + 1)%nat /\
        exists err,
          e = Some err /\
          Transport.judge parse_null (snd (last entries (url, 0, None))) = inl err
    end.
Proof.
  split; [lia|].
  apply (fetchJsonGuarded_attempts parse_null nat flaky_exchange
           (ReqLatest "smok95-pages") 2 (Transport.mkTSt nat 1%nat [] [])).
  lia.
Defined.

(** A run of the guarded fetch over the flaky link: one dropped exchange, one
    pause of 500 ms, the answer on the second attempt under 31 s. *)
Example flaky_fetch :
  Transport.fetchJsonGuarded parse_null nat flaky_exchange (ReqLatest "smok95-pages") 2
    (Transport.mkTSt nat 1%nat [] []) =
  (inr VNull,
   Transport.mkTSt nat 0%nat
     [(ReqLatest "smok95-pages", 25000, None);
      (ReqLatest "smok95-pages", 31000,
       Some (Transport.mkResponse true 200 "null"))]
     [500]).
Proof. reflexivity. Qed.

(** ** The statistics aggregator on a ledger *)

Section CounterFacts.
Context {C : Type}.
Variable add : C -> C -> C.

Lemma addCount_keys (c : list (Z * C)) (x : num) (w : C) :
  JsMap.keys (addCount add c x w) = JsMap.keys c.
Proof.
  unfold addCount, JsMap.keys.
  destruct (num_geb x (Fin 1) && num_leb x (Fin 45)); [|reflexivity].
  destruct x as [| | |z]; try reflexivity.
  rewrite map_map. apply map_ext. intros [k v]. simpl. now destruct (k =? z).
Qed.

Lemma addCount_get (c : list (Z * C)) (x : num) (w : C) (n : Z) :
  in_pool n ->
  JsMap.get Z.eqb n (addCount add c x w) =
  option_map (fun v => if is_num n x then add v w else v) (JsMap.get Z.eqb n c).
Proof.
  intros Hn. unfold in_pool in Hn. unfold addCount.
  assert (Hid : forall o : option C, o = option_map (fun v => v) o) by (now intros [v|]).
  destruct x as [| | |z]; simpl; try apply Hid.
  destruct ((1 <=? z) && (z <=? 45)) eqn:Er.
  - induction c as [|[k v] c IH]; simpl; [reflexivity|].
    destruct (Z.eqb_spec k z) as [->|Hkz]; simpl.
    + destruct (Z.eqb_spec z n) as [->|Hzn]; [reflexivity|].
      rewrite IH. reflexivity.
    + destruct (Z.eqb_spec k n) as [->|Hkn].
      * destruct (Z.eqb_spec z n); [congruence | reflexivity].
      * exact IH.
  - destruct (Z.eqb_spec z n) as [->|Hzn]; [|apply Hid].
    apply andb_false_iff in Er. destruct Er as [Er|Er];
      [apply Z.leb_gt in Er | apply Z.leb_gt in Er]; lia.
Qed.

Lemma addCounts_keys (xs : list num) (w : C) (c : list (Z * C)) :
  JsMap.keys (fold_left (fun c x => addCount add c x w) xs c) = JsMap.keys c.
Proof.
  revert c. induction xs as [|x xs IH]; intros c; simpl; [reflexivity|].
  now rewrite IH, addCount_keys.
Qed.

Lemma addCounts_get (xs : list num) (w : C) (c : list (Z * C)) (n : Z) :
  in_pool n ->
  JsMap.get Z.eqb n (fold_left (fun c x => addCount add c x w) xs c) =
  option_map (Nat.iter (List.length (filter (is_num n) xs)) (fun v => add v w))
    (JsMap.get Z.eqb n c).
Proof.
  intros Hn. revert c. induction xs as [|x xs IH]; intros c; simpl.
  - now destruct (JsMap.get Z.eqb n c).
  - rewrite IH, (addCount_get c x w n Hn).
    destruct (JsMap.get Z.eqb n c) as [v|]; [|reflexivity]. simpl.
    destruct (is_num n x); [|reflexivity].
    simpl. f_equal. symmetry. exact (Nat.iter_succ_r _ _ (fun v => add v w) v).
Qed.

Lemma addDraws_main (ds : list DrawRecord) (w : C) (acc : list (Z * C) * list (Z * C)) :
  fst (fold_left (addDraw add w) ds acc) =
  fold_left (fun c x => addCount add c x w) (flat_map numbers ds) (fst acc).
Proof.
  revert acc. induction ds as [|d ds IH]; intros acc; simpl; [reflexivity|].
  now rewrite IH, fold_left_app.
Qed.

Lemma addDraws_bonus (ds : list DrawRecord) (w : C) (acc : list (Z * C) * list (Z * C)) :
  snd (fold_left (addDraw add w) ds acc) =
  fold_left (fun c x => addCount add c x w) (map bonus ds) (snd acc).
Proof.
  revert acc. induction ds as [|d ds IH]; intros acc; simpl; [reflexivity|].
  now rewrite IH.
Qed.
End CounterFacts.

Lemma iter_succ (k : nat) (v : Z) : Nat.iter k (fun a => a + 1) v = v + Z.of_nat k.
Proof.
  induction k as [|k IH]; [simpl; lia|].
  rewrite Nat.iter_succ, IH. lia.
Qed.

Lemma pool_keys (n : Z) {C : Type} (c : list (Z * C)) :
  JsMap.keys c = Z_range 1 45 ->
  (1 <=? n) && (n <=? 45) = false -> JsMap.get Z.eqb n c = None.
Proof.
  intros Hk Hr. apply (get_None Z.eqb Z.eqb_spec). rewrite Hk.
  intros Hin. apply Z_range_In in Hin.
  apply andb_false_iff in Hr. destruct Hr as [Hr|Hr]; apply Z.leb_gt in Hr; lia.
Qed.

(** The raw tables a list of draws leaves in fresh counters. *)
Lemma raw_counts (ds : list DrawRecord) (n : Z) :
  let c := fold_left (addDraw Z.add 1) ds (initCounterInt, initCounterInt) in
  JsMap.keys (fst c) = Z_range 1 45 /\
  JsMap.keys (snd c) = Z_range 1 45 /\
  JsMap.get Z.eqb n (fst c) =
    (if (1 <=? n) && (n <=? 45) then Some (hits n (flat_map numbers ds)) else None) /\
  JsMap.get Z.eqb n (snd c) =
    (if (1 <=? n) && (n <=? 45) then Some (hits n (map bonus ds)) else None).
Proof.
  cbv zeta. rewrite addDraws_main, addDraws_bonus. cbn [fst snd].
  destruct (initCounter_zero 0) as [K0 G0]. fold initCounterInt in K0, G0.
  assert (K1 : JsMap.keys (fold_left (fun c x => addCount Z.add c x 1)
                             (flat_map numbers ds) initCounterInt) = Z_range 1 45)
    by now rewrite addCounts_keys.
  assert (K2 : JsMap.keys (fold_left (fun c x => addCount Z.add c x 1)
                             (map bonus ds) initCounterInt) = Z_range 1 45)
    by now rewrite addCounts_keys.
  split; [exact K1|]. split; [exact K2|].
  destruct ((1 <=? n) && (n <=? 45)) eqn:Er.
  - assert (Hn : in_pool n).
    { apply andb_prop in Er. destruct Er as [E1 E2].
      apply Z.leb_le in E1, E2. unfold in_pool. lia. }
    rewrite !addCounts_get, (G0 n Hn) by exact Hn. simpl.
    rewrite !iter_succ. unfold hits. split; reflexivity.
  - split; apply pool_keys; assumption.
Qed.

(** X10: in the overall tables the entry of a number [n] of 1..45 is the
    number of times [n] stands among the main numbers of the ledger (in the
    bonus table: among its bonus numbers), whatever else the ledger holds:
    other values add nothing to the entry of a pool number. *)
Theorem makeFreq_overall_counts (draws : list DrawRecord) (n : Z) :
  in_pool n ->
  let o := overall (makeFreq draws) in
  JsMap.get Z.eqb n (overall_main o) = Some (hits n (flat_map numbers draws)) /\
  JsMap.get Z.eqb n (overall_bonus o) = Some (hits n (map bonus draws)).
Proof.
  intros Hn. unfold makeFreq. cbn [overall overall_main overall_bonus].
  destruct (raw_counts draws n) as (_ & _ & Gm & Gb). cbv zeta in Gm, Gb.
  assert (Er : (1 <=? n) && (n <=? 45) = true).
  { unfold in_pool in Hn. apply andb_true_intro. split; apply Z.leb_le; lia. }
  rewrite Er in Gm, Gb. now split.
Qed.

Lemma makeFreq_overall_counts_witness :
  in_pool 16 /\
  let o := overall (makeFreq ledger_1_to_12) in
  JsMap.get Z.eqb 16 (overall_main o)
  = Some (hits 16 (flat_map numbers ledger_1_to_12)) /\
  JsMap.get Z.eqb 16 (overall_bonus o) = Some (hits 16 (map bonus ledger_1_to_12)).
Proof.
  assert (H : in_pool 16) by (unfold in_pool; lia).
  split; [exact H | exact (makeFreq_overall_counts ledger_1_to_12 16 H)].
Defined.

Lemma slice_last_suffix (old new : list DrawRecord) (win : nat) :
  (old = [] /\ (List.length new <= win)%nat) \/ List.length new = win ->
  slice_last win (old ++ new) = new.
Proof.
  unfold slice_last. intros [[-> Hle]|Hlen].
  - simpl. replace (List.length new - win)%nat with 0%nat by lia. reflexivity.
  - rewrite length_app. replace (List.length old + List.length new - win)%nat
      with (List.length old) by lia.
    rewrite skipn_app, skipn_all, Nat.sub_diag. reflexivity.
Qed.

(** X11: a window of [win] draws is computed from the last [win] draws of the
    ledger alone (from the whole ledger when it holds no more than [win]):
    its draw count, its dates [from] and [to] (null on an empty ledger) and
    the raw counts of the numbers 1..45 are those of these draws, whatever
    stands before them. *)
Theorem makeFreq_window_counts (old new : list DrawRecord) (win : nat) (w : Window)
    (n : Z) :
  In (win, w) (recent (makeFreq (old ++ new))) ->
  (old = [] /\ (List.length new <= win)%nat) \/ List.length new = win ->
  in_pool n ->
  w_drawCount w = List.length new /\
  w_from w = option_map date (hd_error new) /\
  w_to w = option_map date (hd_error (rev new)) /\
  JsMap.get Z.eqb n (w_main w) = Some (hits n (flat_map numbers new)) /\
  JsMap.get Z.eqb n (w_bonus w) = Some (hits n (map bonus new)).
Proof.
  intros Hin Hnew Hn.
  assert (E : w = fst (makeWindow (old ++ new) win)).
  { unfold makeFreq in Hin. cbn [recent] in Hin. rewrite map_map in Hin.
    apply in_map_iff in Hin. destruct Hin as (x & [= <- <-] & _). reflexivity. }
  subst w. unfold makeWindow. rewrite (slice_last_suffix old new win Hnew).
  cbn [fst w_drawCount w_from w_to w_main w_bonus].
  destruct (raw_counts new n) as (_ & _ & Gm & Gb). cbv zeta in Gm, Gb.
  assert (Er : (1 <=? n) && (n <=? 45) = true).
  { unfold in_pool in Hn. apply andb_true_intro. split; apply Z.leb_le; lia. }
  rewrite Er in Gm, Gb. repeat split; assumption.
Qed.

Lemma makeFreq_window_counts_witness :
  let old := firstn 2 ledger_1_to_12 in
  let new := skipn 2 ledger_1_to_12 in
  let w := fst (makeWindow (old ++ new) 10) in
  In (10%nat, w) (recent (makeFreq (old ++ new))) /\
  (old = [] /\ (List.length new <= 10)%nat \/ List.length new = 10%nat) /\
  in_pool 16 /\
  w_drawCount w = List.length new /\
  w_from w = option_map date (hd_error new) /\
  w_to w = option_map date (hd_error (rev new)) /\
  JsMap.get Z.eqb 16 (w_main w) = Some (hits 16 (flat_map numbers new)) /\
  JsMap.get Z.eqb 16 (w_bonus w) = Some (hits 16 (map bonus new)).
Proof.
  intros old new w.
  assert (H1 : In (10%nat, w) (recent (makeFreq (old ++ new)))) by (left; reflexivity).
  assert (H2 : old = [] /\ (List.length new <= 10)%nat \/ List.length new = 10%nat)
    by (right; reflexivity).
  assert (H3 : in_pool 16) by (unfold in_pool; lia).
  split; [exact H1|]. split; [exact H2|]. split; [exact H3|].
  exact (makeFreq_window_counts old new 10 w 16 H1 H2 H3).
Defined.

(** *** The decay-weighted tables *)

Lemma decay_weight (k : nat) :
  (0 < Qpower DECAY (Z.of_nat k) /\ Qpower DECAY (Z.of_nat k) <= 1)%Q.
Proof.
  split; [apply Qpower_0_lt; reflexivity|].
  induction k as [|k IH]; [discriminate|].
  rewrite Nat2Z.inj_succ, <- Z.add_1_r.
  rewrite Qpower_plus by discriminate.
  assert (H0 : (0 < Qpower DECAY (Z.of_nat k))%Q) by (apply Qpower_0_lt; reflexivity).
  change (Qpower DECAY 1) with DECAY.
  set (x := Qpower DECAY (Z.of_nat k)) in *.
  unfold DECAY. lra.
Qed.

Lemma iter_weight (h : nat) (w q0 : Q) :
  (Nat.iter h (fun v => v + w) q0 == q0 + inject_Z (Z.of_nat h) * w)%Q.
Proof.
  induction h as [|h IH].
  - simpl. unfold inject_Z. ring.
  - rewrite Nat.iter_succ, IH, Nat2Z.inj_succ, <- Z.add_1_r, inject_Z_plus.
    change (inject_Z 1) with 1%Q. ring.
Qed.

Lemma wsum_bounds (hs : list nat) :
  forall (k0 : nat) (q0 : Q),
    (q0 <= wsum k0 hs q0 /\
     wsum k0 hs q0 <= q0 + inject_Z (Z.of_nat (list_sum hs)))%Q /\
    (wsum k0 hs q0 == q0 <-> list_sum hs = 0%nat)%Q /\
    (forall h hs', hs = h :: hs' -> (0 < h)%nat ->
       (q0 + Qpower DECAY (Z.of_nat k0) <= wsum k0 hs q0)%Q).
Proof.
  induction hs as [|h hs IH]; intros k0 q0.
  - simpl. split; [split; [lra | unfold inject_Z; lra]|].
    split; [split; [reflexivity | intros _; reflexivity]|]. discriminate.
  - cbn [wsum]. change (list_sum (h :: hs)) with (h + list_sum hs)%nat.
    set (w := Qpower DECAY (Z.of_nat k0)).
    destruct (decay_weight k0) as [Hw0 Hw1]. fold w in Hw0, Hw1.
    pose proof (iter_weight h w q0) as Hq1.
    set (q1 := Nat.iter h (fun v => (v + w)%Q) q0) in *.
    destruct (IH (S k0) q1) as ((Hlo & Hhi) & Hz & _).
    assert (Hh : (0 <= inject_Z (Z.of_nat h))%Q)
      by (rewrite <- (Zle_Qle 0); lia).
    assert (Hhw : (0 <= inject_Z (Z.of_nat h) * w
                   /\ inject_Z (Z.of_nat h) * w <= inject_Z (Z.of_nat h))%Q) by nra.
    rewrite Nat2Z.inj_add, inject_Z_plus.
    split; [split; lra|]. split.
    + split.
      * intros E. assert (E1 : (inject_Z (Z.of_nat h) * w == 0)%Q) by lra.
        assert (E2 : (wsum (S k0) hs q1 == q1)%Q) by lra.
        apply Hz in E2.
        destruct h as [|h]; [exact E2|]. exfalso.
        assert (H1 : (1 <= inject_Z (Z.of_nat (S h)))%Q)
          by (rewrite <- (Zle_Qle 1); lia).
        nra.
      * intros E. assert (Eh : h = 0%nat) by lia. assert (Es : list_sum hs = 0%nat) by lia.
        apply Hz in Es. subst h. unfold q1 in *. simpl in *. lra.
    + intros h' hs' [= <- <-] Hpos.
      assert (H1 : (1 <= inject_Z (Z.of_nat h))%Q)
        by (rewrite <- (Zle_Qle 1); lia).
      nra.
Qed.

Lemma decayLoop_get (sel : list (Z * Q) * list (Z * Q) -> list (Z * Q))
    (nums : DrawRecord -> list num) (n : Z) :
  (forall w acc d,
     JsMap.get Z.eqb n (sel (addDraw Qplus w acc d)) =
     option_map (Nat.iter (List.length (filter (is_num n) (nums d)))
                   (fun v => (v + w)%Q))
       (JsMap.get Z.eqb n (sel acc))) ->
  forall (l : list DrawRecord) (k0 : nat) (acc : list (Z * Q) * list (Z * Q)),
    JsMap.get Z.eqb n (sel (decayLoop k0 l acc)) =
    option_map (wsum k0 (map (fun d => List.length (filter (is_num n) (nums d))) l))
      (JsMap.get Z.eqb n (sel acc)).
Proof.
  intros Hstep. induction l as [|d l IH]; intros k0 acc; simpl.
  - now destruct (JsMap.get Z.eqb n (sel acc)).
  - rewrite IH, Hstep. now destruct (JsMap.get Z.eqb n (sel acc)).
Qed.

Lemma list_sum_rev (l : list nat) : list_sum (rev l) = list_sum l.
Proof.
  induction l as [|x l IH]; simpl; [reflexivity|].
  rewrite list_sum_app, IH. simpl. lia.
Qed.

Lemma hits_sum (nums : DrawRecord -> list num) (n : Z) (l : list DrawRecord) :
  Z.of_nat (list_sum (map (fun d => List.length (filter (is_num n) (nums d))) l)) =
  hits n (flat_map nums l).
Proof.
  unfold hits. f_equal. induction l as [|d l IH]; simpl; [reflexivity|].
  now rewrite filter_app, length_app, IH.
Qed.

Lemma is_num_In (n : Z) (l : list num) :
  In (Fin n) l -> (0 < List.length (filter (is_num n) l))%nat.
Proof.
  induction l as [|x l IH]; simpl; [contradiction|].
  intros [->|Hin].
  - simpl. rewrite Z.eqb_refl. simpl. lia.
  - destruct (is_num n x); simpl; [lia | now apply IH].
Qed.

(** The weighted entry against the raw one, for one table of a window. *)
Lemma weighted_entry (sel : list (Z * Q) * list (Z * Q) -> list (Z * Q))
    (nums : DrawRecord -> list num) (n : Z) (slice : list DrawRecord) :
  in_pool n ->
  sel (initCounterFloat, initCounterFloat) = initCounterFloat ->
  (forall w acc d,
     JsMap.get Z.eqb n (sel (addDraw Qplus w acc d)) =
     option_map (Nat.iter (List.length (filter (is_num n) (nums d)))
                   (fun v => (v + w)%Q))
       (JsMap.get Z.eqb n (sel acc))) ->
  exists q,
    JsMap.get Z.eqb n
      (sel (decayLoop 0 (rev slice) (initCounterFloat, initCounterFloat))) = Some q /\
    (0 <= q /\ q <= inject_Z (hits n (flat_map nums slice)))%Q /\
    ((q == 0)%Q <-> hits n (flat_map nums slice) = 0) /\
    (forall d, hd_error (rev slice) = Some d -> In (Fin n) (nums d) -> (1 <= q)%Q).
Proof.
  intros Hn Hsel Hstep.
  rewrite (decayLoop_get sel nums n Hstep), Hsel.
  destruct (initCounter_zero 0%Q) as [_ G0]. fold initCounterFloat in G0.
  rewrite (G0 n Hn). cbn [option_map].
  set (hs := map (fun d => List.length (filter (is_num n) (nums d))) (rev slice)).
  destruct (wsum_bounds hs 0%nat 0%Q) as ((Hlo & Hhi) & Hz & Hfirst).
  assert (Hsum : Z.of_nat (list_sum hs) = hits n (flat_map nums slice)).
  { unfold hs. rewrite map_rev, list_sum_rev. apply hits_sum. }
  rewrite Hsum in Hhi.
  eexists. split; [reflexivity|].
  split; [split; [exact Hlo | now rewrite Qplus_0_l in Hhi]|]. split.
  - rewrite Hz, <- Hsum. lia.
  - intros d Hd Hin. subst hs.
    destruct (rev slice) as [|d0 rest]; [discriminate|].
    injection Hd as ->.
    specialize (Hfirst _ _ eq_refl (is_num_In n (nums d) Hin)).
    change (Qpower DECAY (Z.of_nat 0)) with 1%Q in Hfirst. lra.
Qed.

Lemma rev_slice_last_hd (win : nat) (older : list DrawRecord) (d : DrawRecord) :
  (0 < win)%nat -> hd_error (rev (slice_last win (older ++ [d]))) = Some d.
Proof.
  intros Hw. unfold slice_last.
  assert (Hl : (0 < List.length (older ++ [d]))%nat)
    by (rewrite length_app; simpl; lia).
  replace (List.length (older ++ [d]) - win)%nat
    with (List.length (older ++ [d]) - Nat.min win (List.length (older ++ [d])))%nat
    by lia.
  rewrite <- firstn_rev. rewrite rev_app_distr. simpl rev. simpl app.
  destruct (Nat.min win (List.length (older ++ [d]))) eqn:E; [lia | reflexivity].
Qed.

Lemma flat_map_singleton {A B : Type} (f : A -> B) (l : list A) :
  flat_map (fun x => [f x]) l = map f l.
Proof. induction l as [|x l IH]; simpl; [reflexivity | now rewrite IH]. Qed.

(** X12: in every window the decay-weighted table stands beside the raw one
    with the same dates and draw count, and for every number of the pool its
    weighted entry lies between 0 and the raw count, is 0 exactly when the
    raw count is 0, and is at least 1 when the number stands in the newest
    draw of the ledger (the bonus table likewise). *)
Theorem makeFreq_weighted_bounds (draws : list DrawRecord) (win : nat)
    (w : Window) (ww : WeightedWindow) (n : Z) :
  In (win, w) (recent (makeFreq draws)) ->
  In (win, ww) (recentWeighted (makeFreq draws)) ->
  in_pool n ->
  ww_from ww = w_from w /\ ww_to ww = w_to w /\
  ww_drawCount ww = w_drawCount w /\ ww_decay ww = DECAY /\
  exists (c : Z) (q : Q) (cb : Z) (qb : Q),
    JsMap.get Z.eqb n (w_main w) = Some c /\
    JsMap.get Z.eqb n (ww_main ww) = Some q /\
    JsMap.get Z.eqb n (w_bonus w) = Some cb /\
    JsMap.get Z.eqb n (ww_bonus ww) = Some qb /\
    (0 <= q /\ q <= inject_Z c)%Q /\ ((q == 0)%Q <-> c = 0) /\
    (0 <= qb /\ qb <= inject_Z cb)%Q /\ ((qb == 0)%Q <-> cb = 0) /\
    forall older d, draws = older ++ [d] ->
      (In (Fin n) (numbers d) -> (1 <= q)%Q) /\
      (bonus d = Fin n -> (1 <= qb)%Q).
Proof.
  intros Hw Hww Hn.
  assert (Hwin : In win RECENT_WINDOWS /\ w = fst (makeWindow draws win)).
  { unfold makeFreq in Hw. cbn [recent] in Hw. rewrite map_map in Hw.
    apply in_map_iff in Hw. destruct Hw as (x & [= <- <-] & Hx). now split. }
  assert (Eww : ww = snd (makeWindow draws win)).
  { unfold makeFreq in Hww. cbn [recentWeighted] in Hww. rewrite map_map in Hww.
    apply in_map_iff in Hww. destruct Hww as (x & [= <- <-] & _). reflexivity. }
  destruct Hwin as [Hwin Ew]. subst w ww. unfold makeWindow.
  cbn [fst snd ww_from ww_to ww_drawCount ww_decay w_from w_to w_drawCount
       w_main w_bonus ww_main ww_bonus].
  repeat (split; [reflexivity|]).
  set (slice := slice_last win draws).
  destruct (raw_counts slice n) as (_ & _ & Gm & Gb). cbv zeta in Gm, Gb.
  assert (Er : (1 <=? n) && (n <=? 45) = true).
  { unfold in_pool in Hn. apply andb_true_intro. split; apply Z.leb_le; lia. }
  rewrite Er in Gm, Gb.
  destruct (weighted_entry fst numbers n slice Hn eq_refl) as (q & Hq & Hqb & Hqz & Hq1).
  { intros w0 acc d. unfold addDraw. cbn [fst]. now apply addCounts_get. }
  destruct (weighted_entry snd (fun d => [bonus d]) n slice Hn eq_refl)
    as (qb & Hqb' & Hqbb & Hqbz & Hqb1).
  { intros w0 acc d. unfold addDraw. cbn [snd].
    rewrite (addCount_get Qplus _ _ _ n Hn). cbn [filter].
    destruct (JsMap.get Z.eqb n (snd acc)); [|reflexivity].
    now destruct (is_num n (bonus d)). }
  rewrite flat_map_singleton in Hqbb, Hqbz.
  exists (hits n (flat_map numbers slice)), q, (hits n (map bonus slice)), qb.
  repeat (split; [assumption|]).
  intros older d ->.
  assert (Hpos : (0 < win)%nat).
  { unfold RECENT_WINDOWS in Hwin. simpl in Hwin. lia. }
  pose proof (rev_slice_last_hd win older d Hpos) as Hhd. fold slice in Hhd.
  split.
  - intros Hin. exact (Hq1 d Hhd Hin).
  - intros Hb. apply (Hqb1 d Hhd). rewrite Hb. now left.
Qed.

Lemma makeFreq_weighted_bounds_witness :
  let w := fst (makeWindow ledger_1_to_3 10) in
  let ww := snd (makeWindow ledger_1_to_3 10) in
  In (10%nat, w) (recent (makeFreq ledger_1_to_3)) /\
  In (10%nat, ww) (recentWeighted (makeFreq ledger_1_to_3)) /\
  in_pool 16 /\
  ww_from ww = w_from w /\ ww_to ww = w_to w /\
  ww_drawCount ww = w_drawCount w /\ ww_decay ww = DECAY /\
  exists (c : Z) (q : Q) (cb : Z) (qb : Q),
    JsMap.get Z.eqb 16 (w_main w) = Some c /\
    JsMap.get Z.eqb 16 (ww_main ww) = Some q /\
    JsMap.get Z.eqb 16 (w_bonus w) = Some cb /\
    JsMap.get Z.eqb 16 (ww_bonus ww) = Some qb /\
    (0 <= q /\ q <= inject_Z c)%Q /\ ((q == 0)%Q <-> c = 0) /\
    (0 <= qb /\ qb <= inject_Z cb)%Q /\ ((qb == 0)%Q <-> cb = 0) /\
    forall older d, ledger_1_to_3 = older ++ [d] ->
      (In (Fin 16) (numbers d) -> (1 <= q)%Q) /\
      (bonus d = Fin 16 -> (1 <= qb)%Q).
Proof.
  assert (H1 : In (10%nat, fst (makeWindow ledger_1_to_3 10))
                 (recent (makeFreq ledger_1_to_3))) by (left; reflexivity).
  assert (H2 : In (10%nat, snd (makeWindow ledger_1_to_3 10))
                 (recentWeighted (makeFreq ledger_1_to_3))) by (left; reflexivity).
  assert (H3 : in_pool 16) by (unfold in_pool; lia).
  split; [exact H1|]. split; [exact H2|]. split; [exact H3|].
  exact (makeFreq_weighted_bounds ledger_1_to_3 10 _ _ 16 H1 H2 H3).
Defined.

(** ** The consensus resolver on any list of results *)

Lemma pickConsensusLatest_detail (rs : list SourceResult) (c : Consensus) :
  pickConsensusLatest rs = Some c ->
  detail c =
  mkDetail (map (fun e => (fst e, map sourceId (snd e))) (groupByNo rs))
           (map (fun e => (fst e, map sourceId (snd e)))
              (groupBySig (forNo (latestNo c) rs))).
Proof.
  destruct rs as [|r rs']; [discriminate|].
  set (rs := r :: rs'). assert (Hne : rs <> []) by discriminate.
  unfold pickConsensusLatest. cbv zeta.
  destruct (target_choice rs Hne) as (n & -> & -> & _ & _).
  destruct (Array_sort byCountDesc (groupBySig (forNo n rs)))
    as [|[s [|r0 rest]] tl]; try discriminate.
  intros [= <-]. reflexivity.
Qed.

Lemma detail_entries {K : Type} (eqb : K -> K -> bool)
    (eqb_spec : forall a b, reflect (a = b) (eqb a b))
    (kf : SourceResult -> K) (rs : list SourceResult) (k : K) (srcs : list string) :
  In (k, srcs) (map (fun e => (fst e, map sourceId (snd e))) (groupBy eqb kf rs)) <->
  srcs = map sourceId (membersOf eqb kf k rs) /\ srcs <> [].
Proof.
  split.
  - intros Hin. apply in_map_iff in Hin. destruct Hin as ([k' arr] & [= <- <-] & Hin).
    apply (group_entry eqb eqb_spec) in Hin. destruct Hin as [-> Hne]. cbn [snd fst].
    split; [reflexivity|]. destruct (membersOf eqb kf k' rs); [congruence | discriminate].
  - intros [-> Hne]. apply in_map_iff. exists (k, membersOf eqb kf k rs).
    split; [reflexivity|]. apply (get_In eqb eqb_spec).
    rewrite (group_get eqb eqb_spec).
    destruct (membersOf eqb kf k rs); [contradiction | reflexivity].
Qed.

(** X13: the resolver fails (the TypeError at [sigs[0]]) on the empty list
    only.  On any other list, whatever the sources and draw numbers, the
    consensus draw is the draw of one of the results and carries the chosen
    draw number; the reported count is at least 1 and at most the number of
    results for that draw number; and the detail lists, for every draw number
    seen (each once), the sources that reported it and, for every signature
    seen for the chosen draw number, the sources behind it, in input order. *)
Theorem pickConsensusLatest_sound (rs : list SourceResult) :
  (pickConsensusLatest rs = None <-> rs = []) /\
  forall c, pickConsensusLatest rs = Some c ->
    (exists r0, In r0 rs /\ consensusDraw c = draw r0) /\
    drwNo (consensusDraw c) = latestNo c /\
    (1 <= consensusCount c <= List.length (forNo (latestNo c) rs))%nat /\
    NoDup (map fst (detail_byNo (detail c))) /\
    (forall n srcs,
       In (n, srcs) (detail_byNo (detail c)) <->
       srcs = map sourceId (forNo n rs) /\ srcs <> []) /\
    (forall s srcs,
       In (s, srcs) (detail_bySig (detail c)) <->
       srcs = map sourceId (withSig s (forNo (latestNo c) rs)) /\ srcs <> []).
Proof.
  assert (Hsome : rs <> [] -> exists c, pickConsensusLatest rs = Some c).
  { intros Hne. destruct (pickConsensusLatest_general rs Hne) as (c & _ & _ & _ & Hc & _).
    now exists c. }
  split.
  - split.
    + intros Hnone. destruct rs as [|r rs']; [reflexivity|].
      destruct Hsome as [c Hc]; [discriminate | congruence].
    + intros ->. reflexivity.
  - intros c Hc.
    assert (Hne : rs <> []) by (intros ->; discriminate).
    destruct (pickConsensusLatest_general rs Hne)
      as (c' & r0 & l1 & l2 & Hc' & _ & _ & Hcands & Hdraw & _ & _ & Hcount & _).
    assert (c' = c) by congruence. subst c'.
    assert (Hr0 : In r0 (forNo (latestNo c) rs))
      by (rewrite Hcands; apply in_elt).
    pose proof Hr0 as Hr0'. unfold forNo in Hr0'. apply filter_In in Hr0'.
    destruct Hr0' as [Hin Hno]. apply Z.eqb_eq in Hno.
    pose proof (pickConsensusLatest_detail rs c Hc) as Hd.
    split; [exists r0; now split|].
    split; [now rewrite Hdraw|].
    split.
    { rewrite Hcount. split.
      - assert (H : In r0 (withSig (drawSig (draw r0)) (forNo (latestNo c) rs))).
        { unfold withSig. apply filter_In. split; [exact Hr0 | apply String.eqb_refl]. }
        destruct (withSig (drawSig (draw r0)) (forNo (latestNo c) rs));
          [contradiction | simpl; lia].
      - unfold withSig. apply filter_length_le. }
    rewrite Hd. cbn [detail_byNo detail_bySig].
    split.
    { rewrite map_map. cbn [fst].
      apply (group_keys_NoDup Z.eqb Z.eqb_spec (fun r => drwNo (draw r)) rs). }
    split.
    + intros n srcs.
      apply (detail_entries Z.eqb Z.eqb_spec (fun r => drwNo (draw r)) rs n srcs).
    + intros s srcs.
      apply (detail_entries String.eqb String.eqb_spec (fun r => drawSig (draw r))
               (forNo (latestNo c) rs) s srcs).
Qed.

(** ** The adapters and the two ways of asking the sources *)

Section AdapterFacts.
Variable StringToNumber : string -> num.
Variable World : Type.
Variable respond : Req -> World -> option value * World.
Variable settle : World -> nat * World.

Lemma collect_spec (items : list value) (acc : list DrawRecord) :
  collect StringToNumber items acc =
  if existsb (throws_on StringToNumber) items then TypeError
  else Ok (acc ++ valid_records StringToNumber items).
Proof.
  revert acc. induction items as [|it its IH]; intros acc.
  - simpl. now rewrite app_nil_r.
  - cbn [collect existsb]. unfold throws_on at 1, valid_records. cbn [flat_map].
    destruct (normalizeDraw StringToNumber it) as [[d|]|]; cbn [orb].
    + rewrite IH. destruct (existsb _ its); [reflexivity|].
      now rewrite <- app_assoc.
    + rewrite IH. reflexivity.
    + reflexivity.
Qed.

Lemma tryAllFromSource_log (src : Source) (st : St World) :
  exists resp,
    log (snd (tryAllFromSource StringToNumber World respond src st))
    = log st ++ [(ReqAll (src_id src), resp)] /\
    fst (tryAllFromSource StringToNumber World respond src st)
    = option_map (fun ds => (src_id src, ds)) (bulk_result StringToNumber resp).
Proof.
  unfold tryAllFromSource, bind, ret, fetchJsonGuarded.
  destruct (respond (ReqAll (src_id src)) (world st)) as [resp w1].
  exists resp. split; [reflexivity|]. cbn [fst].
  destruct resp as [[| | | | |[|it its]|]|]; try reflexivity.
  unfold bulk_result. rewrite collect_spec.
  destruct (existsb (throws_on StringToNumber) (it :: its)); [reflexivity|].
  cbn [app]. destruct (valid_records StringToNumber (it :: its)); reflexivity.
Qed.

Lemma tryLatestFromSource_log (src : Source) (st : St World) :
  exists resp,
    log (snd (tryLatestFromSource StringToNumber World respond src st))
    = log st ++ [(ReqLatest (src_id src), resp)] /\
    fst (tryLatestFromSource StringToNumber World respond src st)
    = option_map (mkResult (src_id src) (src_latest src))
        (attempt_result StringToNumber resp).
Proof.
  unfold tryLatestFromSource, bind, ret, fetchJsonGuarded.
  destruct (respond (ReqLatest (src_id src)) (world st)) as [resp w1].
  exists resp. split; [reflexivity|]. cbn [fst].
  destruct resp as [o|]; [|reflexivity]. simpl.
  destruct (normalizeDraw StringToNumber o) as [[d|]|]; reflexivity.
Qed.

Section OneFetch.
Context {R : Type}.
Variable f : Source -> M World (option R).
Variable req : Source -> Req.
Variable out : Source -> option value -> option R.
Hypothesis one_fetch : forall src st, exists resp,
  log (snd (f src st)) = log st ++ [(req src, resp)] /\ fst (f src st) = out src resp.

Lemma firstSuccess_priority (srcs : list Source) (st : St World) :
  exists (tr : list (Source * option value)) (rest : list Source),
    srcs = map fst tr ++ rest /\
    log (snd (firstSuccess World f srcs st))
    = log st ++ map (fun x => (req (fst x), snd x)) tr /\
    match fst (firstSuccess World f srcs st) with
    | None => rest = [] /\ Forall (fun x => out (fst x) (snd x) = None) tr
    | Some v =>
        exists before src resp,
          tr = before ++ [(src, resp)] /\ out src resp = Some v /\
          Forall (fun x => out (fst x) (snd x) = None) before
    end.
Proof.
  revert st. induction srcs as [|src srcs IH]; intros st.
  - exists [], []. simpl. rewrite app_nil_r. repeat split; constructor.
  - cbn [firstSuccess]. unfold bind.
    destruct (one_fetch src st) as (resp & Hlog & Hres).
    destruct (f src st) as [r st1]. cbn [fst snd] in Hlog, Hres. subst r.
    destruct (out src resp) as [v|] eqn:Eo.
    + exists [(src, resp)], srcs. cbn [ret fst snd map app].
      repeat split; [exact Hlog|].
      exists [], src, resp. repeat split; [exact Eo | constructor].
    + destruct (IH st1) as (tr & rest & -> & Hl & Hm).
      exists ((src, resp) :: tr), rest. split; [reflexivity|].
      split; [rewrite Hl, Hlog, <- app_assoc; reflexivity|].
      destruct (fst (firstSuccess World f (map fst tr ++ rest) st1)) as [v|].
      * destruct Hm as (before & src' & resp' & -> & Hv & Hb).
        exists ((src, resp) :: before), src', resp'.
        repeat split; [exact Hv | constructor; [exact Eo | exact Hb]].
      * destruct Hm as [-> Hb]. split; [reflexivity | constructor; [exact Eo | exact Hb]].
Qed.

Lemma mapM_one_fetch (order : list Source) (st : St World) :
  exists tr : list (Source * option value),
    map fst tr = order /\
    log (snd (mapM World (fun src => bind (f src) (fun r => ret (src, r))) order st))
    = log st ++ map (fun x => (req (fst x), snd x)) tr /\
    fst (mapM World (fun src => bind (f src) (fun r => ret (src, r))) order st)
    = map (fun x => (fst x, out (fst x) (snd x))) tr.
Proof.
  revert st. induction order as [|src order IH]; intros st.
  - exists []. simpl. now rewrite app_nil_r.
  - cbn [mapM]. unfold bind, ret.
    destruct (one_fetch src st) as (resp & Hlog & Hres).
    destruct (f src st) as [r st1]. cbn [fst snd] in Hlog, Hres. subst r.
    destruct (IH st1) as (tr & <- & Hl & Hs).
    unfold bind, ret in Hl, Hs.
    destruct (mapM World _ (map fst tr) st1) as [ys st2]. cbn [fst snd] in Hl, Hs |- *.
    exists ((src, resp) :: tr). split; [reflexivity|].
    split; [rewrite Hl, Hlog, <- app_assoc; reflexivity|].
    now rewrite Hs.
Qed.

Lemma allSettled_one_fetch (st : St World) :
  exists tr : list (Source * option value),
    Permutation (map fst tr) SOURCES /\
    log (snd (allSettled World settle f st))
    = log st ++ map (fun x => (req (fst x), snd x)) tr /\
    fst (allSettled World settle f st)
    = map (fun x => (fst x, out (fst x) (snd x))) tr.
Proof.
  unfold allSettled, nextOrder, bind.
  destruct (settle (world st)) as [k w1].
  destruct (mapM_one_fetch (pick_order k SOURCES) (mkSt w1 (log st)))
    as (tr & Ho & Hl & Hs).
  exists tr. split; [rewrite Ho; apply pick_order_perm|]. now split.
Qed.
End OneFetch.

(** X14: the bulk adapter makes one request, for the bulk file of its source.
    It fails exactly when the answer is not an array, or [normalizeDraw]
    throws on one of its items (which ends the adapter call, whatever the
    other items hold), or no item normalizes to a record.  Otherwise it
    returns, under the source's id, the records of the items that normalize
    (the items that normalize to [null] are skipped, duplicates are kept),
    in ascending order of draw number. *)
Theorem tryAllFromSource_result (src : Source) (st : St World) :
  let r := tryAllFromSource StringToNumber World respond src st in
  exists resp,
    log (snd r) = log st ++ [(ReqAll (src_id src), resp)] /\
    (fst r = None <->
     forall items, resp = Some (VArr items) ->
       (exists it, In it items /\ normalizeDraw StringToNumber it = TypeError) \/
       valid_records StringToNumber items = []) /\
    forall sid draws, fst r = Some (sid, draws) ->
      sid = src_id src /\
      draws <> [] /\
      StronglySorted (fun a b => drwNo a <= drwNo b) draws /\
      exists items,
        resp = Some (VArr items) /\
        (forall it, In it items -> normalizeDraw StringToNumber it <> TypeError) /\
        Permutation draws (valid_records StringToNumber items) /\
        (forall d, In d draws <->
                   exists it, In it items /\
                              normalizeDraw StringToNumber it = Ok (Some d)).
Proof.
  cbv zeta. destruct (tryAllFromSource_log src st) as (resp & Hlog & Hres).
  exists resp. split; [exact Hlog|]. rewrite Hres. clear Hlog Hres.
  assert (Hex : forall items,
            existsb (throws_on StringToNumber) items = true <->
            exists it, In it items /\ normalizeDraw StringToNumber it = TypeError).
  { intros items. rewrite existsb_exists. unfold throws_on.
    split; intros (it & Hin & Hit); exists it; (split; [exact Hin|]);
      destruct (normalizeDraw StringToNumber it); congruence. }
  unfold bulk_result. split.
  - split.
    + intros Hnone items ->.
      destruct (existsb (throws_on StringToNumber) items) eqn:Et;
        [left; now apply Hex|].
      right. destruct (valid_records StringToNumber items); [reflexivity | discriminate].
    + intros Hall. destruct resp as [[| | | | |items|]|]; try reflexivity.
      destruct (existsb (throws_on StringToNumber) items) eqn:Et; [reflexivity|].
      destruct (Hall items eq_refl) as [Ht|Hv].
      * apply Hex in Ht. congruence.
      * now rewrite Hv.
  - intros sid draws Hsome.
    destruct resp as [[| | | | |items|]|]; try discriminate.
    destruct (existsb (throws_on StringToNumber) items) eqn:Et; [discriminate|].
    destruct (valid_records StringToNumber items) as [|d0 ds] eqn:Ev; [discriminate|].
    injection Hsome as <- <-.
    split; [reflexivity|]. split.
    { apply (Array_sort_nonempty byDrwNo (d0 :: ds)). discriminate. }
    split; [apply (Array_sort_sorted byDrwNo drwNo byDrwNo_key (d0 :: ds))|].
    exists items. split; [reflexivity|]. split.
    { intros it Hin E. assert (Ht : existsb (throws_on StringToNumber) items = true)
        by (apply Hex; eauto). congruence. }
    rewrite Ev.
    split; [apply (Array_sort_perm byDrwNo (d0 :: ds))|].
    intros d. rewrite (Array_sort_In byDrwNo (d0 :: ds)), <- Ev. unfold valid_records.
    rewrite in_flat_map. split.
    + intros (it & Hit & Hd). exists it. split; [exact Hit|].
      destruct (normalizeDraw StringToNumber it) as [[d'|]|]; try contradiction.
      destruct Hd as [->|[]]. reflexivity.
    + intros (it & Hit & Hd). exists it. split; [exact Hit|]. rewrite Hd. now left.
Qed.

(** X15: the bulk fetch asks the sources in their priority order and stops at
    the first one whose bulk file delivers records: it returns that source's
    records under its id, every source asked before it failed, and no source
    after it is asked; it fails only after all sources were asked and failed. *)
Theorem fetchAllWithFallback_priority (st : St World) :
  let r := fetchAllWithFallback StringToNumber World respond st in
  exists (tr : list (Source * option value)) (rest : list Source),
    SOURCES = map fst tr ++ rest /\
    log (snd r) = log st ++ map (fun x => (ReqAll (src_id (fst x)), snd x)) tr /\
    match fst r with
    | None =>
        rest = [] /\ Forall (fun x => bulk_result StringToNumber (snd x) = None) tr
    | Some (sid, draws) =>
        exists before src resp,
          tr = before ++ [(src, resp)] /\ sid = src_id src /\
          bulk_result StringToNumber resp = Some draws /\
          Forall (fun x => bulk_result StringToNumber (snd x) = None) before
    end.
Proof.
  cbv zeta. unfold fetchAllWithFallback.
  destruct (firstSuccess_priority
              (tryAllFromSource StringToNumber World respond)
              (fun src => ReqAll (src_id src))
              (fun src resp => option_map (fun ds => (src_id src, ds))
                                 (bulk_result StringToNumber resp))
              tryAllFromSource_log SOURCES st) as (tr & rest & Hs & Hl & Hm).
  exists tr, rest. split; [exact Hs|]. split; [exact Hl|].
  assert (Hnone : forall l : list (Source * option value),
            Forall (fun x => option_map (fun ds => (src_id (fst x), ds))
                               (bulk_result StringToNumber (snd x)) = None) l ->
            Forall (fun x => bulk_result StringToNumber (snd x) = None) l).
  { intros l. apply Forall_impl. intros x Hx.
    destruct (bulk_result StringToNumber (snd x)); [discriminate | reflexivity]. }
  destruct (fst (firstSuccess World (tryAllFromSource StringToNumber World respond)
                   SOURCES st)) as [[sid draws]|].
  - destruct Hm as (before & src & resp & -> & Hv & Hb).
    exists before, src, resp. split; [reflexivity|].
    destruct (bulk_result StringToNumber resp) as [ds|]; [|discriminate].
    injection Hv as <- <-. repeat split. now apply Hnone.
  - destruct Hm as [-> Hb]. split; [reflexivity | now apply Hnone].
Qed.

Lemma settled_ids (tr : list (Source * option value))
    (url : Source -> string) :
  Permutation
    (map sourceId
       (successes (map (fun x => (fst x,
                          option_map (mkResult (src_id (fst x)) (url (fst x)))
                            (attempt_result StringToNumber (snd x)))) tr))
     ++ failures (map (fun x => (fst x,
                          option_map (mkResult (src_id (fst x)) (url (fst x)))
                            (attempt_result StringToNumber (snd x)))) tr))
    (map (fun x => src_id (fst x)) tr).
Proof.
  unfold successes, failures.
  induction tr as [|x tr IH]; [constructor|].
  cbn [map flat_map fst snd].
  destruct (attempt_result StringToNumber (snd x)) as [d|]; cbn [option_map app map sourceId].
  - now constructor.
  - apply Permutation_sym, Permutation_cons_app, Permutation_sym. exact IH.
Qed.

(** X16: the fan-out for the latest draw asks every source exactly once, in
    the order in which the requests settle.  A source whose answer normalizes
    to a record is listed among the results with its id and URL, any other
    source among the errors, so every source stands in exactly one of the
    two lists, and each list keeps the settle order. *)
Theorem fetchLatestAllSources_accounts (st : St World) :
  let r := fetchLatestAllSources StringToNumber World respond settle st in
  exists tr : list (Source * option value),
    Permutation (map fst tr) SOURCES /\
    log (snd r) = log st ++ map (fun x => (ReqLatest (src_id (fst x)), snd x)) tr /\
    fst (fst r) =
      flat_map (fun x => match attempt_result StringToNumber (snd x) with
                         | Some d => [mkResult (src_id (fst x)) (src_latest (fst x)) d]
                         | None => []
                         end) tr /\
    snd (fst r) =
      flat_map (fun x => match attempt_result StringToNumber (snd x) with
                         | Some _ => []
                         | None => [src_id (fst x)]
                         end) tr /\
    Permutation (map sourceId (fst (fst r)) ++ snd (fst r)) (map src_id SOURCES).
Proof.
  cbv zeta. unfold fetchLatestAllSources, bind, ret.
  destruct (allSettled_one_fetch
              (tryLatestFromSource StringToNumber World respond)
              (fun src => ReqLatest (src_id src))
              (fun src resp => option_map (mkResult (src_id src) (src_latest src))
                                 (attempt_result StringToNumber resp))
              tryLatestFromSource_log st) as (tr & Hp & Hl & Hs).
  destruct (allSettled World settle (tryLatestFromSource StringToNumber World respond) st)
    as [settled st1]. cbn [fst snd] in Hl, Hs |- *. subst settled.
  exists tr. split; [exact Hp|]. split; [exact Hl|].
  split; [|split].
  - unfold successes. rewrite flat_map_concat_map, map_map, <- flat_map_concat_map.
    apply flat_map_ext. intros x. cbn [snd].
    now destruct (attempt_result StringToNumber (snd x)).
  - unfold failures. rewrite flat_map_concat_map, map_map, <- flat_map_concat_map.
    apply flat_map_ext. intros x. cbn [snd fst].
    now destruct (attempt_result StringToNumber (snd x)).
  - eapply Permutation_trans; [apply settled_ids|].
    rewrite <- (map_map fst src_id). now apply Permutation_map.
Qed.
End AdapterFacts.

(** ** The tail validation and the written files *)

Lemma filter_head {A : Type} (P : A -> bool) (l : list A) (x : A) (rest : list A) :
  filter P l = x :: rest -> exists a b, l = a ++ x :: b /\ filter P b = rest.
Proof.
  induction l as [|y l IH]; simpl; [discriminate|].
  destruct (P y).
  - intros [= -> <-]. now exists [], l.
  - intros H. destruct (IH H) as (a & b & -> & Hb). now exists (y :: a), b.
Qed.

Lemma flat_map_option_cut {A B : Type} (g : A -> option B) (l : list A)
    (a : list B) (x : B) (rest : list B) :
  flat_map (fun t => match g t with Some r => [r] | None => [] end) l = a ++ x :: rest ->
  exists t1 t t2,
    l = t1 ++ t :: t2 /\ g t = Some x /\
    flat_map (fun t => match g t with Some r => [r] | None => [] end) t2 = rest.
Proof.
  revert a. induction l as [|t l IH]; intros a; simpl.
  - destruct a; discriminate.
  - destruct (g t) as [r|] eqn:Eg.
    + destruct a as [|r' a']; simpl.
      * intros [= -> <-]. now exists [], t, l.
      * intros [= -> H]. destruct (IH a' H) as (t1 & t' & t2 & -> & Ht & H2).
        now exists (t :: t1), t', t2.
    + simpl. intros H. destruct (IH a H) as (t1 & t' & t2 & -> & Ht & H2).
      now exists (t :: t1), t', t2.
Qed.

Lemma SOURCES_ids_NoDup : NoDup (map src_id SOURCES).
Proof.
  simpl. repeat constructor; simpl; intros H;
    repeat (destruct H as [H|H]; [discriminate H|]); exact H.
Qed.

Lemma consistent_degrade (reason : string) (h : Health) :
  report_consistent h -> report_consistent (degrade reason h).
Proof.
  intros (_ & H2 & H3). split; [|split; assumption].
  simpl. split; [discriminate|]. intros E. now destruct (reasons h).
Qed.

Lemma lastNoOf_attained (l : list DrawRecord) :
  l <> [] -> In (lastNoOf l) (map drwNo l).
Proof.
  destruct l as [|d ds]; [congruence|]. intros _. unfold lastNoOf.
  assert (H : forall (ds : list DrawRecord) (m : Z),
            fold_left Z.max (map drwNo ds) m = m
            \/ In (fold_left Z.max (map drwNo ds) m) (map drwNo ds)).
  { clear. induction ds as [|x ds IH]; intros m; simpl; [now left|].
    destruct (IH (Z.max m (drwNo x))) as [E|Hin]; [|right; now right].
    rewrite E. destruct (Z.max_spec m (drwNo x)) as [[_ ->]|[_ ->]]; auto. }
  simpl. destruct (H ds (drwNo d)) as [->|Hin]; auto.
Qed.

Lemma sorted_last_is_max (l : list DrawRecord) (x : DrawRecord) (pre : list DrawRecord) :
  StronglySorted (fun a b => drwNo a <= drwNo b) l -> rev l = x :: pre ->
  drwNo x = lastNoOf l.
Proof.
  intros Hs Hr.
  assert (Hin : In x l) by (apply in_rev; rewrite Hr; now left).
  assert (Hne : l <> []) by (intros ->; discriminate).
  pose proof (lastNoOf_ge l x Hin) as H1.
  pose proof (lastNoOf_attained l Hne) as H2.
  apply in_map_iff in H2. destruct H2 as (y & Hy & Hyin).
  pose proof (sorted_last_max drwNo l x pre Hs Hr y Hyin) as H3. lia.
Qed.

Section RunFacts.
Variable StringToNumber : string -> num.
Variable World : Type.
Variable respond : Req -> World -> option value * World.
Variable settle : World -> nat * World.

(** One round of the tail validation, case by case. *)
Lemma validateOne_cases (n : Z) (draws : list DrawRecord) (h : Health) (st : St World) :
  let r := validateOne StringToNumber World respond settle n draws h st in
  exists (tr : list (Source * option value)) (draws' : list DrawRecord) (h' : Health),
    Permutation (map fst tr) SOURCES /\
    log (snd r) = log st ++ map (fun x => (ReqDraw (src_id (fst x)) n, snd x)) tr /\
    fst r = Some (draws', h') /\
    attempted (validatedTail h') = S (attempted (validatedTail h)) /\
    latestFetchErrors h' = latestFetchErrors h /\
    used h' = used h /\
    (report_consistent h -> report_consistent h') /\
    ((draws' = draws /\
      patched (validatedTail h') = patched (validatedTail h))
     \/
     exists d t1 x1 t2 x2 t3,
       tr = t1 ++ x1 :: t2 ++ x2 :: t3 /\
       src_id (fst x1) <> src_id (fst x2) /\
       attempt_result StringToNumber (snd x1) = Some d /\
       attempt_result StringToNumber (snd x2) = Some d /\
       lookupNo n draws <> Some d /\
       draws' = mergeByNo draws [d] /\
       patched (validatedTail h') = S (patched (validatedTail h)) /\
       status h' = degraded).
Proof.
  cbv zeta. unfold validateOne, bind, ret.
  destruct (allSettled_one_fetch World settle
              (fun src => tryDrawFromSource StringToNumber World respond src n)
              (fun src => ReqDraw (src_id src) n)
              (fun src resp => option_map (mkResult (src_id src) (src_draw src n))
                                 (attempt_result StringToNumber resp))
              (fun src st => tryDrawFromSource_log StringToNumber World respond src n st)
              st) as (tr & Hp & Hl & Hs).
  destruct (allSettled World settle
              (fun src => tryDrawFromSource StringToNumber World respond src n) st)
    as [settled st1]. cbn [fst snd] in Hl, Hs |- *.
  set (h1 := set_validatedTail _ h).
  assert (C1 : report_consistent h -> report_consistent h1).
  { intros (A & B & C). split; [exact A|]. simpl. split; [exact B | lia]. }
  exists tr.
  set (g := fun x : Source * option value =>
              option_map (mkResult (src_id (fst x)) (src_draw (fst x) n))
                (attempt_result StringToNumber (snd x))).
  assert (Hf : successes settled
               = flat_map (fun t => match g t with Some r => [r] | None => [] end) tr).
  { subst settled. unfold successes.
    rewrite flat_map_concat_map, map_map, <- flat_map_concat_map. reflexivity. }
  destruct (Nat.ltb_spec (List.length (successes settled)) 2) as [Hlt|Hge].
  { exists draws, h1.
    refine (conj Hp (conj Hl (conj eq_refl (conj eq_refl (conj eq_refl
             (conj eq_refl (conj C1 _))))))).
    left. now split. }
  assert (Hne : successes settled <> []).
  { intros E. rewrite E in Hge. simpl in Hge. lia. }
  change (groupBySig (successes settled))
    with (groupBy String.eqb (fun r => drawSig (draw r)) (successes settled)).
  destruct (group_best String.eqb String.eqb_spec (fun r => drawSig (draw r))
              (successes settled) Hne)
    as (s0 & r0 & rest & tl & l1 & l2 & -> & _ & Hs0 & Hmem & _).
  destruct (Nat.ltb_spec (List.length (r0 :: rest)) 2) as [Hlt2|Hge2].
  { eexists draws, _.
    refine (conj Hp (conj Hl (conj eq_refl (conj eq_refl (conj eq_refl
             (conj eq_refl (conj _ _))))))).
    - intros Hc. apply consistent_degrade. auto.
    - left. now split. }
  destruct (match find (fun d => drwNo d =? n) draws with
            | Some local => negb (String.eqb (drawSig local) s0)
            | None => true
            end) eqn:Emis.
  2:{ exists draws, h1.
      refine (conj Hp (conj Hl (conj eq_refl (conj eq_refl (conj eq_refl
               (conj eq_refl (conj C1 _))))))).
      left. now split. }
  eexists (mergeByNo draws [draw r0]), _.
  refine (conj Hp (conj Hl (conj eq_refl (conj eq_refl (conj eq_refl
           (conj eq_refl (conj _ _))))))).
  { intros Hc. apply consistent_degrade. destruct Hc as (A & B & C).
    split; [exact A|]. unfold h1. simpl. split; lia. }
  right.
  destruct rest as [|r1 rest]; [simpl in Hge2; lia|].
  unfold membersOf in Hmem. symmetry in Hmem.
  destruct (filter_head _ _ _ _ Hmem) as (a & b & Hab & Hb).
  destruct (filter_head _ _ _ _ Hb) as (b1 & b2 & Hb12 & _).
  assert (Hsig1 : drawSig (draw r1) = s0).
  { assert (Hin : In r1 (filter (fun r => String.eqb (drawSig (draw r)) s0)
                           (successes settled))) by (rewrite Hmem; right; now left).
    apply filter_In in Hin. now apply String.eqb_eq. }
  assert (Hd : draw r1 = draw r0) by (apply drawSig_inj; congruence).
  rewrite Hf in Hab.
  destruct (flat_map_option_cut g tr a r0 b Hab) as (t1 & x1 & t2 & Htr & Hx1 & H2).
  rewrite Hb12 in H2.
  destruct (flat_map_option_cut g t2 b1 r1 b2 H2) as (t2a & x2 & t2b & Ht2 & Hx2 & _).
  exists (draw r0), t1, x1, t2a, x2, t2b.
  assert (Hnd : NoDup (map src_id (map fst tr))).
  { eapply Permutation_NoDup; [|exact SOURCES_ids_NoDup].
    apply Permutation_map, Permutation_sym, Hp. }
  subst t2. split; [exact Htr|].
  split.
  { rewrite Htr, !map_app in Hnd. cbn [map] in Hnd.
    apply NoDup_remove_2 in Hnd. intros E. apply Hnd.
    apply in_or_app. right. rewrite !map_app. cbn [map].
    apply in_or_app. right. left. now symmetry. }
  unfold g in Hx1, Hx2.
  destruct (attempt_result StringToNumber (snd x1)) as [d1|]; [|discriminate].
  destruct (attempt_result StringToNumber (snd x2)) as [d2|]; [|discriminate].
  injection Hx1 as <-. injection Hx2 as <-. cbn [draw] in Hd |- *.
  split; [reflexivity|]. split; [now rewrite Hd|].
  split; [|repeat split].
  unfold lookupNo. intros E. rewrite E in Emis.
  rewrite <- Hs0 in Emis. cbn [draw] in Emis. rewrite String.eqb_refl in Emis.
  discriminate.
Qed.

(** X17: one round of the tail validation asks every source once for the
    draw and counts one attempt.  It changes the ledger only by merging a
    record that two different sources delivered in this round and that the
    ledger does not hold under the validated number; it then counts one
    patch and degrades the run.  A single source never changes the ledger. *)
Theorem validateOne_patches_on_agreement (n : Z) (draws : list DrawRecord) (h : Health)
    (st : St World) :
  let r := validateOne StringToNumber World respond settle n draws h st in
  exists (tr : list (Source * option value)) (draws' : list DrawRecord) (h' : Health),
    Permutation (map fst tr) SOURCES /\
    log (snd r) = log st ++ map (fun x => (ReqDraw (src_id (fst x)) n, snd x)) tr /\
    fst r = Some (draws', h') /\
    attempted (validatedTail h') = S (attempted (validatedTail h)) /\
    ((draws' = draws /\
      patched (validatedTail h') = patched (validatedTail h))
     \/
     exists d t1 x1 t2 x2 t3,
       tr = t1 ++ x1 :: t2 ++ x2 :: t3 /\
       src_id (fst x1) <> src_id (fst x2) /\
       attempt_result StringToNumber (snd x1) = Some d /\
       attempt_result StringToNumber (snd x2) = Some d /\
       lookupNo n draws <> Some d /\
       draws' = mergeByNo draws [d] /\
       patched (validatedTail h') = S (patched (validatedTail h)) /\
       status h' = degraded).
Proof.
  cbv zeta. destruct (validateOne_cases n draws h st)
    as (tr & draws' & h' & H1 & H2 & H3 & H4 & _ & _ & _ & H5).
  exists tr, draws', h'. auto.
Qed.

Lemma same_account_refl (h : Health) : same_account h h.
Proof. split; [|split]; auto. Qed.

Lemma same_account_trans (h1 h2 h3 : Health) :
  same_account h1 h2 -> same_account h2 h3 -> same_account h1 h3.
Proof.
  intros (A1 & A2 & A3) (B1 & B2 & B3). split; [|split]; try congruence; auto.
Qed.

Lemma same_account_degrade (reason : string) (h : Health) :
  same_account h (degrade reason h).
Proof. split; [|split]; auto. apply consistent_degrade. Qed.

Lemma same_account_set_used (u : Used) (h : Health) : same_account h (set_used u h).
Proof. split; [|split]; auto. Qed.

Lemma draw_requests_app (es1 es2 : list (Req * option value)) :
  draw_requests es1 -> draw_requests es2 -> draw_requests (es1 ++ es2).
Proof. unfold draw_requests. intros. apply Forall_app. now split. Qed.

Lemma fetchDrawWithFallback_requests (n : Z) (st : St World) :
  exists es,
    log (snd (fetchDrawWithFallback StringToNumber World respond n st)) = log st ++ es /\
    draw_requests es.
Proof.
  unfold fetchDrawWithFallback.
  destruct (firstSuccess_priority World
              (fun src => tryDrawFromSource StringToNumber World respond src n)
              (fun src => ReqDraw (src_id src) n)
              (fun src resp => option_map (mkResult (src_id src) (src_draw src n))
                                 (attempt_result StringToNumber resp))
              (fun src st => tryDrawFromSource_log StringToNumber World respond src n st)
              SOURCES st) as (tr & rest & _ & Hl & _).
  eexists. split; [exact Hl|].
  unfold draw_requests. apply Forall_map.
  apply Forall_forall. intros x _. cbn [fst]. eauto.
Qed.

Lemma fillLoop_report (ns : list Z) (draws : list DrawRecord) (h : Health) (st : St World) :
  let r := fillLoop StringToNumber World respond ns draws h st in
  same_account h (snd (fst r)) /\
  exists es, log (snd r) = log st ++ es /\ draw_requests es.
Proof.
  cbv zeta. revert draws h st. induction ns as [|n ns IH]; intros draws h st.
  - simpl. split; [apply same_account_refl|].
    exists []. split; [now rewrite app_nil_r | constructor].
  - cbn [fillLoop]. unfold bind.
    destruct (fetchDrawWithFallback_requests n st) as (es1 & Hl1 & Hd1).
    destruct (fetchDrawWithFallback StringToNumber World respond n st) as [[g|] st1];
      cbn [fst snd] in Hl1.
    + destruct (IH (mergeByNo draws [draw g]) h st1) as (Ha & es2 & Hl2 & Hd2).
      split; [exact Ha|]. exists (es1 ++ es2).
      split; [rewrite Hl2, Hl1, app_assoc; reflexivity | now apply draw_requests_app].
    + cbn [ret fst snd]. split.
      * eapply same_account_trans; [apply same_account_degrade|].
        apply same_account_set_used.
      * now exists es1.
Qed.

Lemma incrementalFill_report (cur latestNo : Z) (draws : list DrawRecord) (h : Health)
    (st : St World) :
  let r := incrementalFill StringToNumber World respond cur latestNo draws h st in
  same_account h (snd (fst r)) /\
  exists es, log (snd r) = log st ++ es /\ draw_requests es.
Proof.
  cbv zeta. unfold incrementalFill. destruct (cur <? latestNo).
  - apply fillLoop_report.
  - simpl. split; [apply same_account_refl|].
    exists []. split; [now rewrite app_nil_r | constructor].
Qed.

Lemma validateLoop_report (ns : list Z) (draws : list DrawRecord) (h : Health)
    (st : St World) :
  let r := validateLoop StringToNumber World respond settle ns draws h st in
  exists draws' h' es,
    fst r = Some (draws', h') /\
    log (snd r) = log st ++ es /\ draw_requests es /\
    attempted (validatedTail h') = (attempted (validatedTail h) + List.length ns)%nat /\
    latestFetchErrors h' = latestFetchErrors h /\
    used h' = used h /\
    (report_consistent h -> report_consistent h') /\
    (StronglySorted (fun a b => drwNo a < drwNo b) draws ->
     StronglySorted (fun a b => drwNo a < drwNo b) draws').
Proof.
  cbv zeta. revert draws h st. induction ns as [|n ns IH]; intros draws h st.
  - exists draws, h, []. simpl. rewrite app_nil_r, Nat.add_0_r.
    refine (conj eq_refl (conj eq_refl (conj _ (conj eq_refl (conj eq_refl
             (conj eq_refl (conj (fun H => H) (fun H => H)))))))).
    constructor.
  - cbn [validateLoop]. unfold bind.
    destruct (validateOne_cases n draws h st)
      as (tr & d1 & h1 & _ & Hl1 & Hr1 & Ha1 & He1 & Hu1 & Hc1 & Hcase).
    destruct (validateOne StringToNumber World respond settle n draws h st) as [r1 st1].
    cbn [fst snd] in Hl1, Hr1. subst r1.
    destruct (IH d1 h1 st1) as (d2 & h2 & es2 & Hr2 & Hl2 & Hd2 & Ha2 & He2 & Hu2 & Hc2 & Hs2).
    exists d2, h2, (map (fun x => (ReqDraw (src_id (fst x)) n, snd x)) tr ++ es2).
    split; [exact Hr2|].
    split; [rewrite Hl2, Hl1, app_assoc; reflexivity|].
    split.
    { apply draw_requests_app; [|exact Hd2]. unfold draw_requests.
      apply Forall_map, Forall_forall. intros x _. cbn [fst]. eauto. }
    split; [rewrite Ha2, Ha1; simpl; lia|].
    split; [congruence|]. split; [congruence|]. split; [auto|].
    intros Hs. apply Hs2.
    destruct Hcase as [[-> _]|(d & _ & _ & _ & _ & _ & _ & _ & _ & _ & _ & -> & _)];
      [exact Hs | apply mergeByNo_sorted].
Qed.

Lemma bulk_requests (st : St World) :
  exists es,
    log (snd (fetchAllWithFallback StringToNumber World respond st)) = log st ++ es /\
    es <> [] /\
    Forall (fun e => exists sid, fst e = ReqAll sid) es.
Proof.
  unfold fetchAllWithFallback.
  destruct (firstSuccess_priority World
              (tryAllFromSource StringToNumber World respond)
              (fun src => ReqAll (src_id src))
              (fun src resp => option_map (fun ds => (src_id src, ds))
                                 (bulk_result StringToNumber resp))
              (tryAllFromSource_log StringToNumber World respond) SOURCES st)
    as (tr & rest & Hs & Hl & Hm).
  eexists. split; [exact Hl|]. split.
  - destruct tr as [|x tr]; [|discriminate]. exfalso.
    destruct (fst (firstSuccess World (tryAllFromSource StringToNumber World respond)
                     SOURCES st)).
    + destruct Hm as (before & src & resp & E & _). now destruct before.
    + destruct Hm as [-> _]. discriminate Hs.
  - apply Forall_map, Forall_forall. intros x _. cbn [fst]. eauto.
Qed.

Lemma chooseStrategy_report (existing : list DrawRecord) (existingLastNo : Z)
    (c : Consensus) (h : Health) (st : St World) :
  let r := chooseStrategy StringToNumber World respond existing existingLastNo c h st in
  same_account h (snd (fst r)) /\
  In (mode (used (snd (fst r))))
     [Some "bootstrap-all"; Some "incremental"; Some "incremental-from-local";
      Some "incremental-from-scratch"] /\
  exists es,
    log (snd r) = log st ++ es /\
    Forall (fun e => exists sid, fst e = ReqAll sid) es /\
    (es <> [] <->
     existingLastNo = 0 \/ BOOTSTRAP_GAP_THRESHOLD < latestNo c - existingLastNo).
Proof.
  cbv zeta. unfold chooseStrategy, bind, ret.
  assert (Hfail : forall h0, same_account h h0 ->
            same_account h (snd (bootstrapFailed existing existingLastNo h0)) /\
            In (mode (used (snd (bootstrapFailed existing existingLastNo h0))))
               [Some "bootstrap-all"; Some "incremental"; Some "incremental-from-local";
                Some "incremental-from-scratch"]).
  { intros h0 H0. unfold bootstrapFailed.
    destruct (0 <? existingLastNo); cbn [snd]; split;
      try (eapply same_account_trans; [exact H0|];
           eapply same_account_trans; [apply same_account_degrade|];
           apply same_account_set_used);
      simpl; auto. }
  destruct ((existingLastNo =? 0) || (BOOTSTRAP_GAP_THRESHOLD <? latestNo c - existingLastNo))
    eqn:Eb.
  - assert (Hb : existingLastNo = 0 \/ BOOTSTRAP_GAP_THRESHOLD < latestNo c - existingLastNo).
    { apply orb_true_iff in Eb. destruct Eb as [E|E];
        [left; now apply Z.eqb_eq | right; now apply Z.ltb_lt]. }
    destruct (bulk_requests st) as (es & Hl & Hne & Hall).
    assert (Hlog : exists es0,
              log (snd (fetchAllWithFallback StringToNumber World respond st)) = log st ++ es0 /\
              Forall (fun e => exists sid, fst e = ReqAll sid) es0 /\
              (es0 <> [] <->
               existingLastNo = 0 \/ BOOTSTRAP_GAP_THRESHOLD < latestNo c - existingLastNo)).
    { exists es. repeat split; auto. }
    clear es Hl Hne Hall.
    destruct (fetchAllWithFallback StringToNumber World respond st) as [[[sid draws]|] st1];
      cbn [fst snd] in Hlog |- *.
    + destruct (rev draws) as [|last pre].
      * destruct (Hfail (set_used (mkUsed (Some "bootstrap-all") (Some sid)
                           (Some (String.append "gap="
                                    (decimal (latestNo c - existingLastNo))))) h))
          as [A B]; [apply same_account_set_used|]. auto.
      * destruct (negb (drwNo last =? latestNo c)); cbn [fst snd].
        { split; [|split; [simpl; auto | exact Hlog]].
          eapply same_account_trans; [apply same_account_set_used|].
          apply same_account_degrade. }
        destruct (negb (String.eqb (drawSig last) (drawSig (consensusDraw c))));
          cbn [fst snd].
        { split; [|split; [simpl; auto | exact Hlog]].
          eapply same_account_trans; [apply same_account_set_used|].
          apply same_account_degrade. }
        split; [apply same_account_set_used|]. split; [simpl; auto | exact Hlog].
    + destruct (Hfail h (same_account_refl h)) as [A B]. auto.
  - cbn [fst snd]. split; [apply same_account_set_used|]. split; [simpl; auto|].
    exists []. split; [now rewrite app_nil_r|]. split; [constructor|].
    apply orb_false_iff in Eb. destruct Eb as [E1 E2].
    apply Z.eqb_neq in E1. apply Z.ltb_ge in E2.
    split; [congruence | lia].
Qed.

(** The stages of a run that got a latest draw from some source. *)
Lemma main_stages (existing : list DrawRecord) (st st1 : St World)
    (results : list SourceResult) (errors : list string) :
  fetchLatestAllSources StringToNumber World respond settle st = (results, errors, st1) ->
  results <> [] ->
  exists c,
    pickConsensusLatest results = Some c /\
    let h0 := if agreed c
              then set_latestConsensus c (set_latestFetchErrors errors health0)
              else degrade "latest_consensus_not_2of3"
                     (set_latestConsensus c (set_latestFetchErrors errors health0)) in
    let s1 := chooseStrategy StringToNumber World respond existing (lastNoOf existing)
                c h0 st1 in
    let s2 := incrementalFill StringToNumber World respond (lastNoOf (fst (fst s1)))
                (latestNo c) (fst (fst s1)) (snd (fst s1)) (snd s1) in
    let d3 := mergeByNo (fst (fst s2)) [consensusDraw c] in
    let s3 := validateLoop StringToNumber World respond settle
                (Z_range (Z.max 1 (lastNoOf d3 - VALIDATE_LAST_K + 1)) (lastNoOf d3))
                d3 (snd (fst s2)) (snd s2) in
    exists d4 h4,
      fst s3 = Some (d4, h4) /\
      main StringToNumber World respond settle existing st
      = (finalize d4 (latestNo c) h4, snd s3).
Proof.
  intros Elatest Hne. unfold main, bind. rewrite Elatest.
  destruct results as [|r rs]; [congruence|].
  destruct (pickConsensusLatest_general (r :: rs) Hne) as (c & _ & _ & _ & Hc & _).
  rewrite Hc. exists c. split; [reflexivity|]. cbv zeta.
  set (h0 := if agreed c
             then set_latestConsensus c (set_latestFetchErrors errors health0)
             else degrade "latest_consensus_not_2of3"
                    (set_latestConsensus c (set_latestFetchErrors errors health0))).
  destruct (chooseStrategy StringToNumber World respond existing (lastNoOf existing) c h0 st1)
    as [[d1 h1] st2]. cbn [fst snd].
  destruct (incrementalFill StringToNumber World respond (lastNoOf d1) (latestNo c) d1 h1 st2)
    as [[d2 h2] st3]. cbn [fst snd].
  set (d3 := mergeByNo d2 [consensusDraw c]).
  destruct (validateLoop_report
              (Z_range (Z.max 1 (lastNoOf d3 - VALIDATE_LAST_K + 1)) (lastNoOf d3))
              d3 h2 st3) as (d4 & h4 & es & E4 & _).
  destruct (validateLoop StringToNumber World respond settle
              (Z_range (Z.max 1 (lastNoOf d3 - VALIDATE_LAST_K + 1)) (lastNoOf d3))
              d3 h2 st3) as [r4 st4].
  cbn [fst snd] in E4 |- *. subst r4. exists d4, h4. split; reflexivity.
Qed.

Lemma Z_range_length (lo hi : Z) : List.length (Z_range lo hi) = Z.to_nat (hi - lo + 1).
Proof. unfold Z_range. now rewrite length_map, length_seq. Qed.

Lemma finalize_written (draws : list DrawRecord) (latestNo : Z) (h : Health)
    (file : list DrawRecord) (p : Payload) :
  finalize draws latestNo h = Written file p ->
  file = Array_sort byDrwNo draws /\
  hd_error (rev file) = Some (lastDraw p) /\
  p = mkPayload SCHEMA_VERSION (health p) (lastDraw p) (List.length file)
        (overall (makeFreq file)) (recent (makeFreq file))
        (recentWeighted (makeFreq file)) /\
  same_account h (health p) /\ used (health p) = used h.
Proof.
  unfold finalize. destruct (rev (Array_sort byDrwNo draws)) as [|last pre] eqn:Er;
    [discriminate|].
  unfold writeOut. intros [= <- <-]. cbn [health lastDraw].
  split; [reflexivity|]. split; [now rewrite Er|]. split; [reflexivity|].
  destruct (drwNo last <? latestNo);
    [split; [apply same_account_degrade | reflexivity]
    | split; [apply same_account_refl | reflexivity]].
Qed.

(** What every written pair of files satisfies, by the way the run went. *)
Lemma main_written (existing : list DrawRecord) (st st1 : St World)
    (results : list SourceResult) (errors : list string)
    (file : list DrawRecord) (p : Payload) :
  fetchLatestAllSources StringToNumber World respond settle st = (results, errors, st1) ->
  fst (main StringToNumber World respond settle existing st) = Written file p ->
  (file <> [] /\
   StronglySorted (fun a b => drwNo a <= drwNo b) file /\
   (results <> [] -> StronglySorted (fun a b => drwNo a < drwNo b) file) /\
   (results = [] -> Permutation file existing) /\
   hd_error (rev file) = Some (lastDraw p) /\
   drwNo (lastDraw p) = lastNoOf file /\
   p = mkPayload SCHEMA_VERSION (health p) (lastDraw p) (List.length file)
         (overall (makeFreq file)) (recent (makeFreq file))
         (recentWeighted (makeFreq file))) /\
  (report_consistent (health p) /\
   (attempted (validatedTail (health p)) <= 5)%nat /\
   latestFetchErrors (health p) = errors /\
   In (mode (used (health p)))
      [Some "local-only"; Some "bootstrap-all"; Some "incremental";
       Some "incremental-from-local"; Some "incremental-from-scratch"] /\
   (results = [] <-> mode (used (health p)) = Some "local-only")).
Proof.
  intros Elatest Ho.
  assert (Hshape : forall draws,
            file = Array_sort byDrwNo draws ->
            hd_error (rev file) = Some (lastDraw p) ->
            file <> [] /\
            StronglySorted (fun a b => drwNo a <= drwNo b) file /\
            drwNo (lastDraw p) = lastNoOf file).
  { intros draws Hf Hhd.
    assert (Hs : StronglySorted (fun a b => drwNo a <= drwNo b) file)
      by (rewrite Hf; apply Array_sort_sorted; exact byDrwNo_key).
    split; [intros E; rewrite E in Hhd; discriminate|]. split; [exact Hs|].
    destruct (rev file) as [|x pre] eqn:Er; [discriminate|].
    injection Hhd as <-. now apply (sorted_last_is_max file x pre). }
  destruct results as [|r rs].
  - (* no source delivered a latest draw *)
    pose proof (main_without_latest StringToNumber World respond settle existing
                  st st1 errors Elatest) as H.
    destruct existing as [|d ds].
    { destruct H as (msg & H). rewrite H in Ho. discriminate. }
    clear H. unfold main, bind in Ho. rewrite Elatest in Ho. cbn [fst ret] in Ho.
    unfold localOnly in Ho.
    remember (Array_sort byDrwNo (d :: ds)) as sorted eqn:Es.
    destruct (rev sorted) as [|last pre] eqn:Er; [discriminate|].
    unfold writeOut in Ho. injection Ho as Hfile Hp. subst file.
    assert (Hl : lastDraw p = last) by (now rewrite <- Hp).
    assert (Hh : health p =
                 set_used (mkUsed (Some "local-only") (Some "local-cache")
                             (Some "No latest reachable"))
                   (degrade "latest_unavailable_all_sources_using_local_cache"
                      (set_latestFetchErrors errors health0)))
      by (now rewrite <- Hp).
    destruct (Hshape (d :: ds) Es) as (A & B & C); [now rewrite Er, Hl|].
    split.
    + split; [exact A|]. split; [exact B|]. split; [congruence|].
      split; [intros _; rewrite Es; apply Array_sort_perm|].
      split; [now rewrite Er, Hl|]. split; [exact C|].
      rewrite <- Hp at 1. now rewrite Hh, Hl.
    + rewrite Hh. split.
      { split; [|split; simpl; lia]. simpl. split; discriminate. }
      split; [simpl; lia|]. split; [reflexivity|]. split; [simpl; auto|].
      split; reflexivity.
  - (* a latest draw was delivered *)
    destruct (main_stages existing st st1 (r :: rs) errors Elatest)
      as (c & Hc & Hst); [discriminate|]. cbv zeta in Hst.
    set (h0 := if agreed c
               then set_latestConsensus c (set_latestFetchErrors errors health0)
               else degrade "latest_consensus_not_2of3"
                      (set_latestConsensus c (set_latestFetchErrors errors health0))) in *.
    assert (C0 : report_consistent h0 /\ validatedTail h0 = mkTail 0 0 0
                 /\ latestFetchErrors h0 = errors).
    { unfold h0. destruct (agreed c).
      - split; [|split; reflexivity]. split; [|split; simpl; lia]. simpl. tauto.
      - split; [|split; reflexivity]. apply consistent_degrade.
        split; [|split; simpl; lia]. simpl. tauto. }
    destruct C0 as (C0 & T0 & E0).
    destruct (chooseStrategy_report existing (lastNoOf existing) c h0 st1)
      as ((T1 & E1 & C1) & M1 & _).
    pose proof (chooseStrategy_modes StringToNumber World respond existing
                  (lastNoOf existing) c h0 st1) as _.
    destruct (chooseStrategy StringToNumber World respond existing (lastNoOf existing)
                c h0 st1) as [[d1 h1] st2]. cbn [fst snd] in *.
    destruct (incrementalFill_report (lastNoOf d1) (latestNo c) d1 h1 st2)
      as ((T2 & E2 & C2) & _).
    pose proof (incrementalFill_carries StringToNumber World respond
                  (lastNoOf d1) (latestNo c) d1 h1 st2) as (_ & _ & M2 & _).
    destruct (incrementalFill StringToNumber World respond (lastNoOf d1) (latestNo c)
                d1 h1 st2) as [[d2 h2] st3]. cbn [fst snd] in *.
    set (d3 := mergeByNo d2 [consensusDraw c]) in *.
    destruct (validateLoop_report
                (Z_range (Z.max 1 (lastNoOf d3 - VALIDATE_LAST_K + 1)) (lastNoOf d3))
                d3 h2 st3) as (d4' & h4' & es & E4 & _ & _ & A4 & F4 & U4 & C4 & S4).
    destruct Hst as (d4 & h4 & E4' & Hmain).
    rewrite E4' in E4. injection E4 as <- <-.
    rewrite Hmain in Ho. cbn [fst] in Ho.
    destruct (finalize_written d4 (latestNo c) h4 file p Ho)
      as (Hf & Hhd & Hp & (T5 & E5 & C5) & U5).
    destruct (Hshape d4 Hf Hhd) as (A & B & C).
    split.
    + split; [exact A|]. split; [exact B|]. split.
      { intros _. apply sorted_strict; [exact B|].
        rewrite Hf. eapply Permutation_NoDup.
        - apply Permutation_map, Permutation_sym, Array_sort_perm.
        - apply strictly_sorted_NoDup, S4, mergeByNo_sorted. }
      split; [discriminate|]. split; [exact Hhd|]. split; [exact C | exact Hp].
    + split; [auto|]. split.
      { rewrite T5, A4, T2, T1, T0. cbn [attempted]. rewrite Z_range_length.
        unfold VALIDATE_LAST_K. lia. }
      split; [congruence|].
      assert (Hm : mode (used (health p)) = mode (used h1)) by congruence.
      rewrite Hm. split.
      { right. exact M1. }
      split; [discriminate|]. intros E. exfalso. rewrite E in M1.
      simpl in M1. repeat (destruct M1 as [M1|M1]; [discriminate M1|]). exact M1.
Qed.

Lemma fetchLatest_log (st : St World) :
  exists tr : list (Source * option value),
    Permutation (map fst tr) SOURCES /\
    log (snd (fetchLatestAllSources StringToNumber World respond settle st))
    = log st ++ map (fun x => (ReqLatest (src_id (fst x)), snd x)) tr.
Proof.
  unfold fetchLatestAllSources, bind, ret.
  destruct (allSettled_one_fetch World settle
              (tryLatestFromSource StringToNumber World respond)
              (fun src => ReqLatest (src_id src))
              (fun src resp => option_map (mkResult (src_id src) (src_latest src))
                                 (attempt_result StringToNumber resp))
              (tryLatestFromSource_log StringToNumber World respond) st)
    as (tr & Hp & Hl & _).
  destruct (allSettled World settle (tryLatestFromSource StringToNumber World respond) st)
    as [settled st1]. exists tr. now split.
Qed.

(** X18: whenever a run writes its files, the ledger is not empty and in
    ascending order of draw number, strictly (one record per draw number)
    when some source delivered a latest draw, and a rearrangement of the
    loaded ledger otherwise; the statistics document names the last record
    of the ledger as last draw, its number is the highest of the ledger, the
    total is the length of the ledger, and the tables are those of exactly
    this ledger under schema version 3. *)
Theorem written_ledger_canonical (existing : list DrawRecord) (w : World)
    (file : list DrawRecord) (p : Payload) :
  let latest := fst (fetchLatestAllSources StringToNumber World respond settle (mkSt w [])) in
  fst (run StringToNumber World respond settle existing w) = Written file p ->
  file <> [] /\
  StronglySorted (fun a b => drwNo a <= drwNo b) file /\
  (fst latest <> [] -> StronglySorted (fun a b => drwNo a < drwNo b) file) /\
  (fst latest = [] -> Permutation file existing) /\
  hd_error (rev file) = Some (lastDraw p) /\
  drwNo (lastDraw p) = lastNoOf file /\
  totalDraws p = List.length file /\
  schemaVersion p = 3 /\
  p_overall p = overall (makeFreq file) /\
  p_recent p = recent (makeFreq file) /\
  p_recentWeighted p = recentWeighted (makeFreq file).
Proof.
  intros latest Ho. subst latest. unfold run in Ho.
  destruct (fetchLatestAllSources StringToNumber World respond settle (mkSt w []))
    as [[results errors] st1] eqn:E.
  destruct (main_written existing _ _ _ _ file p E Ho)
    as ((A & B & C & D & F & G & Hp) & _).
  cbn [fst]. rewrite Hp. cbn [totalDraws schemaVersion p_overall p_recent
                              p_recentWeighted lastDraw].
  rewrite Hp in F, G. cbn [lastDraw] in F, G.
  repeat (split; [assumption || reflexivity|]). reflexivity.
Qed.

End RunFacts.

Lemma written_ledger_canonical_witness :
  exists file p,
    fst (run StringToNumber_dec unit (scripted steady_network) in_source_order
           ledger_1_to_3 tt) = Written file p /\
    (file <> [] /\
     StronglySorted (fun a b => drwNo a <= drwNo b) file /\
     (fst (fst (fetchLatestAllSources StringToNumber_dec unit (scripted steady_network)
                  in_source_order (mkSt tt []))) <> [] ->
      StronglySorted (fun a b => drwNo a < drwNo b) file) /\
     (fst (fst (fetchLatestAllSources StringToNumber_dec unit (scripted steady_network)
                  in_source_order (mkSt tt []))) = [] ->
      Permutation file ledger_1_to_3) /\
     hd_error (rev file) = Some (lastDraw p) /\
     drwNo (lastDraw p) = lastNoOf file /\
     totalDraws p = List.length file /\
     schemaVersion p = 3 /\
     p_overall p = overall (makeFreq file) /\
     p_recent p = recent (makeFreq file) /\
     p_recentWeighted p = recentWeighted (makeFreq file)).
Proof.
  eexists _, _. split; [vm_compute; reflexivity|].
  apply (written_ledger_canonical StringToNumber_dec unit (scripted steady_network)
           in_source_order ledger_1_to_3 tt).
  vm_compute. reflexivity.
Defined.

Section ReportFacts.
Variable StringToNumber : string -> num.
Variable World : Type.
Variable respond : Req -> World -> option value * World.
Variable settle : World -> nat * World.

(** X19: the health report of every written statistics document is coherent:
    its status is nominal exactly when it lists no reason; the tail
    validation counted at most 5 rounds, and every mismatch it counted was
    patched; the fetch errors are those of the fan-out for the latest draw;
    and the mode is one of the five the run can take, [local-only] exactly
    when no source delivered a latest draw. *)
Theorem written_report_coherent (existing : list DrawRecord) (w : World)
    (file : list DrawRecord) (p : Payload) :
  let latest := fst (fetchLatestAllSources StringToNumber World respond settle (mkSt w [])) in
  fst (run StringToNumber World respond settle existing w) = Written file p ->
  (status (health p) = ok <-> reasons (health p) = []) /\
  patched (validatedTail (health p)) = mismatched (validatedTail (health p)) /\
  (mismatched (validatedTail (health p)) <= attempted (validatedTail (health p)))%nat /\
  (attempted (validatedTail (health p)) <= 5)%nat /\
  latestFetchErrors (health p) = snd latest /\
  In (mode (used (health p)))
     [Some "local-only"; Some "bootstrap-all"; Some "incremental";
      Some "incremental-from-local"; Some "incremental-from-scratch"] /\
  (fst latest = [] <-> mode (used (health p)) = Some "local-only").
Proof.
  intros latest Ho. subst latest. unfold run in Ho.
  destruct (fetchLatestAllSources StringToNumber World respond settle (mkSt w []))
    as [[results errors] st1] eqn:E.
  destruct (main_written StringToNumber World respond settle existing _ _ _ _ file p E Ho)
    as (_ & ((A & B & C) & D & F & G & H)).
  cbn [fst snd]. repeat (split; [assumption|]). exact H.
Qed.

(** X20: when no source delivers a latest draw and a ledger was loaded, the
    run makes no request beyond the three for the latest draw; it writes the
    loaded ledger in ascending order of draw number, nothing added and
    nothing dropped, and reports a degraded [local-only] run with the one
    reason, no consensus, no validation round and every source among the
    fetch errors. *)
Theorem run_local_only (existing : list DrawRecord) (w : World) :
  let latest := fst (fetchLatestAllSources StringToNumber World respond settle (mkSt w [])) in
  let r := run StringToNumber World respond settle existing w in
  fst latest = [] -> existing <> [] ->
  exists p,
    fst r = Written (Array_sort byDrwNo existing) p /\
    Permutation (Array_sort byDrwNo existing) existing /\
    status (health p) = degraded /\
    reasons (health p) = ["latest_unavailable_all_sources_using_local_cache"] /\
    used (health p) = mkUsed (Some "local-only") (Some "local-cache")
                        (Some "No latest reachable") /\
    latestConsensus (health p) = None /\
    validatedTail (health p) = mkTail 0 0 0 /\
    Permutation (latestFetchErrors (health p)) (map src_id SOURCES) /\
    Permutation (map fst (log (snd r)))
      (map (fun src => ReqLatest (src_id src)) SOURCES).
Proof.
  intros latest r Hnone Hne. subst latest r. unfold run.
  destruct (fetchLatest_log StringToNumber World respond settle (mkSt w []))
    as (tr & Hp & Hl).
  pose proof (fetchLatestAllSources_none StringToNumber World respond settle (mkSt w []))
    as Herr. cbv zeta in Herr.
  unfold main, bind.
  destruct (fetchLatestAllSources StringToNumber World respond settle (mkSt w []))
    as [[results errors] st1]. cbn [fst snd] in *. subst results.
  destruct existing as [|d ds]; [congruence|]. cbn [ret fst snd].
  unfold localOnly.
  remember (Array_sort byDrwNo (d :: ds)) as sorted eqn:Es.
  destruct (rev sorted) as [|last pre] eqn:Er.
  { exfalso. apply (f_equal (@List.length _)) in Er.
    rewrite length_rev, Es, Array_sort_length in Er. discriminate. }
  unfold writeOut. eexists. split; [reflexivity|]. cbn [health].
  split; [rewrite Es; apply Array_sort_perm|].
  repeat (split; [reflexivity|]).
  split; [apply Herr; reflexivity|].
  cbn [log app] in Hl. rewrite Hl, map_map. cbn [fst].
  rewrite <- (map_map fst (fun src => ReqLatest (src_id src))).
  now apply Permutation_map.
Qed.

(** X21: in a run that got a latest draw, the bulk file is requested exactly
    when the loaded ledger has no last draw number (it is empty, or its
    highest number is 0) or the consensus number is more than 120 draws
    ahead of it; a gap of exactly 120 is filled draw by draw. *)
Theorem bulk_requested_iff (existing : list DrawRecord) (w : World) (c : Consensus) :
  let latest := fst (fetchLatestAllSources StringToNumber World respond settle (mkSt w [])) in
  let r := run StringToNumber World respond settle existing w in
  pickConsensusLatest (fst latest) = Some c ->
  ((exists sid resp, In (ReqAll sid, resp) (log (snd r))) <->
   lastNoOf existing = 0 \/ 120 < latestNo c - lastNoOf existing).
Proof.
  intros latest r Hc. subst latest r. unfold run.
  destruct (fetchLatest_log StringToNumber World respond settle (mkSt w []))
    as (tr & _ & Hl0).
  destruct (fetchLatestAllSources StringToNumber World respond settle (mkSt w []))
    as [[results errors] st1] eqn:E. cbn [fst snd] in Hc, Hl0.
  assert (Hne : results <> []) by (intros ->; discriminate).
  destruct (main_stages StringToNumber World respond settle existing _ _ _ _ E Hne)
    as (c' & Hc' & Hst).
  assert (c' = c) by congruence. subst c'. cbv zeta in Hst.
  set (h0 := if agreed c
             then set_latestConsensus c (set_latestFetchErrors errors health0)
             else degrade "latest_consensus_not_2of3"
                    (set_latestConsensus c (set_latestFetchErrors errors health0))) in *.
  destruct (chooseStrategy_report StringToNumber World respond existing
              (lastNoOf existing) c h0 st1) as (_ & _ & es1 & Hl1 & Hall1 & Hiff).
  destruct (chooseStrategy StringToNumber World respond existing (lastNoOf existing)
              c h0 st1) as [[d1 h1] st2]. cbn [fst snd] in *.
  destruct (incrementalFill_report StringToNumber World respond
              (lastNoOf d1) (latestNo c) d1 h1 st2) as (_ & es2 & Hl2 & Hd2).
  destruct (incrementalFill StringToNumber World respond (lastNoOf d1) (latestNo c)
              d1 h1 st2) as [[d2 h2] st3]. cbn [fst snd] in *.
  set (d3 := mergeByNo d2 [consensusDraw c]) in *.
  destruct (validateLoop_report StringToNumber World respond settle
              (Z_range (Z.max 1 (lastNoOf d3 - VALIDATE_LAST_K + 1)) (lastNoOf d3))
              d3 h2 st3) as (_ & _ & es3 & _ & Hl3 & Hd3 & _).
  destruct Hst as (d4 & h4 & _ & ->). cbn [snd].
  cbn [log app] in Hl0. rewrite Hl3, Hl2, Hl1, Hl0.
  unfold BOOTSTRAP_GAP_THRESHOLD in Hiff. rewrite <- Hiff.
  assert (Hdraw : forall es sid resp, draw_requests es -> ~ In (ReqAll sid, resp) es).
  { intros es sid resp Hd Hin. unfold draw_requests in Hd.
    rewrite Forall_forall in Hd. destruct (Hd _ Hin) as (s' & m & Hx). discriminate Hx. }
  split.
  - intros (sid & resp & Hin).
    apply in_app_or in Hin. destruct Hin as [Hin|Hin];
      [|exfalso; exact (Hdraw _ _ _ Hd3 Hin)].
    apply in_app_or in Hin. destruct Hin as [Hin|Hin];
      [|exfalso; exact (Hdraw _ _ _ Hd2 Hin)].
    apply in_app_or in Hin. destruct Hin as [Hin|Hin].
    + apply in_map_iff in Hin. destruct Hin as (x & Hx & _). discriminate Hx.
    + intros ->. contradiction.
  - intros Hne1. destruct es1 as [|[q resp] es1]; [congruence|].
    inversion Hall1 as [|? ? (sid & Hq) _]; subst. cbn [fst] in Hq. subst q.
    exists sid, resp. apply in_or_app. left. apply in_or_app. left.
    apply in_or_app. right. now left.
Qed.
End ReportFacts.

Lemma written_report_coherent_witness :
  exists file p,
    fst (run StringToNumber_dec unit (scripted gap_network) in_source_order
           ledger_1_to_3 tt) = Written file p /\
    ((status (health p) = ok <-> reasons (health p) = []) /\
     patched (validatedTail (health p)) = mismatched (validatedTail (health p)) /\
     (mismatched (validatedTail (health p)) <= attempted (validatedTail (health p)))%nat /\
     (attempted (validatedTail (health p)) <= 5)%nat /\
     latestFetchErrors (health p) =
       snd (fst (fetchLatestAllSources StringToNumber_dec unit (scripted gap_network)
                   in_source_order (mkSt tt []))) /\
     In (mode (used (health p)))
        [Some "local-only"; Some "bootstrap-all"; Some "incremental";
         Some "incremental-from-local"; Some "incremental-from-scratch"] /\
     (fst (fst (fetchLatestAllSources StringToNumber_dec unit (scripted gap_network)
                  in_source_order (mkSt tt []))) = [] <->
      mode (used (health p)) = Some "local-only")).
Proof.
  eexists _, _. split; [vm_compute; reflexivity|].
  eapply (written_report_coherent StringToNumber_dec unit (scripted gap_network)
            in_source_order ledger_1_to_3 tt).
  vm_compute. reflexivity.
Defined.

Lemma run_local_only_witness :
  fst (fst (fetchLatestAllSources StringToNumber_dec unit (scripted dead_network)
              in_source_order (mkSt tt []))) = [] /\
  ledger_1_to_3 <> [] /\
  let r := run StringToNumber_dec unit (scripted dead_network) in_source_order
             ledger_1_to_3 tt in
  exists p,
    fst r = Written (Array_sort byDrwNo ledger_1_to_3) p /\
    Permutation (Array_sort byDrwNo ledger_1_to_3) ledger_1_to_3 /\
    status (health p) = degraded /\
    reasons (health p) = ["latest_unavailable_all_sources_using_local_cache"] /\
    used (health p) = mkUsed (Some "local-only") (Some "local-cache")
                        (Some "No latest reachable") /\
    latestConsensus (health p) = None /\
    validatedTail (health p) = mkTail 0 0 0 /\
    Permutation (latestFetchErrors (health p)) (map src_id SOURCES) /\
    Permutation (map fst (log (snd r)))
      (map (fun src => ReqLatest (src_id src)) SOURCES).
Proof.
  assert (H1 : fst (fst (fetchLatestAllSources StringToNumber_dec unit
                           (scripted dead_network) in_source_order (mkSt tt []))) = [])
    by reflexivity.
  assert (H2 : ledger_1_to_3 <> []) by discriminate.
  split; [exact H1|]. split; [exact H2|].
  exact (run_local_only StringToNumber_dec unit (scripted dead_network) in_source_order
           ledger_1_to_3 tt H1 H2).
Defined.

Lemma bulk_requested_iff_witness :
  exists c,
    pickConsensusLatest
      (fst (fst (fetchLatestAllSources StringToNumber_dec unit (scripted steady_network)
                   in_source_order (mkSt tt [])))) = Some c /\
    ((exists sid resp,
        In (ReqAll sid, resp)
          (log (snd (run StringToNumber_dec unit (scripted steady_network)
                       in_source_order ledger_1_to_3 tt)))) <->
     lastNoOf ledger_1_to_3 = 0 \/ 120 < latestNo c - lastNoOf ledger_1_to_3).
Proof.
  eexists. split; [vm_compute; reflexivity|].
  apply (bulk_requested_iff StringToNumber_dec unit (scripted steady_network)
           in_source_order ledger_1_to_3 tt).
  vm_compute. reflexivity.
Defined.

(** ** The consensus and the order in which the sources settle *)

Lemma filter_perm {A : Type} (f : A -> bool) (l l' : list A) :
  Permutation l l' -> Permutation (filter f l) (filter f l').
Proof.
  induction 1 as [|x l l' _ IH|x y l|l1 l2 l3 _ IH1 _ IH2]; simpl.
  - constructor.
  - destruct (f x); [now constructor | exact IH].
  - destruct (f x), (f y); try reflexivity. apply perm_swap.
  - now transitivity (filter f l2).
Qed.

Lemma filter_disjoint_length {A : Type} (f g : A -> bool) (l : list A) :
  (forall x, In x l -> f x = true -> g x = true -> False) ->
  (List.length (filter f l) + List.length (filter g l) <= List.length l)%nat.
Proof.
  induction l as [|x l IH]; intros Hd; simpl; [lia|].
  assert (IH' : (List.length (filter f l) + List.length (filter g l) <= List.length l)%nat).
  { apply IH. intros y Hy. apply Hd. now right. }
  destruct (f x) eqn:Ef, (g x) eqn:Eg; simpl; try lia.
  exfalso. apply (Hd x); auto. now left.
Qed.

(** What [pickConsensusLatest_general] says of the choice, as bounds. *)
Lemma pickConsensusLatest_bounds (rs : list SourceResult) (c : Consensus) :
  pickConsensusLatest rs = Some c ->
  (((2 <= List.length (forNo (latestNo c) rs))%nat /\
    forall m, latestNo c < m -> (List.length (forNo m rs) < 2)%nat) \/
   ((forall m, (List.length (forNo m rs) < 2)%nat) /\
    In (latestNo c) (map (fun r => drwNo (draw r)) rs) /\
    forall r, In r rs -> drwNo (draw r) <= latestNo c)) /\
  (exists r0,
     In r0 (forNo (latestNo c) rs) /\ consensusDraw c = draw r0 /\
     consensusCount c
     = List.length (withSig (drawSig (draw r0)) (forNo (latestNo c) rs))) /\
  (forall r, In r (forNo (latestNo c) rs) ->
     (List.length (withSig (drawSig (draw r)) (forNo (latestNo c) rs))
      <= consensusCount c)%nat) /\
  agreed c = (2 <=? consensusCount c)%nat.
Proof.
  intros Hc.
  assert (Hne : rs <> []) by (intros ->; discriminate).
  destruct (pickConsensusLatest_general rs Hne)
    as (c' & r0 & l1 & l2 & Hc' & _ & Ht & Hcands & Hdraw & H1 & H2 & Hcount & Hag).
  assert (c' = c) by congruence. subst c'.
  split; [exact Ht|]. split.
  - exists r0. split; [rewrite Hcands; apply in_elt | now split].
  - split; [|exact Hag].
    intros r Hr. rewrite Hcount. rewrite Hcands in Hr.
    apply in_app_or in Hr. destruct Hr as [Hr|[<-|Hr]].
    + rewrite Forall_forall in H1. specialize (H1 r Hr). lia.
    + lia.
    + rewrite Forall_forall in H2. exact (H2 r Hr).
Qed.

(** X22: the order in which the sources settle does not change what the
    consensus reports: for two arrangements of the same results the
    resolver picks the same draw number, the same count and the same
    agreement, and the same record whenever the winning signature has more
    than half of the results of that draw number behind it (only a tie
    between signatures is broken by the order). *)
Theorem pickConsensusLatest_order_independent (rs rs' : list SourceResult)
    (c c' : Consensus) :
  Permutation rs rs' ->
  pickConsensusLatest rs = Some c ->
  pickConsensusLatest rs' = Some c' ->
  latestNo c = latestNo c' /\
  consensusCount c = consensusCount c' /\
  agreed c = agreed c' /\
  ((List.length (forNo (latestNo c) rs) < 2 * consensusCount c)%nat ->
   consensusDraw c = consensusDraw c').
Proof.
  intros Hp Hc Hc'.
  destruct (pickConsensusLatest_bounds rs c Hc) as (Ht & (r0 & Hr0 & Hd & Hn) & Hmax & Hag).
  destruct (pickConsensusLatest_bounds rs' c' Hc')
    as (Ht' & (r0' & Hr0' & Hd' & Hn') & Hmax' & Hag').
  assert (Hfor : forall m, Permutation (forNo m rs) (forNo m rs'))
    by (intros m; now apply filter_perm).
  assert (Hlen : forall m, List.length (forNo m rs') = List.length (forNo m rs))
    by (intros m; symmetry; apply Permutation_length, Hfor).
  assert (Hno : latestNo c = latestNo c').
  { destruct Ht as [[A1 A2]|[B1 [B2 B3]]], Ht' as [[A1' A2']|[B1' [B2' B3']]].
    - destruct (Z.lt_trichotomy (latestNo c) (latestNo c')) as [L|[E|L]]; [|exact E|].
      + specialize (A2 _ L). rewrite <- Hlen in A2. lia.
      + specialize (A2' _ L). rewrite Hlen in A2'. lia.
    - specialize (B1' (latestNo c)). rewrite Hlen in B1'. lia.
    - specialize (B1 (latestNo c')). rewrite <- Hlen in B1. lia.
    - apply in_map_iff in B2. destruct B2 as (x & Hx & Hxin).
      apply in_map_iff in B2'. destruct B2' as (y & Hy & Hyin).
      apply (Permutation_in _ Hp) in Hxin.
      apply (Permutation_in _ (Permutation_sym Hp)) in Hyin.
      specialize (B3 _ Hyin). specialize (B3' _ Hxin). lia. }
  rewrite <- Hno in *.
  set (cands := forNo (latestNo c) rs) in *.
  set (cands' := forNo (latestNo c) rs') in *.
  assert (Hpc : Permutation cands cands') by apply Hfor.
  assert (Hw : forall s, List.length (withSig s cands') = List.length (withSig s cands)).
  { intros s. symmetry. apply Permutation_length. unfold withSig. now apply filter_perm. }
  assert (Hcount : consensusCount c = consensusCount c').
  { apply Nat.le_antisymm.
    - rewrite Hn, <- Hw. apply Hmax'. now apply (Permutation_in _ Hpc).
    - rewrite Hn', Hw. apply Hmax. now apply (Permutation_in _ (Permutation_sym Hpc)). }
  split; [reflexivity|]. split; [exact Hcount|].
  split; [now rewrite Hag, Hag', Hcount|].
  intros Hmaj. rewrite Hd, Hd'.
  destruct (string_dec (drawSig (draw r0)) (drawSig (draw r0'))) as [E|Hne].
  { now apply drawSig_inj. }
  exfalso.
  pose proof (filter_disjoint_length
                (fun r => String.eqb (drawSig (draw r)) (drawSig (draw r0)))
                (fun r => String.eqb (drawSig (draw r)) (drawSig (draw r0')))
                cands) as Hdis.
  fold (withSig (drawSig (draw r0)) cands) in Hdis.
  fold (withSig (drawSig (draw r0')) cands) in Hdis.
  rewrite <- Hn in Hdis. rewrite <- Hw, <- Hn', <- Hcount in Hdis.
  assert (List.length cands < 2 * consensusCount c)%nat by exact Hmaj.
  assert (consensusCount c + consensusCount c <= List.length cands)%nat; [|lia].
  apply Hdis. intros x _ E1 E2.
  apply String.eqb_eq in E1, E2. congruence.
Qed.

Lemma pickConsensusLatest_order_independent_witness :
  let a := mkDraw 5 "2003-01-04" (map Fin [16; 24; 29; 40; 41; 42]) (Fin 3) in
  let b := mkDraw 5 "2003-01-04" (map Fin [16; 24; 29; 40; 41; 43]) (Fin 3) in
  let rs := [mkResult "smok95-pages" "u1" b; mkResult "smok95-raw" "u2" a;
             mkResult "smok95-jsdelivr" "u3" a] in
  let rs' := [mkResult "smok95-jsdelivr" "u3" a; mkResult "smok95-pages" "u1" b;
              mkResult "smok95-raw" "u2" a] in
  exists c c',
    Permutation rs rs' /\
    pickConsensusLatest rs = Some c /\
    pickConsensusLatest rs' = Some c' /\
    latestNo c = latestNo c' /\
    consensusCount c = consensusCount c' /\
    agreed c = agreed c' /\
    ((List.length (forNo (latestNo c) rs) < 2 * consensusCount c)%nat ->
     consensusDraw c = consensusDraw c').
Proof.
  intros a b rs rs'.
  assert (Hp : Permutation rs rs').
  { unfold rs, rs'. apply Permutation_sym.
    apply (Permutation_cons_app [_; _] []). reflexivity. }
  eexists _, _. split; [exact Hp|].
  split; [vm_compute; reflexivity|]. split; [vm_compute; reflexivity|].
  eapply (pickConsensusLatest_order_independent rs rs' _ _ Hp).
  - vm_compute. reflexivity.
  - vm_compute. reflexivity.
Defined.

(** ** The incremental fill: what is asked, what is merged, what is kept *)

Lemma asked_In (es : list (Req * option value)) (n : Z) :
  In n (asked es) <-> exists sid resp, In (ReqDraw sid n, resp) es.
Proof.
  unfold asked. rewrite in_flat_map. split.
  - intros ([req resp] & Hin & Hn). cbn [fst] in Hn.
    destruct req as [sid|sid|sid m]; try contradiction.
    destruct Hn as [->|[]]. eauto.
  - intros (sid & resp & Hin). exists (ReqDraw sid n, resp). split; [exact Hin | now left].
Qed.

Lemma asked_app (es1 es2 : list (Req * option value)) :
  asked (es1 ++ es2) = asked es1 ++ asked es2.
Proof. unfold asked. apply flat_map_app. Qed.

Lemma delivered_app (s2n : string -> num) (es1 es2 : list (Req * option value)) :
  delivered s2n (es1 ++ es2) = delivered s2n es1 ++ delivered s2n es2.
Proof. unfold delivered. apply flat_map_app. Qed.

Lemma delivered_In (s2n : string -> num) (es : list (Req * option value))
    (d : DrawRecord) :
  In d (delivered s2n es) <->
  exists req resp, In (req, resp) es /\ attempt_result s2n resp = Some d.
Proof.
  unfold delivered. rewrite in_flat_map. split.
  - intros ([req resp] & Hin & Hd). cbn [snd] in Hd.
    destruct (attempt_result s2n resp) as [d'|] eqn:E; [|contradiction].
    destruct Hd as [->|[]]. eauto.
  - intros (req & resp & Hin & E). exists (req, resp). split; [exact Hin|].
    cbn [snd]. rewrite E. now left.
Qed.

Lemma sorted_app {A : Type} (R : A -> A -> Prop) (l1 l2 : list A) :
  StronglySorted R l1 -> StronglySorted R l2 ->
  (forall x y, In x l1 -> In y l2 -> R x y) ->
  StronglySorted R (l1 ++ l2).
Proof.
  induction 1 as [|a l1 Hs IH Ha]; intros H2 Hx; simpl; [exact H2|].
  constructor.
  - apply IH; [exact H2|]. intros x y Hin. apply Hx. now right.
  - apply Forall_app. split; [exact Ha|].
    apply Forall_forall. intros y Hy. apply Hx; [now left | exact Hy].
Qed.

Lemma sorted_constant (n : Z) (l : list Z) :
  (forall x, In x l -> x = n) -> StronglySorted Z.le l.
Proof.
  induction l as [|a l IH]; intros H; constructor.
  - apply IH. intros x Hx. apply H. now right.
  - apply Forall_forall. intros x Hx.
    rewrite (H a), (H x); [lia | now right | now left].
Qed.

(** The ledger after a series of single merges holds under each number the
    last record merged for it, or else the record it held before. *)
Lemma fold_merge_winner (ds : list DrawRecord) :
  forall (L : list DrawRecord) (k : Z),
    winner k (fold_left (fun l d => mergeByNo l [d]) ds L) = winner k (L ++ ds).
Proof.
  induction ds as [|d ds IH]; intros L k; simpl.
  - now rewrite app_nil_r.
  - rewrite IH. change (L ++ d :: ds) with (L ++ [d] ++ ds).
    rewrite app_assoc, (winner_app k (mergeByNo L [d]) ds), (winner_app k (L ++ [d]) ds).
    now rewrite winner_mergeByNo.
Qed.

Lemma fold_merge_In (ds : list DrawRecord) (L : list DrawRecord) (d : DrawRecord) :
  ds <> [] ->
  (In d (fold_left (fun l d => mergeByNo l [d]) ds L) <->
   winner (drwNo d) (L ++ ds) = Some d).
Proof.
  intros Hne. rewrite <- fold_merge_winner.
  assert (Hc : exists M x, fold_left (fun l d => mergeByNo l [d]) ds L = mergeByNo M [x]).
  { destruct (exists_last Hne) as (ds' & x & ->).
    rewrite fold_left_app. simpl. eauto. }
  destruct Hc as (M & x & ->).
  rewrite winner_mergeByNo. apply mergeByNo_In.
Qed.

Section FillFacts.
Variable StringToNumber : string -> num.

Local Abbreviation delivered' := (delivered StringToNumber).
Local Abbreviation failed' := (failed_everywhere StringToNumber).

Lemma FallbackTrace_delivered (n : Z) (srcs : list Source)
    (es : list (Req * option value)) (r : option SourceResult) :
  FallbackTrace StringToNumber n srcs es r ->
  delivered' es = match r with Some g => [draw g] | None => [] end.
Proof.
  induction 1 as [|src rest resp d Hd|src rest resp es r Hd Htr IH].
  - reflexivity.
  - unfold delivered. simpl. now rewrite Hd.
  - unfold delivered in *. simpl. now rewrite Hd.
Qed.

Lemma FallbackTrace_asked (n : Z) (srcs : list Source)
    (es : list (Req * option value)) (r : option SourceResult) :
  FallbackTrace StringToNumber n srcs es r ->
  (forall m, In m (asked es) -> m = n) /\ (srcs <> [] -> In n (asked es)).
Proof.
  intros H. split.
  - intros m Hm. apply asked_In in Hm. destruct Hm as (sid & resp & Hin).
    destruct (FallbackTrace_requests StringToNumber _ _ _ _ H _ Hin) as (src & _ & E).
    cbn [fst] in E. congruence.
  - intros Hne. apply asked_In.
    destruct H as [|src rest resp d Hd|src rest resp es r Hd Htr]; [congruence| |];
      exists (src_id src), resp; now left.
Qed.

Lemma failed_app_other (es1 es2 : list (Req * option value)) (n : Z) :
  ~ In n (asked es1) -> (failed' (es1 ++ es2) n <-> failed' es2 n).
Proof.
  intros Hn.
  assert (Hin : forall sid resp,
            In (ReqDraw sid n, resp) (es1 ++ es2) <-> In (ReqDraw sid n, resp) es2).
  { intros sid resp. rewrite in_app_iff. split; [|auto].
    intros [H|H]; [|exact H]. exfalso. apply Hn, asked_In. eauto. }
  unfold failed_everywhere. split; intros [A B]; split.
  - intros src Hs. destruct (A src Hs) as (resp & H). exists resp. now apply Hin.
  - intros sid resp H. apply (B sid resp). now apply Hin.
  - intros src Hs. destruct (A src Hs) as (resp & H). exists resp. now apply Hin.
  - intros sid resp H. apply (B sid resp). now apply Hin.
Qed.

Lemma failed_asked (es : list (Req * option value)) (n : Z) :
  failed' es n -> In n (asked es).
Proof.
  intros [A _]. apply asked_In.
  destruct (A (hd (mkSource "" "" "" (fun _ => "")) SOURCES)) as (resp & H); [now left|].
  eauto.
Qed.

(** The fill over the numbers [ns], in ascending order. *)
Lemma FillTrace_account (ns : list Z) (draws : list DrawRecord) (h : Health)
    (es : list (Req * option value)) (draws' : list DrawRecord) (h' : Health) :
  FillTrace StringToNumber ns draws h es draws' h' ->
  StronglySorted Z.lt ns ->
  (forall m, In m (asked es) -> In m ns) /\
  StronglySorted Z.le (asked es) /\
  (forall n, In n ns ->
     In n (asked es) \/ exists m, In m ns /\ m < n /\ failed' es m) /\
  draws' = fold_left (fun l d => mergeByNo l [d]) (delivered' es) draws /\
  (answers_as_asked StringToNumber es ->
   StronglySorted Z.lt (map drwNo (delivered' es)) /\
   forall d, In d (delivered' es) -> In (drwNo d) ns) /\
  (forall n, failed' es n ->
     reasons h' = reasons h
                  ++ [String.append "incremental_fetch_failed_at_" (decimal n)]) /\
  ((forall n, ~ failed' es n) -> h' = h).
Proof.
  induction 1 as [draws h
                 |n rest draws h es es' g draws' h' Hfb Hfill IH
                 |n rest draws h es Hfb]; intros Hsorted.
  - split; [intros m []|]. split; [constructor|]. split; [intros n []|].
    split; [reflexivity|]. split; [intros _; split; [constructor | intros d []]|].
    split; [|reflexivity].
    intros n Hf. apply failed_asked in Hf. contradiction.
  - inversion Hsorted as [|? ? Hs Hlt]; subst. rewrite Forall_forall in Hlt.
    destruct (IH Hs) as (Hin & Hord & Hcomp & Hfold & Hkeep & Hfail & Hok).
    destruct (FallbackTrace_asked _ _ _ _ Hfb) as [Hn Hasked].
    pose proof (FallbackTrace_delivered _ _ _ _ Hfb) as Hdel. cbn in Hdel.
    assert (Hn0 : In n (asked es)) by (apply Hasked; discriminate).
    assert (Hother : forall m, In m rest -> ~ In m (asked es)).
    { intros m Hm Ha. apply Hn in Ha. subst m. specialize (Hlt _ Hm). lia. }
    rewrite asked_app, delivered_app, Hdel.
    split; [|split; [|split; [|split; [|split; [|split]]]]].
    + intros m Hm. apply in_app_or in Hm. destruct Hm as [Hm|Hm];
        [left; symmetry; now apply Hn | right; now apply Hin].
    + apply sorted_app; [apply (sorted_constant n); exact Hn | exact Hord|].
      intros x y Hx Hy. apply Hn in Hx. subst x. specialize (Hlt _ (Hin _ Hy)). lia.
    + intros m [<-|Hm]; [left; apply in_or_app; now left|].
      destruct (Hcomp m Hm) as [Ha|(m' & Hm' & Hlt' & Hf)].
      * left. apply in_or_app. now right.
      * right. exists m'. split; [now right|]. split; [exact Hlt'|].
        apply failed_app_other; [now apply Hother | exact Hf].
    + exact Hfold.
    + intros Has.
      assert (Has' : answers_as_asked StringToNumber es').
      { intros sid m resp d Hi. apply (Has sid m resp d). apply in_or_app. now right. }
      destruct (Hkeep Has') as [Hsd Hind].
      assert (Eg : drwNo (draw g) = n).
      { assert (Hg : In (draw g) (delivered' es)) by (rewrite Hdel; now left).
        apply delivered_In in Hg. destruct Hg as (req & resp & Hi & Ea).
        destruct (FallbackTrace_requests StringToNumber _ _ _ _ Hfb _ Hi) as (src & _ & E).
        cbn [fst] in E. subst req.
        apply (Has (src_id src) n resp); [apply in_or_app; now left | exact Ea]. }
      split.
      * cbn [app map]. constructor; [exact Hsd|].
        apply Forall_forall. intros k Hk. apply in_map_iff in Hk.
        destruct Hk as (d & <- & Hd). rewrite Eg. apply Hlt. now apply Hind.
      * intros d [<-|Hd]; [left; now symmetry | right; now apply Hind].
    + intros n' Hf.
      assert (Hne : n' <> n).
      { intros ->. destruct Hf as [_ Hnone].
        assert (Hg : In (draw g) (delivered' es)) by (rewrite Hdel; now left).
        apply delivered_In in Hg. destruct Hg as (req & resp & Hi & Ea).
        destruct (FallbackTrace_requests StringToNumber _ _ _ _ Hfb _ Hi) as (src & _ & E).
        cbn [fst] in E. subst req.
        rewrite (Hnone (src_id src) resp) in Ea; [discriminate|].
        apply in_or_app. now left. }
      apply Hfail. apply (failed_app_other es es' n'); [|exact Hf].
      intros Ha. apply Hn in Ha. contradiction.
    + intros Hno. apply Hok. intros n' Hf.
      apply (Hno n'). apply failed_app_other; [|exact Hf].
      intros Ha. apply Hn in Ha. subst n'.
      apply failed_asked in Hf. apply Hin in Hf. specialize (Hlt _ Hf). lia.
  - destruct (FallbackTrace_asked _ _ _ _ Hfb) as [Hn Hasked].
    pose proof (FallbackTrace_delivered _ _ _ _ Hfb) as Hdel. cbn in Hdel.
    destruct (FallbackTrace_failure StringToNumber _ _ _ Hfb) as (Hall & Hnone).
    assert (Hf0 : failed' es n).
    { split; [intros src Hs; now apply Hall|].
      intros sid resp Hi. exact (Hnone _ Hi). }
    inversion Hsorted as [|? ? Hs Hlt]; subst. rewrite Forall_forall in Hlt.
    rewrite Hdel.
    split; [intros m Hm; left; symmetry; now apply Hn|].
    split; [apply (sorted_constant n); exact Hn|].
    split.
    { intros m [<-|Hm]; [left; apply Hasked; discriminate|].
      right. exists n. split; [now left|]. split; [now apply Hlt | exact Hf0]. }
    split; [reflexivity|].
    split; [intros _; split; [constructor | intros d []]|].
    split.
    + intros n' Hf. apply failed_asked in Hf. apply Hn in Hf. subst n'. reflexivity.
    + intros Hno. exfalso. now apply (Hno n).
Qed.
End FillFacts.

Lemma sorted_lt_NoDup (l : list Z) : StronglySorted Z.lt l -> NoDup l.
Proof.
  induction 1 as [|a l Hs IH Ha]; constructor; [|exact IH].
  intros Hin. rewrite Forall_forall in Ha. specialize (Ha _ Hin). lia.
Qed.

Section FillTheorem.
Variable StringToNumber : string -> num.
Variable World : Type.
Variable respond : Req -> World -> option value * World.

(** C7 (amended): the incremental fill asks for the draw numbers above the
    current highest up to the target in ascending order, each over the
    sources in priority order until one delivers, and merges each delivered
    record at once under the draw number the record carries.  A number of
    the range is asked for exactly when no lower number of the range has
    failed on every source: after such a failure the fill asks for nothing
    higher, and the run is degraded with the reason for that number (and is
    left as it was when nothing failed).  The ledger after the fill holds
    exactly the draw numbers held before and those delivered, under each the
    last record delivered for it or else the record held before; so every
    delivered record itself is in the ledger when every answer carries the
    number it was asked for. *)
Theorem incrementalFill_stops_at_first_failure (cur latestNo : Z)
    (draws : list DrawRecord) (h : Health) (st : St World) :
  let r := incrementalFill StringToNumber World respond cur latestNo draws h st in
  let draws' := fst (fst r) in
  let h' := snd (fst r) in
  exists es,
    log (snd r) = log st ++ es /\
    FillTrace StringToNumber (Z_range (cur + 1) latestNo) draws h es draws' h' /\
    (forall e, In e es -> exists sid m, fst e = ReqDraw sid m /\ cur < m <= latestNo) /\
    StronglySorted Z.le (asked es) /\
    (forall n, cur < n <= latestNo ->
       (In n (asked es) <->
        forall m, cur < m < n -> ~ failed_everywhere StringToNumber es m)) /\
    draws' = fold_left (fun l d => mergeByNo l [d]) (delivered StringToNumber es) draws /\
    (forall k, winner k draws' = winner k (draws ++ delivered StringToNumber es)) /\
    (forall k, hasNo k draws' <->
               hasNo k draws \/ hasNo k (delivered StringToNumber es)) /\
    (answers_as_asked StringToNumber es ->
     forall d, In d (delivered StringToNumber es) -> In d draws') /\
    (forall n, failed_everywhere StringToNumber es n ->
       status h' = degraded /\
       reasons h' = reasons h
                    ++ [String.append "incremental_fetch_failed_at_" (decimal n)] /\
       forall m, In m (asked es) -> m <= n) /\
    ((forall n, ~ failed_everywhere StringToNumber es n) -> h' = h).
Proof.
  intros r draws' h'.
  assert (Htr : exists es, log (snd r) = log st ++ es /\
            FillTrace StringToNumber (Z_range (cur + 1) latestNo) draws h es draws' h').
  { subst r draws' h'. unfold incrementalFill.
    destruct (Z.ltb_spec cur latestNo) as [Hlt|Hge].
    - apply fillLoop_trace.
    - exists []. rewrite app_nil_r. split; [reflexivity|].
      rewrite (Z_range_empty (cur + 1) latestNo) by lia. constructor. }
  destruct Htr as (es & Hlog & Htr). exists es.
  destruct (FillTrace_facts StringToNumber _ _ _ _ _ _ Htr (Z_range_sorted _ _))
    as (Hreq & _ & _ & Hstop).
  destruct (FillTrace_account StringToNumber _ _ _ _ _ _ Htr (Z_range_sorted _ _))
    as (Hin & Hord & Hcomp & Hfold & Hkeep & Hfail & Hok).
  assert (Hw : forall k, winner k draws' = winner k (draws ++ delivered StringToNumber es))
    by (intros k; rewrite Hfold; apply fold_merge_winner).
  split; [exact Hlog|]. split; [exact Htr|].
  split.
  { intros e He. destruct (Hreq e He) as (sid & m & E & Hm). apply Z_range_In in Hm.
    exists sid, m. split; [exact E | lia]. }
  split; [exact Hord|].
  split.
  { intros n Hn. split.
    - intros Ha m Hm Hf. destruct (Hstop m Hf) as (_ & _ & Hle).
      apply asked_In in Ha. destruct Ha as (sid & resp & Hi).
      specialize (Hle _ _ _ Hi). lia.
    - intros Hno. destruct (Hcomp n) as [Ha|(m & Hm & Hlt & Hf)];
        [apply Z_range_In; lia | exact Ha|].
      exfalso. apply Z_range_In in Hm. apply (Hno m); [lia | exact Hf]. }
  split; [exact Hfold|]. split; [exact Hw|].
  split.
  { intros k.
    assert (Hh : forall l, hasNo k l <-> winner k l <> None).
    { intros l. pose proof (winner_None k l) as Hn.
      split.
      - intros H E. now apply Hn in E.
      - intros H. destruct (in_dec Z.eq_dec k (map drwNo l)) as [Hi|Hi]; [exact Hi|].
        exfalso. apply H, Hn. exact Hi. }
    rewrite (Hh draws'), Hw, <- (Hh (draws ++ delivered StringToNumber es)).
    unfold hasNo. rewrite map_app, in_app_iff. reflexivity. }
  split.
  { intros Has d Hd. destruct (Hkeep Has) as [Hsd _].
    rewrite Hfold. apply fold_merge_In; [intros E; rewrite E in Hd; contradiction|].
    rewrite winner_app, winner_lookup by (now apply sorted_lt_NoDup).
    rewrite (lookupNo_unique _ (drwNo d) d); auto. now apply sorted_lt_NoDup. }
  split.
  { intros n Hf. destruct (Hstop n Hf) as (Hs & _ & Hle).
    split; [exact Hs|]. split; [now apply Hfail|].
    intros m Hm. apply asked_In in Hm. destruct Hm as (sid & resp & Hi).
    exact (Hle _ _ _ Hi). }
  exact Hok.
Qed.
End FillTheorem.

(** C7 (as stated, refuted): the ledger holds draws 1 to 3.  On the first
    network the target is draw 7 and no mirror has draw 5: the fill stops at
    5, yet the same run goes on to ask every mirror for draws 6 and 7 in its
    tail validation, and writes a ledger that holds them over the gap.  On
    the second network the answer to the request for draw 5 is another
    record numbered 4: the fill merges it over the record it merged for
    draw 4 just before, which is then no longer in the ledger. *)
Lemma fill_failure_is_not_final :
  (let r := run StringToNumber_dec unit (scripted gap_network) in_source_order
              ledger_1_to_3 tt in
   failed_everywhere StringToNumber_dec (log (snd r)) 5 /\
   (forall src, In src SOURCES ->
      In (ReqDraw (src_id src) 6, Some (mirrored 6)) (log (snd r)) /\
      In (ReqDraw (src_id src) 7, Some (mirrored 7)) (log (snd r))) /\
   exists file p,
     fst r = Written file p /\ map drwNo file = [1; 2; 3; 4; 6; 7] /\
     In "incremental_fetch_failed_at_5" (reasons (health p))) /\
  (let r := incrementalFill StringToNumber_dec unit (scripted echo_network) 3 6
              ledger_1_to_3 health0 (mkSt tt []) in
   let a := mkDraw 4 "2003-01-04" (map Fin [16; 24; 29; 40; 41; 42]) (Fin 3) in
   let b := mkDraw 4 "2003-01-04" (map Fin [1; 2; 3; 4; 5; 6]) (Fin 7) in
   delivered StringToNumber_dec (log (snd r)) = [a; b] /\
   failed_everywhere StringToNumber_dec (log (snd r)) 6 /\
   lookupNo 4 (fst (fst r)) = Some b /\
   ~ In a (fst (fst r))).
Proof.
  split.
  - intros r.
    split; [|split].
    + split.
      * intros src Hsrc. exists None. simpl in Hsrc.
        destruct Hsrc as [<-|[<-|[<-|[]]]]; vm_compute; intuition reflexivity.
      * intros sid resp Hin. vm_compute in Hin.
        repeat (destruct Hin as [Hin|Hin];
                [try discriminate Hin; injection Hin as _ <-; reflexivity|]).
        contradiction.
    + intros src Hsrc. simpl in Hsrc.
      destruct Hsrc as [<-|[<-|[<-|[]]]]; vm_compute; intuition reflexivity.
    + eexists _, _. split; [vm_compute; reflexivity|].
      split; [reflexivity|]. vm_compute. intuition reflexivity.
  - intros r a b.
    split; [vm_compute; reflexivity|]. split; [|split].
    + split.
      * intros src Hsrc. exists None. simpl in Hsrc.
        destruct Hsrc as [<-|[<-|[<-|[]]]]; vm_compute; intuition reflexivity.
      * intros sid resp Hin. vm_compute in Hin.
        repeat (destruct Hin as [Hin|Hin];
                [try discriminate Hin; injection Hin as _ <-; reflexivity|]).
        contradiction.
    + vm_compute. reflexivity.
    + intros Hin. vm_compute in Hin.
      repeat (destruct Hin as [Hin|Hin]; [discriminate Hin|]). contradiction.
Qed.

(** ** The loaded ledger and the mode of the run *)

Section LoadedLedger.
Variable StringToNumber : string -> num.
Variable World : Type.
Variable respond : Req -> World -> option value * World.
Variable settle : World -> nat * World.

Lemma chooseStrategy_bootstrap_all (existing existing' : list DrawRecord) (L : Z)
    (c : Consensus) (h : Health) (st : St World) :
  mode (used (snd (fst (chooseStrategy StringToNumber World respond existing L c h st))))
  = Some "bootstrap-all" ->
  chooseStrategy StringToNumber World respond existing' L c h st
  = chooseStrategy StringToNumber World respond existing L c h st.
Proof.
  unfold chooseStrategy, bind, ret.
  destruct ((L =? 0) || (BOOTSTRAP_GAP_THRESHOLD <? latestNo c - L));
    [|cbn; discriminate].
  destruct (fetchAllWithFallback StringToNumber World respond st) as [all st1].
  destruct all as [[sid draws]|]; cbn [fst snd].
  - destruct (rev draws) as [|last pre]; [|reflexivity].
    unfold bootstrapFailed. destruct (0 <? L); cbn; discriminate.
  - unfold bootstrapFailed. destruct (0 <? L); cbn; discriminate.
Qed.

Lemma run_bootstrap_all (existing existing' : list DrawRecord) (w : World)
    (file : list DrawRecord) (p : Payload) :
  fst (run StringToNumber World respond settle existing w) = Written file p ->
  mode (used (health p)) = Some "bootstrap-all" ->
  lastNoOf existing' = lastNoOf existing ->
  run StringToNumber World respond settle existing' w
  = run StringToNumber World respond settle existing w.
Proof.
  intros Hw Hm HL. unfold run in *.
  destruct (fetchLatestAllSources StringToNumber World respond settle (mkSt w []))
    as [[results errors] st1] eqn:E.
  destruct (main_written StringToNumber World respond settle existing _ _ _ _ _ _ E Hw)
    as (_ & _ & _ & _ & _ & Hlocal).
  destruct results as [|r rs].
  { destruct Hlocal as [Hl _]. rewrite (Hl eq_refl) in Hm. discriminate. }
  clear Hlocal.
  destruct (main_stages StringToNumber World respond settle existing _ _ _ _ E)
    as (c & Hc & d4 & h4 & E4 & Hmain); [discriminate|].
  destruct (main_stages StringToNumber World respond settle existing' _ _ _ _ E)
    as (c' & Hc' & d4' & h4' & E4' & Hmain'); [discriminate|].
  rewrite Hc in Hc'. injection Hc' as <-. cbv zeta in *.
  rewrite HL in E4', Hmain'.
  set (h0 := if agreed c
             then set_latestConsensus c (set_latestFetchErrors errors health0)
             else degrade "latest_consensus_not_2of3"
                    (set_latestConsensus c (set_latestFetchErrors errors health0))) in *.
  assert (Hs1 : mode (used (snd (fst (chooseStrategy StringToNumber World respond existing
                                        (lastNoOf existing) c h0 st1))))
                = Some "bootstrap-all").
  { set (s1 := chooseStrategy StringToNumber World respond existing
                 (lastNoOf existing) c h0 st1) in *.
    rewrite Hmain in Hw. cbn [fst] in Hw.
    destruct (finalize_written _ _ _ _ _ Hw) as (_ & _ & _ & _ & Hu).
    rewrite Hu in Hm.
    set (s2 := incrementalFill StringToNumber World respond (lastNoOf (fst (fst s1)))
                 (latestNo c) (fst (fst s1)) (snd (fst s1)) (snd s1)) in *.
    destruct (validateLoop_report StringToNumber World respond settle
                (Z_range (Z.max 1 (lastNoOf (mergeByNo (fst (fst s2)) [consensusDraw c])
                                   - VALIDATE_LAST_K + 1))
                   (lastNoOf (mergeByNo (fst (fst s2)) [consensusDraw c])))
                (mergeByNo (fst (fst s2)) [consensusDraw c]) (snd (fst s2)) (snd s2))
      as (d & h & es & Ev & _ & _ & _ & _ & Hused & _).
    cbv zeta in Ev. rewrite E4 in Ev. injection Ev as <- <-.
    rewrite Hused in Hm.
    destruct (incrementalFill_carries StringToNumber World respond
                (lastNoOf (fst (fst s1))) (latestNo c) (fst (fst s1)) (snd (fst s1))
                (snd s1)) as (_ & _ & Hmode & _).
    fold s2 in Hmode. rewrite Hmode in Hm. exact Hm. }
  rewrite (chooseStrategy_bootstrap_all existing existing' _ _ _ _ Hs1) in E4', Hmain'.
  rewrite E4 in E4'. injection E4' as <- <-.
  rewrite Hmain, Hmain'. reflexivity.
Qed.

(** C1 (amended): a run that starts from a non-empty ledger always writes a
    ledger, and whenever it built on the loaded one (local-only,
    incremental, or incremental from the local ledger after a failed
    bootstrap: any mode but [bootstrap-all] and [incremental-from-scratch])
    every draw number of the loaded ledger is in the ledger written.  In
    mode [bootstrap-all] the loaded ledger is not merged: the run, with its
    requests and the files it writes, is the run from any other ledger with
    the same highest draw number. *)
Theorem loaded_draws_survive (existing : list DrawRecord) (w : World) :
  existing <> [] ->
  exists file p,
    fst (run StringToNumber World respond settle existing w) = Written file p /\
    (built_on_local (health p) -> forall k, hasNo k existing -> hasNo k file) /\
    (mode (used (health p)) = Some "bootstrap-all" ->
     forall existing', lastNoOf existing' = lastNoOf existing ->
       run StringToNumber World respond settle existing' w
       = run StringToNumber World respond settle existing w).
Proof.
  intros Hne.
  destruct (run_on_loaded_ledger StringToNumber World respond settle existing w Hne)
    as (file & p & Hw & Hkeep).
  exists file, p. split; [exact Hw|]. split; [exact Hkeep|].
  intros Hm existing' HL. exact (run_bootstrap_all existing existing' w file p Hw Hm HL).
Qed.
End LoadedLedger.

Lemma loaded_draws_survive_witness :
  ledger_1_to_3 <> [] /\
  exists file p,
    fst (run StringToNumber_dec unit (scripted steady_network) in_source_order
           ledger_1_to_3 tt) = Written file p /\
    (built_on_local (health p) -> forall k, hasNo k ledger_1_to_3 -> hasNo k file) /\
    (mode (used (health p)) = Some "bootstrap-all" ->
     forall existing', lastNoOf existing' = lastNoOf ledger_1_to_3 ->
       run StringToNumber_dec unit (scripted steady_network) in_source_order existing' tt
       = run StringToNumber_dec unit (scripted steady_network) in_source_order
           ledger_1_to_3 tt).
Proof.
  assert (H : ledger_1_to_3 <> []) by discriminate.
  split; [exact H|].
  exact (loaded_draws_survive StringToNumber_dec unit (scripted steady_network)
           in_source_order ledger_1_to_3 tt H).
Defined.
